(** * Biketerra Gradient Colors: the gradient and direction engine

    A shallow embedding of the numeric core of [package/content.js]
    (the current content script: [gradientToColor], [interpolateElevation],
    [computeGradientAtDistance], [getSvgYAtX], [sumSquaredError],
    [normalizeArray], [findAsymmetricPositions], [detectRouteDirection],
    [lerpColor], the segment loop of [processElevationSVG] and the grade
    indicator [updateGradientCircleColor]) and of the preview bar of
    [package/options.js] ([updatePreview]), followed by the properties the
    specification states about it and by further properties of the code.

    Number model.  A JavaScript number is modelled by [num]: an exact
    rational, or one of the three special values [+Infinity], [-Infinity]
    and [NaN].  Rounding of doubles and the sign of zero are not modelled;
    every operation that can leave the finite range (division by zero,
    [Math.min()] of nothing, ...) produces the special value JavaScript
    produces.  Exceptions are modelled by the [res] type: the only exception
    this code can raise is the [TypeError] of a property access on
    [undefined]. *)

From Stdlib Require Import String Ascii.
From Stdlib Require Import QArith Qabs Qround Qminmax Lqa Lia ZArith.
From Stdlib Require Import List Bool Permutation Sorted.
Import ListNotations.

Local Open Scope Q_scope.

(* ================================================================== *)
(** ** JavaScript numbers *)
(* ================================================================== *)

Module JsNum.

Inductive num : Type :=
| Fin (q : Q)
| PInf
| NInf
| NaN.

Definition Qlt_bool (a b : Q) : bool := negb (Qle_bool b a).

(** Sign of a rational: [Gt] positive, [Lt] negative, [Eq] zero. *)
Definition Qsign (a : Q) : comparison := a ?= 0.

Definition jneg (a : num) : num :=
  match a with
  | Fin q => Fin (- q)
  | PInf => NInf
  | NInf => PInf
  | NaN => NaN
  end.

Definition jadd (a b : num) : num :=
  match a, b with
  | NaN, _ | _, NaN => NaN
  | Fin p, Fin q => Fin (p + q)
  | PInf, NInf | NInf, PInf => NaN
  | PInf, _ | _, PInf => PInf
  | NInf, _ | _, NInf => NInf
  end.

Definition jsub (a b : num) : num := jadd a (jneg b).

(** An infinity ([+Infinity] when [positive]) times a rational. *)
Definition inf_times (positive : bool) (q : Q) : num :=
  match Qsign q with
  | Eq => NaN
  | Gt => if positive then PInf else NInf
  | Lt => if positive then NInf else PInf
  end.

Definition jmul (a b : num) : num :=
  match a, b with
  | NaN, _ | _, NaN => NaN
  | Fin p, Fin q => Fin (p * q)
  | PInf, Fin q | Fin q, PInf => inf_times true q
  | NInf, Fin q | Fin q, NInf => inf_times false q
  | PInf, PInf | NInf, NInf => PInf
  | PInf, NInf | NInf, PInf => NInf
  end.

(** Division.  A finite number divided by zero is an infinity of the sign
    of the numerator, and [0/0] is [NaN]. *)
Definition jdiv (a b : num) : num :=
  match a, b with
  | NaN, _ | _, NaN => NaN
  | Fin p, Fin q =>
      if Qeq_bool q 0 then
        match Qsign p with
        | Eq => NaN
        | Gt => PInf
        | Lt => NInf
        end
      else Fin (p / q)
  | Fin _, PInf | Fin _, NInf => Fin 0
  | PInf, Fin q => if Qlt_bool q 0 then NInf else PInf
  | NInf, Fin q => if Qlt_bool q 0 then PInf else NInf
  | _, _ => NaN
  end.

(** [a <= b]; every comparison with [NaN] is false. *)
Definition jle (a b : num) : bool :=
  match a, b with
  | NaN, _ | _, NaN => false
  | Fin p, Fin q => Qle_bool p q
  | NInf, _ => true
  | _, PInf => true
  | _, _ => false
  end.

Definition jlt (a b : num) : bool :=
  match a, b with
  | NaN, _ | _, NaN => false
  | Fin p, Fin q => Qlt_bool p q
  | NInf, NInf => false
  | PInf, PInf => false
  | NInf, _ => true
  | _, PInf => true
  | _, _ => false
  end.

Definition jge (a b : num) : bool := jle b a.
Definition jgt (a b : num) : bool := jlt b a.

(** [Math.max(a, b)] and [Math.min(a, b)]: [NaN] if either argument is. *)
Definition jmax (a b : num) : num :=
  match a, b with
  | NaN, _ | _, NaN => NaN
  | _, _ => if jle b a then a else b
  end.

Definition jmin (a b : num) : num :=
  match a, b with
  | NaN, _ | _, NaN => NaN
  | _, _ => if jle a b then a else b
  end.

(** [Math.max(...arr)] and [Math.min(...arr)]; of nothing these are
    [-Infinity] and [Infinity]. *)
Definition jmax_list (arr : list num) : num := fold_left jmax arr NInf.
Definition jmin_list (arr : list num) : num := fold_left jmin arr PInf.

Definition jabs (a : num) : num :=
  match a with
  | Fin q => Fin (Qabs q)
  | PInf | NInf => PInf
  | NaN => NaN
  end.

Definition jfloor (a : num) : num :=
  match a with
  | Fin q => Fin (inject_Z (Qfloor q))
  | _ => a
  end.

(** Truthiness of a number: [0] and [NaN] are falsy. *)
Definition truthy (a : num) : bool :=
  match a with
  | Fin q => negb (Qeq_bool q 0)
  | NaN => false
  | _ => true
  end.

(** [a || b] on numbers. *)
Definition jor (a b : num) : num := if truthy a then a else b.

(** [a == b] on numbers. *)
Definition jeqb (a b : num) : bool :=
  match a, b with
  | Fin p, Fin q => Qeq_bool p q
  | PInf, PInf | NInf, NInf => true
  | _, _ => false
  end.

(** Equality of numbers up to the representation of the rational. *)
Definition jeq (a b : num) : Prop :=
  match a, b with
  | Fin p, Fin q => p == q
  | PInf, PInf | NInf, NInf | NaN, NaN => True
  | _, _ => False
  end.

End JsNum.
Import JsNum.

Declare Scope js_scope.
Delimit Scope js_scope with js.
Bind Scope js_scope with num.
Infix "+" := jadd : js_scope.
Infix "-" := jsub : js_scope.
Infix "*" := jmul : js_scope.
Infix "/" := jdiv : js_scope.
Notation "- a" := (jneg a) : js_scope.

(* ================================================================== *)
(** ** Results of a call: a value, a TypeError, or a loop out of fuel *)
(* ================================================================== *)

Inductive res (A : Type) : Type :=
| Ok (a : A)
| TypeError
| OutOfFuel.
Arguments Ok {A} a.
Arguments TypeError {A}.
Arguments OutOfFuel {A}.

Definition bind {A B : Type} (r : res A) (k : A -> res B) : res B :=
  match r with
  | Ok a => k a
  | TypeError => TypeError
  | OutOfFuel => OutOfFuel
  end.

Notation "x <- c ;; k" := (bind c (fun x => k))
  (at level 61, c at next level, right associativity).

(** [arr[i]] followed by a property access: a [TypeError] when [arr[i]] is
    [undefined]. *)
Definition get {A : Type} (arr : list A) (i : nat) : res A :=
  match nth_error arr i with
  | Some a => Ok a
  | None => TypeError
  end.

(* ================================================================== *)
(** ** Data model *)
(* ================================================================== *)

Record RoutePoint : Type := mkRoutePoint { distance : num; elevation : num }.

Record ScreenPoint : Type := mkScreenPoint { x : num; y : num }.

Inductive Direction : Type := Forward | Reverse.

(* ================================================================== *)
(** ** Elevation Interpolator: [interpolateElevation] *)
(* ================================================================== *)

(** The binary search loop [while (lo < hi - 1)].  Each iteration costs one
    unit of fuel. *)
Fixpoint bsearch (fuel : nat) (routePoints : list RoutePoint) (dist : num)
  (lo hi : nat) : res (nat * nat) :=
  if (lo <? hi - 1)%nat then
    match fuel with
    | O => OutOfFuel
    | S fuel' =>
        let mid := ((lo + hi) / 2)%nat in
        pm <- get routePoints mid ;;
        if jle (distance pm) dist
        then bsearch fuel' routePoints dist mid hi
        else bsearch fuel' routePoints dist lo mid
    end
  else Ok (lo, hi).

(** The parameter [distance] of the source is [dist] here and below,
    [distance] being the field of a route point. *)
Definition interpolateElevation (routePoints : list RoutePoint) (dist : num)
  : res num :=
  match routePoints with
  | [] => Ok (Fin 0)
  | first :: _ =>
      if jle dist (distance first) then Ok (elevation first)
      else
        let lst := last routePoints first in
        if jge dist (distance lst) then Ok (elevation lst)
        else
          b <- bsearch (length routePoints) routePoints dist
                 0 (length routePoints - 1) ;;
          p1 <- get routePoints (fst b) ;;
          p2 <- get routePoints (snd b) ;;
          let t := ((dist - distance p1) / (distance p2 - distance p1))%js in
          Ok (elevation p1 + t * (elevation p2 - elevation p1))%js
  end.

(* ================================================================== *)
(** ** Windowed Gradient Estimator: [computeGradientAtDistance] *)
(* ================================================================== *)

(** The default of the [windowSize] parameter. *)
Definition defaultWindowSize : num := Fin 50.

Definition computeGradientAtDistance (routePoints : list RoutePoint)
  (dist totalDistance windowSize : num) : res num :=
  let d1 := jmax (Fin 0) (dist - windowSize)%js in
  let d2 := jmin totalDistance (dist + windowSize)%js in
  e1 <- interpolateElevation routePoints d1 ;;
  e2 <- interpolateElevation routePoints d2 ;;
  let deltaD := (d2 - d1)%js in
  if jle deltaD (Fin 0) then Ok (Fin 0)
  else Ok (((e2 - e1) / deltaD) * Fin 100)%js.

(* ================================================================== *)
(** ** Screen Curve Sampler: [getSvgYAtX] *)
(* ================================================================== *)

(** The [for] loop of [getSvgYAtX], from the pair [(p1, first of rest)] on;
    [lastY] is what the function returns when the loop ends. *)
Fixpoint scanSvg (p1 : ScreenPoint) (rest : list ScreenPoint) (targetX : num)
  (lastY : num) : num :=
  match rest with
  | [] => lastY
  | p2 :: rest' =>
      if jge (x p2) targetX then
        let t := ((targetX - x p1) / (x p2 - x p1))%js in
        (y p1 + t * (y p2 - y p1))%js
      else scanSvg p2 rest' targetX lastY
  end.

(** [None] is JavaScript's [null]. *)
Definition getSvgYAtX (svgPoints : list ScreenPoint) (targetX : num)
  : option num :=
  match svgPoints with
  | [] => None
  | first :: rest =>
      if jle targetX (x first) then Some (y first)
      else
        let lst := last svgPoints first in
        if jge targetX (x lst) then Some (y lst)
        else Some (scanSvg first rest targetX (y lst))
  end.

(** Conversion of a value that is a number or [null] to a number. *)
Definition toNumber (v : option num) : num :=
  match v with
  | Some n => n
  | None => Fin 0
  end.

(* ================================================================== *)
(** ** Direction Disambiguator *)
(* ================================================================== *)

(** [sumSquaredError]: the loop runs over the indices of [arr1]; a missing
    [arr2[i]] is [undefined], which makes the difference [NaN]. *)
Fixpoint sumSquaredError_from (sum : num) (arr1 arr2 : list num) : num :=
  match arr1 with
  | [] => sum
  | a :: arr1' =>
      let diff := (a - hd NaN arr2)%js in
      sumSquaredError_from (sum + diff * diff)%js arr1' (tl arr2)
  end.

Definition sumSquaredError (arr1 arr2 : list num) : num :=
  sumSquaredError_from (Fin 0) arr1 arr2.

Definition normalizeArray (arr : list num) : list num :=
  let min := jmin_list arr in
  let max := jmax_list arr in
  let range := jor (max - min)%js (Fin 1) in
  map (fun v => ((v - min) / range)%js) arr.

Module Cand.
Record t : Type := mk { x : num; diff : num }.
End Cand.

(** [Array.prototype.sort(cmp)].  The sort is stable, so for a consistent
    comparator its result is determined: [a] stays before [b] unless
    [cmp(a, b) > 0].  Modelled by a stable insertion sort. *)
Fixpoint sort_insert {A : Type} (cmp : A -> A -> num) (a : A) (l : list A)
  : list A :=
  match l with
  | [] => [a]
  | b :: l' => if jgt (cmp a b) (Fin 0) then b :: sort_insert cmp a l'
               else a :: l
  end.

Definition sort {A : Type} (cmp : A -> A -> num) (l : list A) : list A :=
  fold_right (sort_insert cmp) [] l.

(** [arr.map(f)] for a callback that may throw. *)
Fixpoint mapM {A B : Type} (f : A -> res B) (l : list A) : res (list B) :=
  match l with
  | [] => Ok []
  | a :: l' => b <- f a ;; bs <- mapM f l' ;; Ok (b :: bs)
  end.

Definition numOfNat (n : nat) : num := Fin (inject_Z (Z.of_nat n)).

(** The body of the candidate loop of [findAsymmetricPositions]. *)
Definition candidateAt (routePoints : list RoutePoint) (totalDistance : num)
  (numCandidates : nat) (i : nat) : res Cand.t :=
  let x := (numOfNat i / numOfNat numCandidates)%js in
  fwdElev <- interpolateElevation routePoints (x * totalDistance)%js ;;
  revElev <- interpolateElevation routePoints ((Fin 1 - x) * totalDistance)%js ;;
  Ok {| Cand.x := x; Cand.diff := jabs (fwdElev - revElev)%js |}.

Definition findAsymmetricPositions (routePoints : list RoutePoint)
  (totalDistance : num) (numCandidates : nat) : res (list Cand.t) :=
  candidates <- mapM (candidateAt routePoints totalDistance numCandidates)
                  (seq 1 (numCandidates - 1)) ;;
  Ok (sort (fun a b => (Cand.diff b - Cand.diff a)%js) candidates).

(** The default of the [numCandidates] parameter. *)
Definition defaultNumCandidates : nat := 100.

Definition detectRouteDirection (svgPoints : list ScreenPoint)
  (routePoints : list RoutePoint) (totalDistance : num) : res Direction :=
  asymmetricPositions <-
    findAsymmetricPositions routePoints totalDistance defaultNumCandidates ;;
  top <- get asymmetricPositions 0 ;;
  if jlt (Cand.diff top) (Fin 1) then Ok Forward
  else
    let sampleXs := map Cand.x (firstn 5 asymmetricPositions) in
    let svgElevs :=
      map (fun x => (- toNumber (getSvgYAtX svgPoints x))%js) sampleXs in
    fwdElevs <-
      mapM (fun x => interpolateElevation routePoints (x * totalDistance)%js)
        sampleXs ;;
    revElevs <-
      mapM (fun x =>
              interpolateElevation routePoints ((Fin 1 - x) * totalDistance)%js)
        sampleXs ;;
    let svgNorm := normalizeArray svgElevs in
    let fwdNorm := normalizeArray fwdElevs in
    let revNorm := normalizeArray revElevs in
    let fwdError := sumSquaredError svgNorm fwdNorm in
    let revError := sumSquaredError svgNorm revNorm in
    Ok (if jle fwdError revError then Forward else Reverse).

(* ================================================================== *)
(** ** Color scale: [lerpColor] and [gradientToColor] *)
(* ================================================================== *)

Module Settings.
Record t : Type := mk { colorStops : list string; distance : num }.
End Settings.

Definition DEFAULT_SETTINGS : Settings.t :=
  {| Settings.colorStops :=
       ["#713071"; "#0c4ae0"; "#28eaed"; "#24ca26"; "#f1f060"; "#d90916";
        "#430102"]%string;
     Settings.distance := Fin 7 |}.

(** Value of a hexadecimal digit, in either case. *)
Definition hexDigitValue (c : ascii) : option Z :=
  let n := Z.of_nat (nat_of_ascii c) in
  if ((48 <=? n) && (n <=? 57))%Z then Some (n - 48)%Z
  else if ((97 <=? n) && (n <=? 102))%Z then Some (n - 87)%Z
  else if ((65 <=? n) && (n <=? 70))%Z then Some (n - 55)%Z
  else None.

(** White space that [parseInt] skips (the ASCII part of it). *)
Definition isWhiteSpace (c : ascii) : bool :=
  let n := nat_of_ascii c in
  ((n =? 32) || (n =? 9) || (n =? 10) || (n =? 11) || (n =? 12) || (n =? 13))%nat.

Fixpoint skipWhiteSpace (s : string) : string :=
  match s with
  | String c s' => if isWhiteSpace c then skipWhiteSpace s' else s
  | EmptyString => s
  end.

(** The longest prefix of hexadecimal digits, read as a number; [None] when
    there is no digit. *)
Fixpoint hexPrefix (acc : option Z) (s : string) : option Z :=
  match s with
  | String c s' =>
      match hexDigitValue c with
      | Some d => hexPrefix (Some (16 * match acc with Some a => a | None => 0 end + d)%Z) s'
      | None => acc
      end
  | EmptyString => acc
  end.

(** [parseInt(s, 16)]. *)
Definition parseInt16 (s : string) : num :=
  let s1 := skipWhiteSpace s in
  let '(negative, s2) :=
    match s1 with
    | String "-" s' => (true, s')
    | String "+" s' => (false, s')
    | _ => (false, s1)
    end in
  let s3 :=
    match s2 with
    | String "0" (String "x" s') => s'
    | String "0" (String "X" s') => s'
    | _ => s2
    end in
  match hexPrefix None s3 with
  | Some v => Fin (inject_Z (if negative then - v else v)%Z)
  | None => NaN
  end.

(** [s.slice(from, to)] for [0 <= from <= to]. *)
Definition slice (from to : nat) (s : string) : string :=
  substring from (to - from) s.

(** [Math.round]: the nearest integer, halves rounded up. *)
Definition jround (a : num) : num :=
  match a with
  | Fin q => Fin (inject_Z (Qfloor (q + (1 # 2))))
  | _ => a
  end.

Definition hexDigit (d : Z) : ascii :=
  if (d <? 10)%Z then ascii_of_nat (Z.to_nat (48 + d))
  else ascii_of_nat (Z.to_nat (87 + d)).

Fixpoint hexDigits (fuel : nat) (n : Z) (acc : string) : string :=
  match fuel with
  | O => acc
  | S fuel' =>
      let acc' := String (hexDigit (n mod 16)) acc in
      if (n / 16 =? 0)%Z then acc' else hexDigits fuel' (n / 16) acc'
  end.

(** The hexadecimal numeral of an integer. *)
Definition intToString16 (n : Z) : string :=
  let digits := hexDigits (S (Z.to_nat (Z.log2 (Z.abs n)))) (Z.abs n) "" in
  if (n <? 0)%Z then String "-" digits else digits.

(** [v.toString(16)] for a value that is an integer or not finite (here it
    is always the result of [Math.round]); the digits of a fraction are not
    modelled. *)
Definition toString16 (v : num) : string :=
  match v with
  | Fin q => intToString16 (Qfloor q)
  | PInf => "Infinity"
  | NInf => "-Infinity"
  | NaN => "NaN"
  end.

(** [s.padStart(2, '0')]. *)
Definition padStart2 (s : string) : string :=
  match s with
  | EmptyString => "00"
  | String c EmptyString => String "0" s
  | _ => s
  end.

(** A method call on a value that may be [undefined]. *)
Definition defined {A : Type} (v : option A) : res A :=
  match v with
  | Some a => Ok a
  | None => TypeError
  end.

Definition lerpColor (color1 color2 : option string) (t : num) : res string :=
  c1 <- defined color1 ;;
  let r1 := parseInt16 (slice 1 3 c1) in
  let g1 := parseInt16 (slice 3 5 c1) in
  let b1 := parseInt16 (slice 5 7 c1) in
  c2 <- defined color2 ;;
  let r2 := parseInt16 (slice 1 3 c2) in
  let g2 := parseInt16 (slice 3 5 c2) in
  let b2 := parseInt16 (slice 5 7 c2) in
  let r := jround (r1 + (r2 - r1) * t)%js in
  let g := jround (g1 + (g2 - g1) * t)%js in
  let b := jround (b1 + (b2 - b1) * t)%js in
  Ok (String "#"
        (String.concat "" (map (fun v => padStart2 (toString16 v)) [r; g; b]))).

(** [arr[i]] for a number [i]: [undefined] unless [i] is an index of [arr]. *)
Definition index {A : Type} (arr : list A) (i : num) : option A :=
  match i with
  | Fin q =>
      if Qeq_bool (inject_Z (Qfloor q)) q && (0 <=? Qfloor q)%Z
      then nth_error arr (Z.to_nat (Qfloor q))
      else None
  | _ => None
  end.

Definition gradientToColor (settings : Settings.t) (gradient : num)
  : res string :=
  let normalized :=
    jmax (Fin (-3)) (jmin (Fin 3) (gradient / Settings.distance settings)%js) in
  let band := jmax (Fin (-3)) (jmin (Fin 2) (jfloor normalized)) in
  let t := (normalized - band)%js in
  lerpColor (index (Settings.colorStops settings) (band + Fin 3)%js)
            (index (Settings.colorStops settings) (band + Fin 4)%js) t.

(* ================================================================== *)
(** ** Segment Gradient Builder: [processElevationSVG] *)
(* ================================================================== *)

Module RouteData.
(** [window._biketerraRouteData].  [routePoints] is absent ([None]) in the
    coarse form of the data. *)
Record t : Type := mk {
  totalDistance : num;
  minElev : num;
  maxElev : num;
  routePoints : option (list RoutePoint)
}.
End RouteData.

(** A polygon inserted into the SVG: its corners come from the pair
    [(p1, p2)], its fill and stroke are [fill].  [gradient] is the number
    the color was computed from; it is not part of the DOM element. *)
Record Polygon : Type := mkPolygon {
  p1 : ScreenPoint;
  p2 : ScreenPoint;
  gradient : num;
  fill : string
}.

(** The SVG element [svg.pathSVG]: the processed flag
    [dataset.gradientColored], the [points] attribute of each stroke
    polyline (as the pairs of numbers [Number] yields for each
    comma-separated pair), and the polygons, in document order.  The
    [display] style of the polylines is not modelled. *)
Record Svg : Type := mkSvg {
  gradientColored : bool;
  strokePolylines : list (list (num * num));
  polygons : list Polygon
}.

Record Page : Type := mkPage {
  routeData : option RouteData.t;
  svg : option Svg;
  settings : Settings.t
}.

Definition isNaN (a : num) : bool :=
  match a with
  | NaN => true
  | _ => false
  end.

Definition parsePolylinePoints (pairs : list (num * num))
  : list ScreenPoint :=
  map (fun p => {| x := fst p; y := snd p |})
    (filter (fun p => negb (isNaN (fst p)) && negb (isNaN (snd p))) pairs).

(** [while (startIdx > 0 && elevationPoints[startIdx].x > targetStartX)
    startIdx--]. *)
Fixpoint walkStart (elevationPoints : list ScreenPoint) (targetStartX : num)
  (startIdx : nat) : res nat :=
  match startIdx with
  | O => Ok O
  | S k =>
      p <- get elevationPoints startIdx ;;
      if jgt (x p) targetStartX then walkStart elevationPoints targetStartX k
      else Ok startIdx
  end.

(** [while (endIdx < elevationPoints.length - 1 &&
    elevationPoints[endIdx].x < targetEndX) endIdx++]. *)
Fixpoint walkEnd (fuel : nat) (elevationPoints : list ScreenPoint)
  (targetEndX : num) (endIdx : nat) : res nat :=
  if (endIdx <? length elevationPoints - 1)%nat then
    match fuel with
    | O => OutOfFuel
    | S fuel' =>
        p <- get elevationPoints endIdx ;;
        if jlt (x p) targetEndX
        then walkEnd fuel' elevationPoints targetEndX (S endIdx)
        else Ok endIdx
    end
  else Ok endIdx.

(** The gradient of the pair [(p1, p2)] of points [i] and [i + 1]: the
    part of the loop body that computes [gradient].  [None] is the
    [continue] of a skipped pair. *)
Definition segmentGradient (useRouteData isReversed : bool)
  (routePoints : list RoutePoint) (totalDistance elevRange ySpan : num)
  (elevationPoints : list ScreenPoint) (i : nat) (p1 p2 : ScreenPoint)
  : res (option num) :=
  if useRouteData then
    let centerX := ((x p1 + x p2) / Fin 2)%js in
    let dist := if isReversed then ((Fin 1 - centerX) * totalDistance)%js
                else (centerX * totalDistance)%js in
    gradient <- computeGradientAtDistance routePoints dist totalDistance
                  defaultWindowSize ;;
    Ok (Some (if isReversed then (- gradient)%js else gradient))
  else
    let yQuantum := Fin (1 # 1000) in
    let maxGradientPerQuantum := Fin 1 in
    let minDX :=
      ((yQuantum * elevRange * Fin 100)
       / (ySpan * maxGradientPerQuantum * totalDistance))%js in
    let centerX := ((x p1 + x p2) / Fin 2)%js in
    let targetStartX := (centerX - minDX / Fin 2)%js in
    let targetEndX := (centerX + minDX / Fin 2)%js in
    startIdx <- walkStart elevationPoints targetStartX i ;;
    endIdx <- walkEnd (length elevationPoints) elevationPoints targetEndX
                (i + 1) ;;
    pStart <- get elevationPoints startIdx ;;
    pEnd <- get elevationPoints endIdx ;;
    let dY := (y pStart - y pEnd)%js in
    let dX := (x pEnd - x pStart)%js in
    if jle dX (Fin 0) then Ok None
    else Ok (Some (((dY * elevRange) / (ySpan * dX * totalDistance))
                   * Fin 100)%js).

(** One iteration of the segment loop: the pair, its gradient, the color,
    and the polygon. *)
Definition segmentAt (settings : Settings.t) (useRouteData isReversed : bool)
  (routePoints : list RoutePoint) (totalDistance elevRange ySpan : num)
  (elevationPoints : list ScreenPoint) (i : nat) : res (option Polygon) :=
  p1 <- get elevationPoints i ;;
  p2 <- get elevationPoints (i + 1) ;;
  g <- segmentGradient useRouteData isReversed routePoints totalDistance
         elevRange ySpan elevationPoints i p1 p2 ;;
  match g with
  | None => Ok None
  | Some gradient =>
      color <- gradientToColor settings gradient ;;
      Ok (Some {| p1 := p1; p2 := p2; gradient := gradient; fill := color |})
  end.

(** [for (let i = 0; i < elevationPoints.length - 1; i++)], given the loop
    body and the indices it runs over. *)
Fixpoint segmentLoop (body : nat -> res (option Polygon)) (indices : list nat)
  : res (list Polygon) :=
  match indices with
  | [] => Ok []
  | i :: indices' =>
      o <- body i ;;
      rest <- segmentLoop body indices' ;;
      Ok (match o with
          | Some polygon => polygon :: rest
          | None => rest
          end)
  end.

(** The part of [processElevationSVG] after the early returns: from the
    parsed points of the active polyline to the polygons. *)
Definition buildPolygons (settings : Settings.t) (routeData : RouteData.t)
  (points : list ScreenPoint) : res (list Polygon) :=
  let totalDistance := RouteData.totalDistance routeData in
  let elevRange :=
    jor (RouteData.maxElev routeData - RouteData.minElev routeData)%js (Fin 1) in
  let yMin := jmin_list (map y points) in
  let yMax := jmax_list (map y points) in
  let ySpan := jor (yMax - yMin)%js (Fin 1) in
  let elevationPoints := filter (fun p => jlt (y p) (Fin 1)) points in
  let routePoints :=
    match RouteData.routePoints routeData with
    | Some l => l
    | None => []
    end in
  let useRouteData :=
    match RouteData.routePoints routeData with
    | Some l => (1 <? length l)%nat
    | None => false
    end in
  isReversed <-
    (if useRouteData then
       direction <- detectRouteDirection elevationPoints routePoints
                      totalDistance ;;
       Ok (match direction with Reverse => true | Forward => false end)
     else Ok false) ;;
  segmentLoop
    (segmentAt settings useRouteData isReversed routePoints totalDistance
       elevRange ySpan elevationPoints)
    (seq 0 (length elevationPoints - 1)).

(** [processElevationSVG], as a transformer of the page.  A [TypeError]
    leaves the function; the page it leaves behind is not modelled. *)
Definition processElevationSVG (page : Page) : res Page :=
  match routeData page with
  | None => Ok page
  | Some routeData =>
      match svg page with
      | None => Ok page
      | Some svg =>
          if gradientColored svg then Ok page
          else
            match strokePolylines svg with
            | [] => Ok page
            | first :: _ =>
                let pointsStr := last (strokePolylines svg) first in
                let points := parsePolylinePoints pointsStr in
                if (length points <? 2)%nat then Ok page
                else
                  created <- buildPolygons (settings page) routeData points ;;
                  Ok {| routeData := Some routeData;
                        svg := Some {| gradientColored := true;
                                       strokePolylines := strokePolylines svg;
                                       polygons := created |};
                        settings := settings page |}
            end
      end
  end.

(** What the polyline observer does before it calls [processElevationSVG]
    again: it clears the processed flag and removes the polygons. *)
Definition invalidate (page : Page) : Page :=
  {| routeData := routeData page;
     svg := match svg page with
            | Some svg => Some {| gradientColored := false;
                                  strokePolylines := strokePolylines svg;
                                  polygons := [] |}
            | None => None
            end;
     settings := settings page |}.

(* ================================================================== *)
(** ** The grade indicator: [updateGradientCircleColor] *)
(* ================================================================== *)

(** The coloring of the grade circle.  [value] is what [parseFloat] reads
    in the text of the value element, [None] when the circle, its parent or
    the value element is missing; the result is the background color the
    circle receives, [None] when it is left alone. *)
Definition updateGradientCircleColor (settings : Settings.t)
  (value : option num) : res (option string) :=
  match value with
  | None => Ok None
  | Some gradient =>
      if negb (isNaN gradient) then
        color <- gradientToColor settings gradient ;;
        Ok (Some color)
      else Ok None
  end.

(* ================================================================== *)
(** ** The preview bar of the options page: [updatePreview] *)
(* ================================================================== *)

(** One segment of the preview bar of [package/options.js]; [colorStops]
    holds the values of the seven color inputs.  [lerpColor] of the options
    page is the function of the content script, word for word. *)
Definition previewSegment (colorStops : list string) (i : nat) : res string :=
  let segments := Fin 60 in
  let pos := ((numOfNat i / segments) * Fin 6)%js in
  let band := jmin (Fin 5) (jfloor pos) in
  let t := (pos - band)%js in
  lerpColor (index colorStops band) (index colorStops (band + Fin 1)%js) t.

Definition updatePreview (colorStops : list string) : res (list string) :=
  mapM (previewSegment colorStops) (seq 0 60).

(* ================================================================== *)
(** ** Notions used to state the properties *)
(* ================================================================== *)

(** A finite series, given by its rational samples. *)
Definition routePoint (p : Q * Q) : RoutePoint :=
  {| distance := Fin (fst p); elevation := Fin (snd p) |}.
Definition route (pts : list (Q * Q)) : list RoutePoint := map routePoint pts.

(** [r] returns the finite number [q]. *)
Definition yields (r : res num) (q : Q) : Prop :=
  exists q', r = Ok (Fin q') /\ q' == q.

(** The interpolation expression, on rationals. *)
Definition lerpQ (p1 p2 : Q * Q) (d : Q) : Q :=
  snd p1 + ((d - fst p1) / (fst p2 - fst p1)) * (snd p2 - snd p1).

(** A finite series is strictly increasing by distance. *)
Fixpoint increasingb (pts : list (Q * Q)) : bool :=
  match pts with
  | a :: ((b :: _) as tl) => Qlt_bool (fst a) (fst b) && increasingb tl
  | _ => true
  end.

(** The series has an adjacent pair of samples at the same distance. *)
Fixpoint has_degenerate_bracket (pts : list (Q * Q)) : bool :=
  match pts with
  | a :: ((b :: _) as tl) =>
      Qeq_bool (fst a) (fst b) || has_degenerate_bracket tl
  | _ => false
  end.

(** The interpolator in the words of the specification (4.1): clamp at both
    ends, otherwise interpolate on the bracketing pair, and treat a
    degenerate bracket ([curr.distance == prev.distance]) as [t = 0]
    instead of dividing. *)
Definition elevationAt_guarded (routePoints : list RoutePoint) (dist : num)
  : res num :=
  match routePoints with
  | [] => Ok (Fin 0)
  | first :: _ =>
      if jle dist (distance first) then Ok (elevation first)
      else
        let lst := last routePoints first in
        if jge dist (distance lst) then Ok (elevation lst)
        else
          b <- bsearch (length routePoints) routePoints dist
                 0 (length routePoints - 1) ;;
          prev <- get routePoints (fst b) ;;
          curr <- get routePoints (snd b) ;;
          let t := if jeqb (distance curr) (distance prev) then Fin 0
                   else ((dist - distance prev)
                         / (distance curr - distance prev))%js in
          Ok (elevation prev + t * (elevation curr - elevation prev))%js
  end.

(** The number a call returns, when it returns a finite number. *)
Definition valueOf (r : res num) : Q :=
  match r with
  | Ok (Fin q) => q
  | _ => 0
  end.

(** The interpolated elevation of a finite series at a finite distance. *)
Definition elevationQ (pts : list (Q * Q)) (d : Q) : Q :=
  valueOf (interpolateElevation (route pts) (Fin d)).



(** A lower-case hexadecimal digit. *)
Definition isLowerHex (c : ascii) : bool :=
  let n := nat_of_ascii c in
  (((48 <=? n) && (n <=? 57)) || ((97 <=? n) && (n <=? 102)))%nat.

(** A well-formed color: ["#rrggbb"] with lower-case hexadecimal digits,
    the form the options page stores. *)
Definition wf_color (s : string) : bool :=
  match s with
  | String "#" (String r1 (String r2 (String g1 (String g2
      (String b1 (String b2 EmptyString)))))) =>
      isLowerHex r1 && isLowerHex r2 && isLowerHex g1 && isLowerHex g2
      && isLowerHex b1 && isLowerHex b2
  | _ => false
  end.

(** Well-formed settings: seven well-formed color stops. *)
Definition wf_stops (stops : list string) : bool :=
  (length stops =? 7)%nat && forallb wf_color stops.

(** The values of the local constants [normalized] and [band] of
    [gradientToColor]. *)
Definition gradientNormalized (settings : Settings.t) (gradient : num) : num :=
  jmax (Fin (-3)) (jmin (Fin 3) (gradient / Settings.distance settings)%js).

Definition gradientBand (settings : Settings.t) (gradient : num) : num :=
  jmax (Fin (-3)) (jmin (Fin 2) (jfloor (gradientNormalized settings gradient))).

(** The [i]-th candidate position [i / numCandidates]. *)
Definition candidateX (i : nat) : Q :=
  inject_Z (Z.of_nat i) / inject_Z (Z.of_nat defaultNumCandidates).

(** The forward/reverse asymmetry of a finite series at candidate [i]:
    [|elevationAt(x_i * total) - elevationAt((1 - x_i) * total)|]. *)
Definition asymmetry (pts : list (Q * Q)) (total : Q) (i : nat) : Q :=
  Qabs (elevationQ pts (candidateX i * total)
        - elevationQ pts ((1 - candidateX i) * total)).

(** The indices [1 .. numCandidates - 1] of the candidates. *)
Definition candidateIndices : list nat := seq 1 (defaultNumCandidates - 1).

(** The largest asymmetry over the 99 candidates (asymmetries are not
    negative). *)
Definition maxAsymmetry (pts : list (Q * Q)) (total : Q) : Q :=
  fold_right (fun i m => Qmax (asymmetry pts total i) m) 0 candidateIndices.

(** The candidate records of a finite series. *)
Definition candidateQ (pts : list (Q * Q)) (total : Q) (i : nat) : Cand.t :=
  {| Cand.x := Fin (candidateX i); Cand.diff := Fin (asymmetry pts total i) |}.

(** The rational behind the [diff] of a candidate. *)
Definition diffQ (c : Cand.t) : Q :=
  match Cand.diff c with
  | Fin q => q
  | _ => 0
  end.

(** The comparator of [findAsymmetricPositions]. *)
Definition byDiffDescending (a b : Cand.t) : num :=
  (Cand.diff b - Cand.diff a)%js.

(** A finite screen curve, given by its rational points. *)
Definition screenPoint (p : Q * Q) : ScreenPoint :=
  {| x := Fin (fst p); y := Fin (snd p) |}.
Definition screen (pts : list (Q * Q)) : list ScreenPoint :=
  map screenPoint pts.


(** Selection of the most asymmetric candidates, in the words of the
    specification (4.4, steps 3 and 4): [extractMax key l] takes out of [l]
    the element of largest [key], the first of them if there are several;
    [mostAsymmetric key k l] does so [k] times. *)
Fixpoint extractMax {A : Type} (key : A -> Q) (l : list A)
  : option (A * list A) :=
  match l with
  | [] => None
  | a :: l' =>
      match extractMax key l' with
      | None => Some (a, [])
      | Some (m, rest) =>
          if Qlt_bool (key a) (key m) then Some (m, a :: rest)
          else Some (a, l')
      end
  end.

Fixpoint mostAsymmetric {A : Type} (key : A -> Q) (k : nat) (l : list A)
  : list A :=
  match k with
  | O => []
  | S k' =>
      match extractMax key l with
      | None => []
      | Some (m, rest) => m :: mostAsymmetric key k' rest
      end
  end.

(** The sample positions: the five most asymmetric candidate positions. *)
Definition samplePositions (pts : list (Q * Q)) (total : Q) : list Q :=
  map candidateX (mostAsymmetric (asymmetry pts total) 5 candidateIndices).

(** Min-max normalization to [[0, 1]], in the words of the specification
    (4.4, step 6); a constant sequence is mapped to zeros. *)
Definition minmax_normalize (l : list Q) : list Q :=
  match l with
  | [] => []
  | a :: l' =>
      let lo := fold_left Qmin l' a in
      let hi := fold_left Qmax l' a in
      let range := if Qeq_bool (hi - lo) 0 then 1 else hi - lo in
      map (fun v => (v - lo) / range) l
  end.

(** Sum of squared differences of two sequences (4.4, step 7). *)
Definition sum_sq_diff (l1 l2 : list Q) : Q :=
  fold_left (fun s p => s + (fst p - snd p) * (fst p - snd p))
    (combine l1 l2) 0.

(** The windowed gradient of a finite series, as a rational. *)
Definition gradientQ (pts : list (Q * Q)) (d total w : Q) : Q :=
  valueOf (computeGradientAtDistance (route pts) (Fin d) (Fin total) (Fin w)).

(** The points of a screen curve that are not baseline sentinels. *)
Definition elevationPointsQ (svg : list (Q * Q)) : list (Q * Q) :=
  filter (fun q => Qlt_bool (snd q) 1) svg.

(** The polyline the builder processes: the last stroke polyline. *)
Definition activePolyline (svg : Svg) : option (list (num * num)) :=
  match strokePolylines svg with
  | [] => None
  | first :: _ => Some (last (strokePolylines svg) first)
  end.

(** The color of a gradient, when [gradientToColor] returns one. *)
Definition colorOf (settings : Settings.t) (gradient : num) : string :=
  match gradientToColor settings gradient with
  | Ok c => c
  | _ => EmptyString
  end.

(** The gradient the full-resolution path emits for the pair [(a, b)]. *)
Definition routeGradientQ (pts : list (Q * Q)) (total : Q)
  (direction : Direction) (a b : Q * Q) : Q :=
  let centerX := (fst a + fst b) / 2 in
  match direction with
  | Forward => gradientQ pts (centerX * total) total 50
  | Reverse => - gradientQ pts ((1 - centerX) * total) total 50
  end.

(** The polygons a call leaves in the SVG. *)
Definition emitted (r : res Page) : res (list Polygon) :=
  page <- r ;;
  Ok (match svg page with
      | Some s => polygons s
      | None => []
      end).

(** A route of a single point and of length 0, as [extractRouteData]
    returns it, and a page that shows it as a flat polyline of two points. *)
Definition singlePointRoute : RouteData.t :=
  {| RouteData.totalDistance := Fin 0;
     RouteData.minElev := Fin 5;
     RouteData.maxElev := Fin 5;
     RouteData.routePoints := Some [mkRoutePoint (Fin 0) (Fin 5)] |}.

Definition flatPolyline : list (num * num) :=
  [(Fin 0, Fin (1 # 2)); (Fin 1, Fin (1 # 2))].

Definition singlePointPage : Page :=
  {| routeData := Some singlePointRoute;
     svg := Some {| gradientColored := false;
                    strokePolylines := [flatPolyline];
                    polygons := [] |};
     settings := DEFAULT_SETTINGS |}.

(** A route without points, as [extractRouteData] returns it for an empty
    [latLngData]: [Math.min()] and [Math.max()] of nothing. *)
Definition emptyRoute : RouteData.t :=
  {| RouteData.totalDistance := Fin 1000;
     RouteData.minElev := PInf;
     RouteData.maxElev := NInf;
     RouteData.routePoints := Some [] |}.

(** The value of a pair of hexadecimal digits. *)
Definition pairValue (h l : ascii) : Z :=
  match hexDigitValue h, hexDigitValue l with
  | Some a, Some b => 16 * a + b
  | _, _ => 0
  end.

(** The lower-case hexadecimal digits. *)
Definition lowerHexDigits : list ascii :=
  ["0"; "1"; "2"; "3"; "4"; "5"; "6"; "7"; "8"; "9";
   "a"; "b"; "c"; "d"; "e"; "f"]%char.

(** Syntactic equality of numbers, as a test. *)
Definition num_eqb (a b : num) : bool :=
  match a, b with
  | Fin p, Fin q => (Qnum p =? Qnum q)%Z && (Qden p =? Qden q)%positive
  | PInf, PInf | NInf, NInf | NaN, NaN => true
  | _, _ => false
  end.

(** One color channel of [lerpColor]. *)
Definition channel (s1 s2 : string) (t : num) : string :=
  padStart2
    (toString16
       (jround (parseInt16 s1 + (parseInt16 s2 - parseInt16 s1) * t)%js)).

(** Candidates whose [diff] is finite. *)
Definition finiteDiff (c : Cand.t) : Prop := Cand.diff c = Fin (diffQ c).

(** The head of a sorted list of finite candidates has the largest
    [diff]. *)
Definition headIsMax (l : list Cand.t) : Prop :=
  match l with
  | [] => True
  | h :: t => Forall (fun c => diffQ c <= diffQ h) t
  end.

(** The route of the end-to-end scenario of the specification, and two
    pages that show it with the same active polyline; the second page
    still holds an older polyline and a stale polygon. *)
Definition scenarioSeries : list (Q * Q) :=
  [(0, 100); (500, 150); (1000, 100)].

Definition scenarioRoute : RouteData.t :=
  {| RouteData.totalDistance := Fin 1000;
     RouteData.minElev := Fin 100;
     RouteData.maxElev := Fin 150;
     RouteData.routePoints := Some (route scenarioSeries) |}.

Definition scenarioPolyline : list (num * num) :=
  [(Fin 0, Fin (1 # 2)); (Fin (1 # 2), Fin 0); (Fin 1, Fin (1 # 2))].

Definition scenarioSvg : Svg :=
  {| gradientColored := false;
     strokePolylines := [scenarioPolyline];
     polygons := [] |}.

Definition staleSvg : Svg :=
  {| gradientColored := false;
     strokePolylines := [flatPolyline; scenarioPolyline];
     polygons := [{| p1 := mkScreenPoint (Fin 0) (Fin 0);
                     p2 := mkScreenPoint (Fin 1) (Fin 0);
                     gradient := Fin 3;
                     fill := "#000000" |}] |}.

Definition scenarioPage : Page :=
  {| routeData := Some scenarioRoute;
     svg := Some scenarioSvg;
     settings := DEFAULT_SETTINGS |}.

Definition stalePage : Page :=
  {| routeData := Some scenarioRoute;
     svg := Some staleSvg;
     settings := DEFAULT_SETTINGS |}.


(** [v] is the value at [d] of the piecewise-linear curve through the
    samples [pts], clamped at both ends. *)
Definition interpolates (pts : list (Q * Q)) (d v : Q) : Prop :=
  match pts with
  | [] => v == 0
  | first :: _ =>
      (d <= fst first /\ v == snd first)
      \/ (fst (last pts first) <= d /\ v == snd (last pts first))
      \/ (exists k q1 q2,
            nth_error pts k = Some q1 /\ nth_error pts (S k) = Some q2
            /\ fst q1 <= d /\ d <= fst q2 /\ fst q1 < fst q2
            /\ v == lerpQ q1 q2 d)
  end.

(** Every sample value of the series lies in [[lo, hi]]. *)
Definition withinb (lo hi : Q) (pts : list (Q * Q)) : bool :=
  forallb (fun q => Qle_bool lo (snd q) && Qle_bool (snd q) hi) pts.




(** The rational behind the [x] of a candidate. *)
Definition xQ (c : Cand.t) : Q :=
  match Cand.x c with
  | Fin q => q
  | _ => 0
  end.

(** The order of the sorted candidates: larger [diff] first, and among
    equal [diff] the smaller position first. *)
Definition ranksBefore (a b : Cand.t) : Prop :=
  diffQ b < diffQ a \/ (diffQ b == diffQ a /\ xQ a < xQ b).

(** What a polygon shows apart from its color: its two upper corners and
    the gradient. *)
Definition geometry (polygon : Polygon) : ScreenPoint * ScreenPoint * num :=
  (p1 polygon, p2 polygon, gradient polygon).

(** The route data carries fewer than two route points: the builder
    estimates gradients from the screen curve. *)
Definition coarse (routePoints : option (list RoutePoint)) : bool :=
  match routePoints with
  | Some l => (length l <=? 1)%nat
  | None => true
  end.

(** The polygons of a run that returned. *)
Definition createdBy (r : res (list Polygon)) : list Polygon :=
  match r with
  | Ok l => l
  | _ => []
  end.

(* ================================================================== *)
(** * Properties *)
(* ================================================================== *)

(** ** Comparisons and arithmetic on finite numbers *)

Lemma Qle_bool_false (a b : Q) : Qle_bool a b = false <-> b < a.
Proof.
  split; intro H.
  - apply Qnot_le_lt. intro Hle. apply Qle_bool_iff in Hle. congruence.
  - destruct (Qle_bool a b) eqn:E; [|reflexivity].
    apply Qle_bool_iff in E. lra.
Qed.

Lemma Qlt_bool_iff (a b : Q) : Qlt_bool a b = true <-> a < b.
Proof.
  unfold Qlt_bool. rewrite negb_true_iff. apply Qle_bool_false.
Qed.

Lemma Qlt_bool_false (a b : Q) : Qlt_bool a b = false <-> b <= a.
Proof.
  unfold Qlt_bool. rewrite negb_false_iff. apply Qle_bool_iff.
Qed.

Lemma Qeq_bool_false (a b : Q) : Qeq_bool a b = false <-> ~ a == b.
Proof.
  split; intro H.
  - intro E. apply Qeq_bool_iff in E. congruence.
  - destruct (Qeq_bool a b) eqn:E; [|reflexivity].
    apply Qeq_bool_iff in E. contradiction.
Qed.

Lemma jle_fin (a b : Q) : jle (Fin a) (Fin b) = true <-> a <= b.
Proof. apply Qle_bool_iff. Qed.

Lemma jle_fin_false (a b : Q) : jle (Fin a) (Fin b) = false <-> b < a.
Proof. apply Qle_bool_false. Qed.

Lemma jlt_fin (a b : Q) : jlt (Fin a) (Fin b) = true <-> a < b.
Proof. apply Qlt_bool_iff. Qed.


Lemma jdiv_fin (a b : Q) : ~ b == 0 -> (Fin a / Fin b)%js = Fin (a / b).
Proof.
  intro H. simpl. apply Qeq_bool_false in H. rewrite H. reflexivity.
Qed.

Lemma jmax_fin (a b : Q) :
  jmax (Fin a) (Fin b) = Fin (if Qle_bool b a then a else b).
Proof. simpl. destruct (Qle_bool b a); reflexivity. Qed.

Lemma jmin_fin (a b : Q) :
  jmin (Fin a) (Fin b) = Fin (if Qle_bool a b then a else b).
Proof. simpl. destruct (Qle_bool a b); reflexivity. Qed.

Lemma yields_eq (r : res num) (q1 q2 : Q) :
  yields r q1 -> q1 == q2 -> yields r q2.
Proof.
  intros [q' [E H]] H12. exists q'. split; [exact E|].
  rewrite H. exact H12.
Qed.

(** ** The binary search *)

Lemma get_some {A : Type} (arr : list A) (i : nat) (a : A) :
  nth_error arr i = Some a -> get arr i = Ok a.
Proof. unfold get. intros ->. reflexivity. Qed.

Lemma get_lt {A : Type} (arr : list A) (i : nat) :
  (i < length arr)%nat -> exists a, nth_error arr i = Some a /\ get arr i = Ok a.
Proof.
  intro H. destruct (nth_error arr i) eqn:E.
  - exists a. split; [reflexivity|]. apply get_some. exact E.
  - apply nth_error_None in E. lia.
Qed.

Lemma mid_between (lo hi : nat) :
  (lo < hi - 1 -> lo < (lo + hi) / 2 < hi)%nat.
Proof.
  intro H.
  assert (Hd := Nat.div_mod_eq (lo + hi) 2).
  assert (Hm := Nat.mod_upper_bound (lo + hi) 2).
  lia.
Qed.

(** The loop ends within its fuel on an adjacent pair, and keeps whatever
    the two comparison outcomes establish about [lo] and [hi]. *)
Lemma bsearch_inv (routePoints : list RoutePoint) (dist : num)
  (A B : nat -> Prop) :
  (forall i p, nth_error routePoints i = Some p ->
               jle (distance p) dist = true -> A i) ->
  (forall i p, nth_error routePoints i = Some p ->
               jle (distance p) dist = false -> B i) ->
  forall fuel lo hi,
    (lo < hi)%nat -> (hi < length routePoints)%nat -> (hi - lo <= fuel)%nat ->
    A lo -> B hi ->
    exists k, bsearch fuel routePoints dist lo hi = Ok (k, S k)
              /\ (lo <= k)%nat /\ (S k <= hi)%nat /\ A k /\ B (S k).
Proof.
  intros HA HB fuel.
  induction fuel as [|fuel IH]; intros lo hi Hlt Hlen Hfuel Alo Bhi.
  - lia.
  - cbn [bsearch].
    destruct (lo <? hi - 1)%nat eqn:E.
    + apply Nat.ltb_lt in E.
      pose proof (mid_between lo hi E) as [Hm1 Hm2].
      set (mid := ((lo + hi) / 2)%nat) in *.
      destruct (get_lt routePoints mid) as [pm [Hn Hg]]; [lia|].
      rewrite Hg. cbn [bind].
      destruct (jle (distance pm) dist) eqn:Ec.
      * destruct (IH mid hi) as [k [Hk [H1 [H2 [H3 H4]]]]];
          try lia; eauto.
        exists k. repeat split; try assumption; lia.
      * destruct (IH lo mid) as [k [Hk [H1 [H2 [H3 H4]]]]];
          try lia; eauto.
        exists k. repeat split; try assumption; lia.
    + apply Nat.ltb_ge in E.
      exists lo. assert (hi = S lo) as -> by lia.
      repeat split; try assumption; lia.
Qed.

(** [interpolateElevation] returns a number on every input: no index leaves
    the array and the loop ends. *)
Lemma interpolateElevation_total (routePoints : list RoutePoint) (dist : num) :
  exists v, interpolateElevation routePoints dist = Ok v.
Proof.
  destruct routePoints as [|first rest]; [eexists; reflexivity|].
  unfold interpolateElevation.
  destruct (jle dist (distance first)); [eexists; reflexivity|].
  destruct (jge dist _); [eexists; reflexivity|].
  set (pts := first :: rest).
  assert (Hb : exists lo hi, bsearch (length pts) pts dist 0 (length pts - 1)
                             = Ok (lo, hi) /\ (lo < length pts)%nat
                             /\ (hi < length pts)%nat).
  { destruct rest as [|second rest'].
    - exists 0%nat, 0%nat. cbn. repeat split; lia.
    - destruct (bsearch_inv pts dist (fun _ => True) (fun _ => True))
        with (fuel := length pts) (lo := 0%nat) (hi := (length pts - 1)%nat)
        as [k [Hk [H1 [H2 _]]]]; try (cbn [pts length]; lia); auto.
      exists k, (S k). repeat split; [exact Hk| |]; cbn [pts length] in *; lia. }
  destruct Hb as [lo [hi [Hb [Hlo Hhi]]]].
  rewrite Hb. cbn [bind fst snd].
  destruct (get_lt pts lo Hlo) as [a [_ ->]].
  destruct (get_lt pts hi Hhi) as [b [_ ->]].
  cbn [bind]. eexists; reflexivity.
Qed.

(** ** Finite series *)

Lemma nth_error_route (pts : list (Q * Q)) (i : nat) (p : RoutePoint) :
  nth_error (route pts) i = Some p ->
  exists q, nth_error pts i = Some q /\ p = routePoint q.
Proof.
  unfold route. rewrite nth_error_map.
  destruct (nth_error pts i) as [q|]; cbn; intro H; inversion H.
  exists q. split; reflexivity.
Qed.

Lemma last_route (pts : list (Q * Q)) (q : Q * Q) :
  last (route pts) (routePoint q) = routePoint (last pts q).
Proof.
  induction pts as [|a pts IH]; [reflexivity|].
  destruct pts as [|b pts]; [reflexivity|].
  cbn [route map last] in *. exact IH.
Qed.

Lemma nth_error_last {A : Type} (a : A) (l : list A) (d : A) :
  nth_error (a :: l) (length l) = Some (last (a :: l) d).
Proof.
  revert a. induction l as [|b l IH]; intro a; [reflexivity|].
  cbn [length nth_error]. rewrite IH. reflexivity.
Qed.

(** Strictly inside the range of a finite series, the search selects an
    adjacent pair [(k, k+1)] whose distances satisfy
    [d_k <= d < d_(k+1)], and the result is the linear interpolation on
    that pair. *)
Lemma interpolateElevation_bracket (first : Q * Q) (rest : list (Q * Q)) (d : Q) :
  let pts := first :: rest in
  fst first < d -> d < fst (last pts first) ->
  exists k q1 q2,
    bsearch (length pts) (route pts) (Fin d) 0 (length pts - 1) = Ok (k, S k)
    /\ nth_error pts k = Some q1 /\ nth_error pts (S k) = Some q2
    /\ fst q1 <= d /\ d < fst q2
    /\ interpolateElevation (route pts) (Fin d) = Ok (Fin (lerpQ q1 q2 d))
    /\ elevationAt_guarded (route pts) (Fin d) = Ok (Fin (lerpQ q1 q2 d)).
Proof.
  intros pts Hfirst Hlast.
  assert (Hlen : (2 <= length pts)%nat).
  { destruct rest; [cbn in Hlast; lra | cbn; lia]. }
  unfold interpolateElevation, elevationAt_guarded.
  change (route pts) with (routePoint first :: route rest).
  cbv beta iota.
  change (routePoint first :: route rest) with (route pts).
  assert (E1 : jle (Fin d) (distance (routePoint first)) = false).
  { apply jle_fin_false. exact Hfirst. }
  rewrite E1. rewrite last_route.
  assert (E2 : jge (Fin d) (distance (routePoint (last pts first))) = false).
  { apply jle_fin_false. exact Hlast. }
  rewrite E2.
  assert (Hl : length (route pts) = length pts) by apply length_map.
  rewrite Hl.
  destruct (bsearch_inv (route pts) (Fin d)
              (fun i => exists q, nth_error pts i = Some q /\ fst q <= d)
              (fun i => exists q, nth_error pts i = Some q /\ d < fst q))
    with (fuel := length pts) (lo := 0%nat) (hi := (length pts - 1)%nat)
    as [k [Hk [_ [Hk2 [[q1 [Hq1 Hd1]] [q2 [Hq2 Hd2]]]]]]].
  - intros i p Hn Hc. apply nth_error_route in Hn as [q [Hq ->]].
    exists q. split; [exact Hq|]. apply jle_fin. exact Hc.
  - intros i p Hn Hc. apply nth_error_route in Hn as [q [Hq ->]].
    exists q. split; [exact Hq|]. apply jle_fin_false. exact Hc.
  - lia.
  - rewrite Hl. lia.
  - lia.
  - exists first. split; [reflexivity|lra].
  - exists (last pts first). split; [|exact Hlast].
    unfold pts. cbn [length]. rewrite Nat.sub_1_r. cbn [Nat.pred].
    apply nth_error_last.
  - exists k, q1, q2. repeat split; try assumption.
    + rewrite Hk. cbn [bind fst snd].
      rewrite (get_some (route pts) k (routePoint q1))
        by (unfold route; rewrite nth_error_map, Hq1; reflexivity).
      rewrite (get_some (route pts) (S k) (routePoint q2))
        by (unfold route; rewrite nth_error_map, Hq2; reflexivity).
      cbn [bind routePoint distance elevation].
      change (Fin d - Fin (fst q1))%js with (Fin (d - fst q1)).
      change (Fin (fst q2) - Fin (fst q1))%js with (Fin (fst q2 - fst q1)).
      rewrite jdiv_fin by lra.
      reflexivity.
    + rewrite Hk. cbn [bind fst snd].
      rewrite (get_some (route pts) k (routePoint q1))
        by (unfold route; rewrite nth_error_map, Hq1; reflexivity).
      rewrite (get_some (route pts) (S k) (routePoint q2))
        by (unfold route; rewrite nth_error_map, Hq2; reflexivity).
      cbn [bind routePoint distance elevation jeqb].
      assert (En : Qeq_bool (fst q2) (fst q1) = false)
        by (apply Qeq_bool_false; lra).
      rewrite En.
      change (Fin d - Fin (fst q1))%js with (Fin (d - fst q1)).
      change (Fin (fst q2) - Fin (fst q1))%js with (Fin (fst q2 - fst q1)).
      rewrite jdiv_fin by lra.
      reflexivity.
Qed.

(** ** Strictly increasing series *)

Lemma increasingb_tail (a : Q * Q) (pts : list (Q * Q)) :
  increasingb (a :: pts) = true -> increasingb pts = true.
Proof.
  destruct pts as [|b pts]; [reflexivity|].
  cbn [increasingb]. intro H. apply andb_true_iff in H. apply H.
Qed.

Lemma increasingb_head (a : Q * Q) (pts : list (Q * Q)) (j : nat) (q : Q * Q) :
  increasingb (a :: pts) = true -> nth_error pts j = Some q -> fst a < fst q.
Proof.
  revert a j. induction pts as [|b pts IH]; intros a j Hinc Hq.
  - destruct j; discriminate.
  - cbn [increasingb] in Hinc. apply andb_true_iff in Hinc as [Hab Htl].
    apply Qlt_bool_iff in Hab.
    destruct j as [|j].
    + inversion Hq; subst. exact Hab.
    + cbn in Hq. pose proof (IH b j Htl Hq). lra.
Qed.

Lemma increasingb_nth (pts : list (Q * Q)) :
  increasingb pts = true ->
  forall i j p q, (i < j)%nat -> nth_error pts i = Some p ->
                  nth_error pts j = Some q -> fst p < fst q.
Proof.
  induction pts as [|a pts IH]; intros Hinc i j p q Hij Hp Hq.
  - destruct i; discriminate.
  - destruct j as [|j]; [lia|].
    destruct i as [|i].
    + inversion Hp; subst. eapply increasingb_head; eauto.
    + cbn in Hp, Hq. eapply (IH (increasingb_tail _ _ Hinc) i j); eauto. lia.
Qed.

Lemma increasingb_index (pts : list (Q * Q)) :
  increasingb pts = true ->
  forall i j p q, nth_error pts i = Some p -> nth_error pts j = Some q ->
                  fst p == fst q -> i = j.
Proof.
  intros Hinc i j p q Hp Hq E.
  destruct (Nat.lt_trichotomy i j) as [H|[H|H]]; [|exact H|].
  - pose proof (increasingb_nth pts Hinc i j p q H Hp Hq). lra.
  - pose proof (increasingb_nth pts Hinc j i q p H Hq Hp). lra.
Qed.

(** ** C5: clamp law and exact sample values *)

Lemma interpolateElevation_clamp_first (first : Q * Q) (rest : list (Q * Q))
  (d : Q) :
  d <= fst first ->
  interpolateElevation (route (first :: rest)) (Fin d) = Ok (Fin (snd first)).
Proof.
  intro H. cbn [route map interpolateElevation routePoint distance elevation].
  apply jle_fin in H. rewrite H. reflexivity.
Qed.

Lemma interpolateElevation_clamp_last (first : Q * Q) (rest : list (Q * Q))
  (d : Q) :
  let pts := first :: rest in
  increasingb pts = true ->
  fst (last pts first) <= d ->
  interpolateElevation (route pts) (Fin d) = Ok (Fin (snd (last pts first))).
Proof.
  intros pts Hinc H.
  unfold interpolateElevation.
  change (route pts) with (routePoint first :: route rest).
  cbv beta iota.
  change (routePoint first :: route rest) with (route pts).
  rewrite last_route.
  destruct (jle (Fin d) (distance (routePoint first))) eqn:E1.
  - apply jle_fin in E1.
    destruct rest as [|b rest']; [reflexivity|].
    exfalso.
    assert (Hl : nth_error pts (length (b :: rest')) = Some (last pts first))
      by apply nth_error_last.
    pose proof (increasingb_nth pts Hinc 0 (length (b :: rest')) first _
                  ltac:(cbn; lia) eq_refl Hl).
    lra.
  - assert (E2 : jge (Fin d) (distance (routePoint (last pts first))) = true)
      by (apply jle_fin; exact H).
    rewrite E2. reflexivity.
Qed.

Lemma interpolateElevation_sample (first : Q * Q) (rest : list (Q * Q))
  (i : nat) (q : Q * Q) :
  let pts := first :: rest in
  increasingb pts = true ->
  nth_error pts i = Some q ->
  yields (interpolateElevation (route pts) (Fin (fst q))) (snd q).
Proof.
  intros pts Hinc Hq.
  destruct (Qlt_le_dec (fst first) (fst q)) as [Hf|Hf].
  - destruct (Qlt_le_dec (fst q) (fst (last pts first))) as [Hl|Hl].
    + destruct (interpolateElevation_bracket first rest (fst q) Hf Hl)
        as [k [q1 [q2 [_ [Hq1 [Hq2 [Hd1 [Hd2 [Hr _]]]]]]]]].
      fold pts in Hq1, Hq2, Hr.
      assert (i = k).
      { destruct (Nat.lt_trichotomy i k) as [H|[H|H]]; [|exact H|].
        - pose proof (increasingb_nth pts Hinc i k q q1 H Hq Hq1). lra.
        - destruct (Nat.eq_dec i (S k)) as [->|Hne].
          + rewrite Hq in Hq2. inversion Hq2; subst. lra.
          + pose proof (increasingb_nth pts Hinc (S k) i q2 q
                          ltac:(lia) Hq2 Hq). lra. }
      subst k. rewrite Hq in Hq1. inversion Hq1; subst q1.
      exists (lerpQ q q2 (fst q)). split; [exact Hr|].
      unfold lerpQ. field. lra.
    + assert (Hlast : nth_error pts (length rest) = Some (last pts first))
        by apply nth_error_last.
      assert (i = length rest).
      { destruct (Nat.lt_trichotomy i (length rest)) as [H|[H|H]]; [|exact H|].
        - pose proof (increasingb_nth pts Hinc i _ q _ H Hq Hlast). lra.
        - assert (nth_error pts i = None)
            by (apply nth_error_None; cbn; lia).
          congruence. }
      subst i.
      assert (E : last pts first = q) by congruence.
      clear Hlast Hq Hl. subst q.
      exists (snd (last pts first)). split; [|reflexivity].
      apply interpolateElevation_clamp_last; [exact Hinc|apply Qle_refl].
  - assert (i = 0%nat).
    { destruct i as [|i]; [reflexivity|].
      pose proof (increasingb_nth pts Hinc 0 (S i) first q
                    ltac:(lia) eq_refl Hq). lra. }
    subst i. inversion Hq; subst q.
    exists (snd first). split; [|reflexivity].
    apply interpolateElevation_clamp_first. lra.
Qed.

(** C5.  For a non-empty series sorted strictly increasing by distance,
    [interpolateElevation] returns the first sample's elevation for every
    query at or before the first sample's distance, the last sample's
    elevation for every query at or after the last sample's distance, and
    at the distance of a sample exactly that sample's elevation. *)
Theorem interpolateElevation_clamp_and_samples
  (first : Q * Q) (rest : list (Q * Q)) :
  let pts := first :: rest in
  increasingb pts = true ->
  (forall d, d <= fst first ->
     interpolateElevation (route pts) (Fin d) = Ok (Fin (snd first)))
  /\ (forall d, fst (last pts first) <= d ->
        interpolateElevation (route pts) (Fin d)
        = Ok (Fin (snd (last pts first))))
  /\ (forall i q, nth_error pts i = Some q ->
        yields (interpolateElevation (route pts) (Fin (fst q))) (snd q)).
Proof.
  intros pts Hinc. split; [|split].
  - intros d H. apply interpolateElevation_clamp_first. exact H.
  - intros d H. apply interpolateElevation_clamp_last; assumption.
  - intros i q H. eapply interpolateElevation_sample; eassumption.
Qed.

Lemma interpolateElevation_clamp_and_samples_witness :
  interpolateElevation (route scenarioSeries) (Fin (-5)) = Ok (Fin 100)
  /\ interpolateElevation (route scenarioSeries) (Fin 2000) = Ok (Fin 100)
  /\ yields (interpolateElevation (route scenarioSeries) (Fin 500)) 150.
Proof.
  pose proof (interpolateElevation_clamp_and_samples (0, 100)
                [(500, 150); (1000, 100)] eq_refl) as [H1 [H2 H3]].
  split; [|split].
  - apply (H1 (-5)). cbn. lra.
  - apply (H2 2000). cbn. lra.
  - apply (H3 1%nat (500, 150)). reflexivity.
Defined.

(** ** C4: the search never selects a degenerate bracket *)

(** C4.  For a series that contains a degenerate bracket (two adjacent
    samples at the same distance) and a query strictly inside the range of
    the series, the bracket [(k, k+1)] the search resolves to satisfies
    [d_k <= d < d_(k+1)]: the divisor [d_(k+1) - d_k] of the interpolation
    fraction is positive, never zero, so nothing is divided by zero, and
    the result is the one of the interpolator that treats a degenerate
    bracket as [t = 0]. *)
Theorem interpolateElevation_degenerate_bracket_safe
  (first : Q * Q) (rest : list (Q * Q)) (d : Q) :
  let pts := first :: rest in
  has_degenerate_bracket pts = true ->
  fst first < d -> d < fst (last pts first) ->
  exists k prev curr,
    bsearch (length pts) (route pts) (Fin d) 0 (length pts - 1) = Ok (k, S k)
    /\ nth_error pts k = Some prev /\ nth_error pts (S k) = Some curr
    /\ 0 < fst curr - fst prev
    /\ interpolateElevation (route pts) (Fin d) = Ok (Fin (lerpQ prev curr d))
    /\ interpolateElevation (route pts) (Fin d)
       = elevationAt_guarded (route pts) (Fin d)
    /\ (fst prev == d -> lerpQ prev curr d == snd prev).
Proof.
  intros pts _ Hfirst Hlast.
  destruct (interpolateElevation_bracket first rest d Hfirst Hlast)
    as [k [q1 [q2 [Hb [Hq1 [Hq2 [Hd1 [Hd2 [Hr Hg]]]]]]]]].
  exists k, q1, q2. repeat split; try assumption.
  - lra.
  - fold pts in Hr, Hg. rewrite Hr, Hg. reflexivity.
  - intro E. unfold lerpQ.
    assert (Hn : ~ fst q2 - fst q1 == 0) by lra.
    assert (Hz : d - fst q1 == 0) by lra.
    rewrite Hz. field. exact Hn.
Qed.

Lemma interpolateElevation_degenerate_bracket_safe_witness :
  exists k prev curr,
    bsearch 4 (route [(0, 0); (5, 10); (5, 20); (10, 30)]) (Fin 5) 0 3
    = Ok (k, S k)
    /\ nth_error [(0, 0); (5, 10); (5, 20); (10, 30)] k = Some prev
    /\ nth_error [(0, 0); (5, 10); (5, 20); (10, 30)] (S k) = Some curr
    /\ 0 < fst curr - fst prev
    /\ interpolateElevation (route [(0, 0); (5, 10); (5, 20); (10, 30)]) (Fin 5)
       = Ok (Fin (lerpQ prev curr 5))
    /\ interpolateElevation (route [(0, 0); (5, 10); (5, 20); (10, 30)]) (Fin 5)
       = elevationAt_guarded (route [(0, 0); (5, 10); (5, 20); (10, 30)]) (Fin 5)
    /\ (fst prev == 5 -> lerpQ prev curr 5 == snd prev).
Proof.
  apply (interpolateElevation_degenerate_bracket_safe
           (0, 0) [(5, 10); (5, 20); (10, 30)] 5).
  - reflexivity.
  - reflexivity.
  - reflexivity.
Defined.

(** At a duplicated distance the selected bracket starts at the last of
    the duplicates. *)
Example interpolateElevation_at_duplicate :
  bsearch 4 (route [(0, 0); (5, 10); (5, 20); (10, 30)]) (Fin 5) 0 3
  = Ok (2%nat, 3%nat)
  /\ yields (interpolateElevation (route [(0, 0); (5, 10); (5, 20); (10, 30)])
               (Fin 5)) 20.
Proof.
  split; [reflexivity|]. eexists. split; [reflexivity|reflexivity].
Qed.

(** ** Finite series give finite elevations *)

Lemma interpolateElevation_elevationQ (pts : list (Q * Q)) (d : Q) :
  interpolateElevation (route pts) (Fin d) = Ok (Fin (elevationQ pts d)).
Proof.
  unfold elevationQ.
  destruct pts as [|first rest]; [reflexivity|].
  destruct (Qlt_le_dec (fst first) d) as [Hf|Hf].
  - destruct (Qlt_le_dec d (fst (last (first :: rest) first))) as [Hl|Hl].
    + destruct (interpolateElevation_bracket first rest d Hf Hl)
        as [k [q1 [q2 [_ [_ [_ [_ [_ [Hr _]]]]]]]]].
      rewrite Hr. reflexivity.
    + unfold interpolateElevation.
      change (route (first :: rest)) with (routePoint first :: route rest).
      cbv beta iota.
      change (routePoint first :: route rest) with (route (first :: rest)).
      assert (E1 : jle (Fin d) (distance (routePoint first)) = false)
        by (apply jle_fin_false; exact Hf).
      rewrite E1, last_route.
      assert (E2 : jge (Fin d)
                     (distance (routePoint (last (first :: rest) first))) = true)
        by (apply jle_fin; exact Hl).
      rewrite E2. reflexivity.
  - rewrite (interpolateElevation_clamp_first first rest d Hf). reflexivity.
Qed.

(** ** C3: the window at distance 0 *)

Lemma computeGradientAtDistance_window (pts : list (Q * Q)) (d T w d1 d2 : Q) :
  jmax (Fin 0) (Fin d - Fin w)%js = Fin d1 ->
  jmin (Fin T) (Fin d + Fin w)%js = Fin d2 ->
  d1 < d2 ->
  computeGradientAtDistance (route pts) (Fin d) (Fin T) (Fin w)
  = Ok (Fin ((elevationQ pts d2 - elevationQ pts d1) / (d2 - d1) * 100)).
Proof.
  intros H1 H2 Hlt. unfold computeGradientAtDistance.
  rewrite H1, H2.
  rewrite !interpolateElevation_elevationQ. cbn [bind].
  change (Fin d2 - Fin d1)%js with (Fin (d2 - d1)).
  assert (E : jle (Fin (d2 - d1)) (Fin 0) = false)
    by (apply jle_fin_false; lra).
  rewrite E.
  change (Fin (elevationQ pts d2) - Fin (elevationQ pts d1))%js
    with (Fin (elevationQ pts d2 - elevationQ pts d1)).
  rewrite jdiv_fin by lra.
  reflexivity.
Qed.

Lemma computeGradientAtDistance_empty_window (pts : list (Q * Q))
  (d T w d1 d2 : Q) :
  jmax (Fin 0) (Fin d - Fin w)%js = Fin d1 ->
  jmin (Fin T) (Fin d + Fin w)%js = Fin d2 ->
  d2 <= d1 ->
  computeGradientAtDistance (route pts) (Fin d) (Fin T) (Fin w) = Ok (Fin 0).
Proof.
  intros H1 H2 Hle. unfold computeGradientAtDistance.
  rewrite H1, H2.
  rewrite !interpolateElevation_elevationQ. cbn [bind].
  change (Fin d2 - Fin d1)%js with (Fin (d2 - d1)).
  assert (E : jle (Fin (d2 - d1)) (Fin 0) = true) by (apply jle_fin; lra).
  rewrite E. reflexivity.
Qed.

(** C3, as stated, fails: on the route [(0,0), (100,10)] of length 100 the
    call at distance 0 with window 100 returns 10, not 0. *)
Lemma computeGradientAtDistance_at_zero_not_zero :
  yields (computeGradientAtDistance (route [(0, 0); (100, 10)])
            (Fin 0) (Fin 100) (Fin 100)) 10
  /\ ~ yields (computeGradientAtDistance (route [(0, 0); (100, 10)])
                 (Fin 0) (Fin 100) (Fin 100)) 0.
Proof.
  split.
  - eexists. split; [vm_compute; reflexivity|reflexivity].
  - intros [q [E H]]. vm_compute in E. inversion E; subst q.
    discriminate H.
Qed.

(** C3, amended.  For every series of finite samples and every
    [totalDistance > 0], the call at distance 0 with
    [windowSize >= totalDistance] uses the window [[0, totalDistance]]: it
    returns the finite number
    [(elevationAt(totalDistance) - elevationAt(0)) / totalDistance * 100]
    (nothing is divided by zero, nothing is thrown), which is 0 exactly
    when the two elevations are equal. *)
Theorem computeGradientAtDistance_at_zero (pts : list (Q * Q)) (T w : Q) :
  0 < T -> T <= w ->
  yields (computeGradientAtDistance (route pts) (Fin 0) (Fin T) (Fin w))
    ((elevationQ pts T - elevationQ pts 0) / T * 100)
  /\ (yields (computeGradientAtDistance (route pts) (Fin 0) (Fin T) (Fin w)) 0
      <-> elevationQ pts T == elevationQ pts 0).
Proof.
  intros HT Hw.
  assert (H1 : jmax (Fin 0) (Fin 0 - Fin w)%js = Fin 0).
  { change (Fin 0 - Fin w)%js with (Fin (0 - w)). rewrite jmax_fin.
    assert (E : Qle_bool (0 - w) 0 = true) by (apply Qle_bool_iff; lra).
    rewrite E. reflexivity. }
  assert (H2 : jmin (Fin T) (Fin 0 + Fin w)%js = Fin T).
  { change (Fin 0 + Fin w)%js with (Fin (0 + w)). rewrite jmin_fin.
    assert (E : Qle_bool T (0 + w) = true) by (apply Qle_bool_iff; lra).
    rewrite E. reflexivity. }
  pose proof (computeGradientAtDistance_window pts 0 T w 0 T H1 H2 HT) as Hr.
  assert (Hy : yields (computeGradientAtDistance (route pts) (Fin 0) (Fin T)
                         (Fin w))
                 ((elevationQ pts T - elevationQ pts 0) / T * 100)).
  { exists ((elevationQ pts T - elevationQ pts 0) / (T - 0) * 100).
    split; [exact Hr|]. field. lra. }
  split; [exact Hy|].
  split.
  - intros [q [E Hq]]. rewrite Hr in E. inversion E as [Eq].
    rewrite <- Eq in Hq.
    assert (Hz : (elevationQ pts T - elevationQ pts 0) / (T - 0) == 0).
    { apply (Qmult_inj_r _ _ 100); [lra|]. rewrite Hq. ring. }
    assert (Hm : (elevationQ pts T - elevationQ pts 0) / (T - 0) * (T - 0)
                 == elevationQ pts T - elevationQ pts 0)
      by (field; lra).
    rewrite Hz in Hm. lra.
  - intro E. eapply yields_eq; [exact Hy|].
    rewrite E. field. lra.
Qed.

Lemma computeGradientAtDistance_at_zero_witness :
  yields (computeGradientAtDistance (route [(0, 0); (100, 10)])
            (Fin 0) (Fin 100) (Fin 100))
    ((elevationQ [(0, 0); (100, 10)] 100 - elevationQ [(0, 0); (100, 10)] 0)
     / 100 * 100).
Proof.
  apply (computeGradientAtDistance_at_zero [(0, 0); (100, 10)] 100 100).
  - reflexivity.
  - discriminate.
Defined.

(** ** C6: gradient of a linear climb and of its mirror image *)



Lemma last_In {A : Type} (a : A) (l : list A) (d : A) :
  In (last (a :: l) d) (a :: l).
Proof.
  revert a. induction l as [|b l IH]; intro a; [left; reflexivity|].
  right. change (In (last (b :: l) d) (b :: l)). apply IH.
Qed.

Lemma interpolateElevation_beyond_last (first : Q * Q) (rest : list (Q * Q))
  (d : Q) :
  fst first < d -> fst (last (first :: rest) first) <= d ->
  interpolateElevation (route (first :: rest)) (Fin d)
  = Ok (Fin (snd (last (first :: rest) first))).
Proof.
  intros Hf Hl. unfold interpolateElevation.
  change (route (first :: rest)) with (routePoint first :: route rest).
  cbv beta iota.
  change (routePoint first :: route rest) with (route (first :: rest)).
  assert (E1 : jle (Fin d) (distance (routePoint first)) = false)
    by (apply jle_fin_false; exact Hf).
  rewrite E1, last_route.
  assert (E2 : jge (Fin d)
                 (distance (routePoint (last (first :: rest) first))) = true)
    by (apply jle_fin; exact Hl).
  rewrite E2. reflexivity.
Qed.









(** ** C10: the color scale *)

Lemma gradientToColor_unfold (settings : Settings.t) (gradient : num) :
  gradientToColor settings gradient
  = lerpColor
      (index (Settings.colorStops settings)
         (gradientBand settings gradient + Fin 3)%js)
      (index (Settings.colorStops settings)
         (gradientBand settings gradient + Fin 4)%js)
      (gradientNormalized settings gradient
       - gradientBand settings gradient)%js.
Proof. reflexivity. Qed.

Lemma isLowerHex_In (c : ascii) : isLowerHex c = true -> In c lowerHexDigits.
Proof.
  destruct c as [b0 b1 b2 b3 b4 b5 b6 b7].
  destruct b0, b1, b2, b3, b4, b5, b6, b7; cbv; intro H;
    try discriminate H; tauto.
Qed.

Lemma num_eqb_eq (a b : num) : num_eqb a b = true -> a = b.
Proof.
  destruct a as [[pn pd]| | |], b as [[qn qd]| | |]; cbn; intro H;
    try discriminate H; try reflexivity.
  apply andb_true_iff in H as [H1 H2].
  apply Z.eqb_eq in H1. apply Pos.eqb_eq in H2. subst. reflexivity.
Qed.

Lemma hex_pair_facts (h l : ascii) :
  isLowerHex h = true -> isLowerHex l = true ->
  parseInt16 (String h (String l "")) = Fin (inject_Z (pairValue h l))
  /\ (0 <= pairValue h l <= 255)%Z
  /\ padStart2 (intToString16 (pairValue h l)) = String h (String l "").
Proof.
  intros Hh Hl.
  assert (Hall :
    forallb (fun h => forallb (fun l =>
      num_eqb (parseInt16 (String h (String l "")))
              (Fin (inject_Z (pairValue h l)))
      && (0 <=? pairValue h l)%Z && (pairValue h l <=? 255)%Z
      && String.eqb (padStart2 (intToString16 (pairValue h l)))
                    (String h (String l "")))
      lowerHexDigits) lowerHexDigits = true) by (vm_compute; reflexivity).
  rewrite forallb_forall in Hall.
  specialize (Hall h (isLowerHex_In h Hh)).
  rewrite forallb_forall in Hall.
  specialize (Hall l (isLowerHex_In l Hl)).
  apply andb_true_iff in Hall as [Hall H4].
  apply andb_true_iff in Hall as [Hall H3].
  apply andb_true_iff in Hall as [H1 H2].
  apply num_eqb_eq in H1. apply Z.leb_le in H2, H3.
  apply String.eqb_eq in H4.
  repeat split; assumption.
Qed.

Lemma byte_hex_wf (z : Z) :
  (0 <= z <= 255)%Z ->
  exists h l, padStart2 (intToString16 z) = String h (String l "")
              /\ isLowerHex h = true /\ isLowerHex l = true.
Proof.
  intro Hz.
  assert (Hall :
    forallb (fun n =>
      match padStart2 (intToString16 (Z.of_nat n)) with
      | String h (String l EmptyString) => isLowerHex h && isLowerHex l
      | _ => false
      end) (seq 0 256) = true) by (vm_compute; reflexivity).
  rewrite forallb_forall in Hall.
  specialize (Hall (Z.to_nat z)).
  rewrite Z2Nat.id in Hall by lia.
  assert (Hin : In (Z.to_nat z) (seq 0 256)) by (apply in_seq; lia).
  specialize (Hall Hin).
  destruct (padStart2 (intToString16 z)) as [|h [|l [|? ?]]];
    try discriminate Hall.
  apply andb_true_iff in Hall as [H1 H2].
  exists h, l. repeat split; assumption.
Qed.

Lemma lerpColor_channels (c1 c2 : string) (t : num) :
  lerpColor (Some c1) (Some c2) t
  = Ok (String "#"
          (String.concat ""
             [channel (slice 1 3 c1) (slice 1 3 c2) t;
              channel (slice 3 5 c1) (slice 3 5 c2) t;
              channel (slice 5 7 c1) (slice 5 7 c2) t])).
Proof. reflexivity. Qed.

Lemma Qfloor_half (v : Z) : Qfloor (inject_Z v + (1 # 2)) = v.
Proof.
  pose proof (Qfloor_le (inject_Z v + (1 # 2))) as H1.
  pose proof (Qlt_floor (inject_Z v + (1 # 2))) as H2.
  set (z := Qfloor (inject_Z v + (1 # 2))) in *.
  unfold Qle, Qlt, inject_Z in *. cbn in *. lia.
Qed.

Lemma Qfloor_byte (q : Q) : 0 <= q -> q <= 255 -> (0 <= Qfloor (q + (1 # 2)) <= 255)%Z.
Proof.
  intros H0 H1. split.
  - change 0%Z with (Qfloor 0). apply Qfloor_resp_le. lra.
  - change 255%Z with (Qfloor (255 + (1 # 2))). apply Qfloor_resp_le. lra.
Qed.

Lemma inject_Z_byte (z : Z) : (0 <= z <= 255)%Z -> 0 <= inject_Z z /\ inject_Z z <= 255.
Proof.
  intros [H0 H1]. split.
  - change 0 with (inject_Z 0). rewrite <- Zle_Qle. exact H0.
  - change 255 with (inject_Z 255). rewrite <- Zle_Qle. exact H1.
Qed.

Lemma channel_wf (h1 l1 h2 l2 : ascii) (t : Q) :
  isLowerHex h1 = true -> isLowerHex l1 = true ->
  isLowerHex h2 = true -> isLowerHex l2 = true ->
  0 <= t -> t <= 1 ->
  exists h l,
    channel (String h1 (String l1 "")) (String h2 (String l2 "")) (Fin t)
    = String h (String l "")
    /\ isLowerHex h = true /\ isLowerHex l = true
    /\ (t == 1 -> h = h2 /\ l = l2)
    /\ (t == 0 -> h = h1 /\ l = l1).
Proof.
  intros Hh1 Hl1 Hh2 Hl2 Ht0 Ht1.
  destruct (hex_pair_facts h1 l1 Hh1 Hl1) as [P1 [B1 R1]].
  destruct (hex_pair_facts h2 l2 Hh2 Hl2) as [P2 [B2 R2]].
  unfold channel. rewrite P1, P2.
  set (a := inject_Z (pairValue h1 l1)) in *.
  set (b := inject_Z (pairValue h2 l2)) in *.
  change (Fin a + (Fin b - Fin a) * Fin t)%js with (Fin (a + (b - a) * t)).
  cbn [jround toString16]. rewrite Qfloor_Z.
  destruct (inject_Z_byte _ B1) as [Ha0 Ha1].
  destruct (inject_Z_byte _ B2) as [Hb0 Hb1].
  fold a in Ha0, Ha1. fold b in Hb0, Hb1.
  assert (Hx0 : 0 <= a + (b - a) * t) by nra.
  assert (Hx1 : a + (b - a) * t <= 255) by nra.
  pose proof (Qfloor_byte _ Hx0 Hx1) as Hz.
  destruct (byte_hex_wf _ Hz) as [h [l [E [Hh Hl]]]].
  exists h, l. repeat split; try assumption.
  - assert (Ex : a + (b - a) * t + (1 # 2) == b + (1 # 2)) by (rewrite H; ring).
    rewrite Ex in E. unfold b in E. rewrite Qfloor_half, R2 in E.
    congruence.
  - assert (Ex : a + (b - a) * t + (1 # 2) == b + (1 # 2)) by (rewrite H; ring).
    rewrite Ex in E. unfold b in E. rewrite Qfloor_half, R2 in E.
    congruence.
  - assert (Ex : a + (b - a) * t + (1 # 2) == a + (1 # 2)) by (rewrite H; ring).
    rewrite Ex in E. unfold a in E. rewrite Qfloor_half, R1 in E.
    congruence.
  - assert (Ex : a + (b - a) * t + (1 # 2) == a + (1 # 2)) by (rewrite H; ring).
    rewrite Ex in E. unfold a in E. rewrite Qfloor_half, R1 in E.
    congruence.
Qed.

Lemma wf_color_inv (c : string) :
  wf_color c = true ->
  exists r1 r2 g1 g2 b1 b2,
    c = String "#" (String r1 (String r2 (String g1 (String g2
          (String b1 (String b2 EmptyString))))))
    /\ isLowerHex r1 = true /\ isLowerHex r2 = true
    /\ isLowerHex g1 = true /\ isLowerHex g2 = true
    /\ isLowerHex b1 = true /\ isLowerHex b2 = true.
Proof.
  intro H.
  destruct c as [|c0 [|r1 [|r2 [|g1 [|g2 [|b1 [|b2 [|? ?]]]]]]]];
    try discriminate H.
  - destruct c0 as [[] [] [] [] [] [] [] []]; discriminate H.
  - destruct c0 as [[] [] [] [] [] [] [] []]; discriminate H.
  - destruct c0 as [[] [] [] [] [] [] [] []]; discriminate H.
  - destruct c0 as [[] [] [] [] [] [] [] []]; discriminate H.
  - destruct c0 as [[] [] [] [] [] [] [] []]; discriminate H.
  - destruct c0 as [[] [] [] [] [] [] [] []]; discriminate H.
  - destruct c0 as [[] [] [] [] [] [] [] []]; try discriminate H.
    cbn in H. repeat (apply andb_true_iff in H as [H ?]).
    exists r1, r2, g1, g2, b1, b2. repeat split; assumption.
  - destruct c0 as [[] [] [] [] [] [] [] []]; discriminate H.
Qed.

(** Between two well-formed colors, with [0 <= t <= 1], [lerpColor] returns
    a well-formed color; at [t = 1] it is the second color and at [t = 0]
    the first. *)
Lemma lerpColor_wf (c1 c2 : string) (t : Q) :
  wf_color c1 = true -> wf_color c2 = true -> 0 <= t -> t <= 1 ->
  exists c, lerpColor (Some c1) (Some c2) (Fin t) = Ok c
            /\ wf_color c = true
            /\ (t == 1 -> c = c2) /\ (t == 0 -> c = c1).
Proof.
  intros W1 W2 Ht0 Ht1.
  destruct (wf_color_inv c1 W1)
    as [r1 [r2 [g1 [g2 [b1 [b2 [-> [Hr1 [Hr2 [Hg1 [Hg2 [Hb1 Hb2]]]]]]]]]]]].
  destruct (wf_color_inv c2 W2)
    as [r1' [r2' [g1' [g2' [b1' [b2' [-> [Hr1' [Hr2' [Hg1' [Hg2' [Hb1' Hb2']]]]]]]]]]]].
  rewrite lerpColor_channels.
  cbn [slice Nat.sub substring].
  destruct (channel_wf r1 r2 r1' r2' t) as [rh [rl [-> [Hrh [Hrl [Rs1 Rs0]]]]]];
    try assumption.
  destruct (channel_wf g1 g2 g1' g2' t) as [gh [gl [-> [Hgh [Hgl [Gs1 Gs0]]]]]];
    try assumption.
  destruct (channel_wf b1 b2 b1' b2' t) as [bh [bl [-> [Hbh [Hbl [Bs1 Bs0]]]]]];
    try assumption.
  eexists. split; [reflexivity|].
  cbn [String.concat map String.append].
  split; [|split].
  - cbn [wf_color]. rewrite Hrh, Hrl, Hgh, Hgl, Hbh, Hbl. reflexivity.
  - intro E. destruct (Rs1 E), (Gs1 E), (Bs1 E). subst. reflexivity.
  - intro E. destruct (Rs0 E), (Gs0 E), (Bs0 E). subst. reflexivity.
Qed.

Lemma inject_Z_lt_inv (a b : Z) : inject_Z a < inject_Z b -> (a < b)%Z.
Proof. intro H. rewrite Zlt_Qlt. exact H. Qed.

Lemma inject_Z_le_inv (a b : Z) : inject_Z a <= inject_Z b -> (a <= b)%Z.
Proof. intro H. rewrite Zle_Qle. exact H. Qed.

(** The clamped ratio and the band of a finite gradient, for a positive
    band width. *)
Lemma gradient_band_facts (stops : list string) (g bw : Q) :
  let settings :=
    {| Settings.colorStops := stops; Settings.distance := Fin bw |} in
  0 < bw ->
  exists (n b : Q) (z : Z),
    gradientNormalized settings (Fin g) = Fin n
    /\ gradientBand settings (Fin g) = Fin b
    /\ b == inject_Z z /\ (-3 <= z <= 2)%Z
    /\ 0 <= n - b /\ n - b <= 1
    /\ (3 * bw <= g -> z = 2%Z /\ n - b == 1)
    /\ (g <= -3 * bw -> z = (-3)%Z /\ n - b == 0).
Proof.
  intros settings Hbw.
  unfold gradientBand, gradientNormalized, settings.
  cbn [Settings.distance].
  rewrite jdiv_fin by lra.
  set (m := g / bw).
  assert (Hm3 : 3 * bw <= g -> 3 <= m)
    by (intro H; apply Qle_shift_div_l; [exact Hbw|exact H]).
  assert (Hm3' : g <= -3 * bw -> m <= -3)
    by (intro H; apply Qle_shift_div_r; [exact Hbw|exact H]).
  rewrite jmin_fin, jmax_fin.
  set (mm := if Qle_bool 3 m then 3 else m).
  set (n := if Qle_bool mm (-3) then -3 else mm).
  assert (Hn : -3 <= n /\ n <= 3).
  { unfold n, mm.
    destruct (Qle_bool 3 m) eqn:E1.
    - cbn. split; lra.
    - apply Qle_bool_false in E1.
      destruct (Qle_bool m (-3)) eqn:E2.
      + split; lra.
      + apply Qle_bool_false in E2. split; lra. }
  assert (Hn3 : 3 * bw <= g -> n == 3).
  { intro H. apply Hm3 in H. unfold n, mm.
    apply Qle_bool_iff in H. rewrite H. reflexivity. }
  assert (Hn3' : g <= -3 * bw -> n == -3).
  { intro H. apply Hm3' in H. unfold n, mm.
    assert (E1 : Qle_bool 3 m = false) by (apply Qle_bool_false; lra).
    rewrite E1.
    assert (E2 : Qle_bool m (-3) = true) by (apply Qle_bool_iff; exact H).
    rewrite E2. reflexivity. }
  cbn [jfloor]. rewrite jmin_fin, jmax_fin.
  pose proof (Qfloor_le n) as Hf1.
  pose proof (Qlt_floor n) as Hf2.
  assert (Hf3 : (-3 <= Qfloor n)%Z).
  { change (-3)%Z with (Qfloor (-3)). apply Qfloor_resp_le. apply Hn. }
  assert (Hf4 : (Qfloor n <= 3)%Z).
  { change 3%Z with (Qfloor 3). apply Qfloor_resp_le. apply Hn. }
  assert (Hf3' : -3 <= inject_Z (Qfloor n)).
  { change (-3) with (inject_Z (-3)). rewrite <- Zle_Qle. exact Hf3. }
  rewrite inject_Z_plus in Hf2. change (inject_Z 1) with 1 in Hf2.
  assert (Hfl3 : n == 3 -> Qfloor n = 3%Z)
    by (intro H; rewrite H; reflexivity).
  assert (Hfl3' : n == -3 -> Qfloor n = (-3)%Z)
    by (intro H; rewrite H; reflexivity).
  set (fl := inject_Z (Qfloor n)) in *.
  destruct (Qle_bool 2 fl) eqn:E3.
  - apply Qle_bool_iff in E3.
    exists n, 2, 2%Z.
    split; [reflexivity|]. split; [reflexivity|].
    split; [reflexivity|]. split; [lia|].
    split; [lra|]. split; [lra|]. split.
    + intro H. split; [reflexivity|]. rewrite (Hn3 H). reflexivity.
    + intro H. apply Hn3' in H. lra.
  - apply Qle_bool_false in E3.
    assert (Hz : (Qfloor n < 2)%Z).
    { apply inject_Z_lt_inv. exact E3. }
    destruct (Qle_bool fl (-3)) eqn:E4.
    + apply Qle_bool_iff in E4.
      assert (Ez : Qfloor n = (-3)%Z).
      { apply Z.le_antisymm; [|exact Hf3].
        apply inject_Z_le_inv. exact E4. }
      assert (Efl : fl == -3) by (unfold fl; rewrite Ez; reflexivity).
      exists n, (-3), (-3)%Z.
      split; [reflexivity|]. split; [reflexivity|].
      split; [reflexivity|]. split; [lia|].
      split; [lra|]. split; [lra|]. split.
      * intro H. apply Hn3, Hfl3 in H. lia.
      * intro H. apply Hn3' in H. split; [reflexivity|lra].
    + apply Qle_bool_false in E4.
      exists n, fl, (Qfloor n).
      split; [reflexivity|]. split; [reflexivity|].
      split; [reflexivity|].
      split; [lia|]. split; [lra|]. split; [lra|]. split.
      * intro H. apply Hn3, Hfl3 in H. lia.
      * intro H. apply Hn3', Hfl3' in H. exfalso.
        unfold fl in E4. rewrite H in E4. discriminate E4.
Qed.

Lemma index_integer {A : Type} (arr : list A) (b : Q) (z k : Z) :
  b == inject_Z z -> (0 <= z + k)%Z ->
  index arr (Fin b + Fin (inject_Z k))%js = nth_error arr (Z.to_nat (z + k)).
Proof.
  intros Hb Hz.
  change (Fin b + Fin (inject_Z k))%js with (Fin (b + inject_Z k)).
  assert (Hq : b + inject_Z k == inject_Z (z + k))
    by (rewrite inject_Z_plus, Hb; reflexivity).
  assert (Hfl : Qfloor (b + inject_Z k) = (z + k)%Z)
    by (rewrite Hq; apply Qfloor_Z).
  cbn [index]. rewrite Hfl.
  assert (E1 : Qeq_bool (inject_Z (z + k)) (b + inject_Z k) = true)
    by (apply Qeq_bool_iff; rewrite Hq; reflexivity).
  assert (E2 : (0 <=? z + k)%Z = true) by (apply Z.leb_le; exact Hz).
  rewrite E1, E2. reflexivity.
Qed.

Lemma wf_stops_nth (stops : list string) (i : nat) :
  wf_stops stops = true -> (i < 7)%nat ->
  exists c, nth_error stops i = Some c /\ wf_color c = true.
Proof.
  unfold wf_stops. intros H Hi.
  apply andb_true_iff in H as [Hlen Hall].
  apply Nat.eqb_eq in Hlen.
  destruct (nth_error stops i) as [c|] eqn:E.
  - exists c. split; [reflexivity|].
    rewrite forallb_forall in Hall. apply Hall.
    eapply nth_error_In. exact E.
  - apply nth_error_None in E. lia.
Qed.

Lemma gradientToColor_finite (stops : list string) (g bandWidth : Q) :
  let settings :=
    {| Settings.colorStops := stops; Settings.distance := Fin bandWidth |} in
  wf_stops stops = true -> 0 < bandWidth ->
  exists (band : Z) (c1 c2 c : string),
    jeq (gradientBand settings (Fin g)) (Fin (inject_Z band))
    /\ (-3 <= band <= 2)%Z
    /\ index stops (gradientBand settings (Fin g) + Fin 3)%js = Some c1
    /\ nth_error stops (Z.to_nat (band + 3)) = Some c1
    /\ index stops (gradientBand settings (Fin g) + Fin 4)%js = Some c2
    /\ nth_error stops (Z.to_nat (band + 4)) = Some c2
    /\ gradientToColor settings (Fin g) = Ok c
    /\ wf_color c = true
    /\ (3 * bandWidth <= g -> nth_error stops 6 = Some c)
    /\ (g <= -3 * bandWidth -> nth_error stops 0 = Some c).
Proof.
  intros settings Hwf Hbw.
  destruct (gradient_band_facts stops g bandWidth Hbw)
    as [n [b [z [En [Eb [Hb [Hz [Ht0 [Ht1 [Hhi Hlo]]]]]]]]]].
  fold settings in En, Eb.
  destruct (wf_stops_nth stops (Z.to_nat (z + 3)) Hwf ltac:(lia))
    as [c1 [Hc1 W1]].
  destruct (wf_stops_nth stops (Z.to_nat (z + 4)) Hwf ltac:(lia))
    as [c2 [Hc2 W2]].
  assert (I1 : index stops (gradientBand settings (Fin g) + Fin 3)%js = Some c1).
  { rewrite Eb. change (Fin 3) with (Fin (inject_Z 3)).
    rewrite (index_integer stops b z 3 Hb) by lia. exact Hc1. }
  assert (I2 : index stops (gradientBand settings (Fin g) + Fin 4)%js = Some c2).
  { rewrite Eb. change (Fin 4) with (Fin (inject_Z 4)).
    rewrite (index_integer stops b z 4 Hb) by lia. exact Hc2. }
  destruct (lerpColor_wf c1 c2 (n - b) W1 W2 Ht0 Ht1) as [c [Hc [Wc [S1 S0]]]].
  exists z, c1, c2, c.
  split; [rewrite Eb; exact Hb|].
  split; [exact Hz|].
  split; [exact I1|]. split; [exact Hc1|].
  split; [exact I2|]. split; [exact Hc2|].
  assert (Hg : gradientToColor settings (Fin g) = Ok c).
  { rewrite gradientToColor_unfold.
    change (Settings.colorStops settings) with stops.
    rewrite I1, I2, En, Eb. exact Hc. }
  split; [exact Hg|]. split; [exact Wc|]. split.
  - intro H. destruct (Hhi H) as [Ez Et]. subst z.
    rewrite (S1 Et). exact Hc2.
  - intro H. destruct (Hlo H) as [Ez Et]. subst z.
    rewrite (S0 Et). exact Hc1.
Qed.

(** C10.  For every finite gradient and every positive band width, with
    seven well-formed color stops: the band of [gradientToColor] is an
    integer in [[-3, 2]], both color-stop lookups ([band + 3] and
    [band + 4]) hit the stop list, and the result is a well-formed
    ["#rrggbb"] string; a gradient of at least [3 * bandWidth] gives
    exactly the last stop and one of at most [-3 * bandWidth] exactly the
    first stop. *)
Theorem gradientToColor_bands (stops : list string) (g bandWidth : Q) :
  let settings :=
    {| Settings.colorStops := stops; Settings.distance := Fin bandWidth |} in
  wf_stops stops = true -> 0 < bandWidth ->
  exists (band : Z) (c1 c2 c : string),
    jeq (gradientBand settings (Fin g)) (Fin (inject_Z band))
    /\ (-3 <= band <= 2)%Z
    /\ index stops (gradientBand settings (Fin g) + Fin 3)%js = Some c1
    /\ nth_error stops (Z.to_nat (band + 3)) = Some c1
    /\ index stops (gradientBand settings (Fin g) + Fin 4)%js = Some c2
    /\ nth_error stops (Z.to_nat (band + 4)) = Some c2
    /\ gradientToColor settings (Fin g) = Ok c
    /\ wf_color c = true
    /\ (3 * bandWidth <= g -> nth_error stops 6 = Some c)
    /\ (g <= -3 * bandWidth -> nth_error stops 0 = Some c).
Proof.
  intros settings Hwf Hbw.
  apply (gradientToColor_finite stops g bandWidth Hwf Hbw).
Qed.

Lemma gradientToColor_bands_witness :
  exists (band : Z) (c1 c2 c : string),
    jeq (gradientBand DEFAULT_SETTINGS (Fin 30)) (Fin (inject_Z band))
    /\ (-3 <= band <= 2)%Z
    /\ index (Settings.colorStops DEFAULT_SETTINGS)
         (gradientBand DEFAULT_SETTINGS (Fin 30) + Fin 3)%js = Some c1
    /\ nth_error (Settings.colorStops DEFAULT_SETTINGS) (Z.to_nat (band + 3))
       = Some c1
    /\ index (Settings.colorStops DEFAULT_SETTINGS)
         (gradientBand DEFAULT_SETTINGS (Fin 30) + Fin 4)%js = Some c2
    /\ nth_error (Settings.colorStops DEFAULT_SETTINGS) (Z.to_nat (band + 4))
       = Some c2
    /\ gradientToColor DEFAULT_SETTINGS (Fin 30) = Ok c
    /\ wf_color c = true
    /\ (3 * 7 <= 30 -> nth_error (Settings.colorStops DEFAULT_SETTINGS) 6 = Some c)
    /\ (30 <= -3 * 7 -> nth_error (Settings.colorStops DEFAULT_SETTINGS) 0 = Some c).
Proof.
  apply (gradientToColor_bands (Settings.colorStops DEFAULT_SETTINGS) 30 7).
  - reflexivity.
  - reflexivity.
Defined.

(** ** The sort *)

Lemma sort_insert_perm {A : Type} (cmp : A -> A -> num) (a : A) (l : list A) :
  Permutation (sort_insert cmp a l) (a :: l).
Proof.
  induction l as [|b l IH]; [reflexivity|].
  cbn [sort_insert]. destruct (jgt (cmp a b) (Fin 0)).
  - rewrite IH. apply perm_swap.
  - reflexivity.
Qed.

Lemma sort_perm {A : Type} (cmp : A -> A -> num) (l : list A) :
  Permutation (sort cmp l) l.
Proof.
  induction l as [|a l IH]; [reflexivity|].
  cbn [sort fold_right]. fold (sort cmp l).
  rewrite sort_insert_perm. apply perm_skip. exact IH.
Qed.

Lemma byDiffDescending_gt (a b : Cand.t) :
  finiteDiff a -> finiteDiff b ->
  jgt (byDiffDescending a b) (Fin 0) = Qlt_bool (diffQ a) (diffQ b).
Proof.
  unfold finiteDiff, byDiffDescending. intros -> ->.
  cbn. unfold Qlt_bool.
  destruct (Qle_bool (diffQ b) (diffQ a)) eqn:E.
  - apply Qle_bool_iff in E.
    assert (E' : Qle_bool (diffQ b + - diffQ a) 0 = true)
      by (apply Qle_bool_iff; lra).
    rewrite E'. reflexivity.
  - apply Qle_bool_false in E.
    assert (E' : Qle_bool (diffQ b + - diffQ a) 0 = false)
      by (apply Qle_bool_false; lra).
    rewrite E'. reflexivity.
Qed.

Lemma sort_insert_headIsMax (a : Cand.t) (l : list Cand.t) :
  Forall finiteDiff (a :: l) -> headIsMax l ->
  headIsMax (sort_insert byDiffDescending a l).
Proof.
  intros Hfin Hmax. destruct l as [|b l]; [constructor|].
  cbn [sort_insert].
  inversion Hfin as [|? ? Ha Hl]; subst.
  inversion Hl as [|? ? Hb Hl']; subst.
  rewrite (byDiffDescending_gt a b Ha Hb).
  destruct (Qlt_bool (diffQ a) (diffQ b)) eqn:E.
  - apply Qlt_bool_iff in E. cbn [headIsMax] in *.
    eapply Permutation_Forall.
    + symmetry. apply sort_insert_perm.
    + constructor; [lra|exact Hmax].
  - apply Qlt_bool_false in E. cbn [headIsMax] in *.
    constructor; [exact E|].
    eapply Forall_impl; [|exact Hmax]. cbn. intros c Hc. lra.
Qed.

Lemma sort_headIsMax (l : list Cand.t) :
  Forall finiteDiff l -> headIsMax (sort byDiffDescending l).
Proof.
  induction l as [|a l IH]; intro Hfin; [exact I|].
  cbn [sort fold_right]. fold (sort byDiffDescending l).
  inversion Hfin as [|? ? Ha Hl]; subst.
  apply sort_insert_headIsMax; [|apply IH; exact Hl].
  constructor; [exact Ha|].
  eapply Permutation_Forall; [|exact Hl].
  symmetry. apply sort_perm.
Qed.

(** ** The candidates of a finite series *)

Lemma mapM_map {A B : Type} (f : A -> res B) (g : A -> B) (l : list A) :
  (forall a, In a l -> f a = Ok (g a)) -> mapM f l = Ok (map g l).
Proof.
  induction l as [|a l IH]; intro H; [reflexivity|].
  cbn [mapM map]. rewrite (H a (or_introl eq_refl)). cbn [bind].
  rewrite IH by (intros b Hb; apply H; right; exact Hb).
  reflexivity.
Qed.

Lemma candidateAt_finite (pts : list (Q * Q)) (total : Q) (i : nat) :
  candidateAt (route pts) (Fin total) defaultNumCandidates i
  = Ok (candidateQ pts total i).
Proof.
  unfold candidateAt, numOfNat.
  rewrite jdiv_fin by discriminate.
  fold (candidateX i).
  change (Fin (candidateX i) * Fin total)%js with (Fin (candidateX i * total)).
  change ((Fin 1 - Fin (candidateX i)) * Fin total)%js
    with (Fin ((1 - candidateX i) * total)).
  rewrite !interpolateElevation_elevationQ. cbn [bind].
  reflexivity.
Qed.

Lemma findAsymmetricPositions_finite (pts : list (Q * Q)) (total : Q) :
  findAsymmetricPositions (route pts) (Fin total) defaultNumCandidates
  = Ok (sort byDiffDescending (map (candidateQ pts total) candidateIndices)).
Proof.
  unfold findAsymmetricPositions.
  rewrite (mapM_map _ (candidateQ pts total))
    by (intros i _; apply candidateAt_finite).
  reflexivity.
Qed.

Lemma candidates_finiteDiff (pts : list (Q * Q)) (total : Q) (l : list nat) :
  Forall finiteDiff (map (candidateQ pts total) l).
Proof.
  apply Forall_forall. intros c Hc. apply in_map_iff in Hc as [i [<- _]].
  reflexivity.
Qed.

Lemma maxAsymmetry_bound (pts : list (Q * Q)) (total : Q) (i : nat) :
  In i candidateIndices -> asymmetry pts total i <= maxAsymmetry pts total.
Proof.
  unfold maxAsymmetry. induction candidateIndices as [|j l IH];
    intro Hin; [contradiction|].
  cbn [fold_right]. destruct Hin as [->|Hin].
  - apply Q.le_max_l.
  - eapply Qle_trans; [apply IH; exact Hin|]. apply Q.le_max_r.
Qed.


(** The first element of the sorted candidates: it is one of the
    candidates, and its [diff] is the largest asymmetry. *)
Lemma top_candidate (pts : list (Q * Q)) (total : Q) :
  exists i top rest,
    sort byDiffDescending (map (candidateQ pts total) candidateIndices)
    = top :: rest
    /\ In i candidateIndices /\ top = candidateQ pts total i
    /\ (forall j, In j candidateIndices ->
                  asymmetry pts total j <= asymmetry pts total i).
Proof.
  set (cands := map (candidateQ pts total) candidateIndices).
  pose proof (sort_perm byDiffDescending cands) as Hperm.
  pose proof (sort_headIsMax cands (candidates_finiteDiff _ _ _)) as Hmax.
  destruct (sort byDiffDescending cands) as [|top rest] eqn:E.
  - apply Permutation_length in Hperm. discriminate Hperm.
  - assert (Hin : In top cands)
      by (eapply Permutation_in; [exact Hperm|left; reflexivity]).
    apply in_map_iff in Hin as [i [Hi Hin]].
    exists i, top, rest. repeat split; auto.
    intros j Hj.
    assert (Hjc : In (candidateQ pts total j) (top :: rest)).
    { eapply Permutation_in; [symmetry; exact Hperm|].
      apply in_map. exact Hj. }
    cbn [headIsMax] in Hmax. rewrite Forall_forall in Hmax.
    destruct Hjc as [Hjc|Hjc].
    + rewrite <- Hi in Hjc.
      assert (Ed : asymmetry pts total j = asymmetry pts total i).
      { change (diffQ (candidateQ pts total j)
                = diffQ (candidateQ pts total i)). congruence. }
      rewrite Ed. apply Qle_refl.
    + specialize (Hmax _ Hjc). rewrite <- Hi in Hmax. exact Hmax.
Qed.

(** ** C1: a symmetric route is Forward *)

(** C1.  For every full-resolution series of finite samples and every
    total distance, if the largest forward/reverse asymmetry over the 99
    candidate positions is below 1 meter, [detectRouteDirection] returns
    Forward, whatever the screen curve. *)
Theorem detectRouteDirection_symmetric (svgPoints : list ScreenPoint)
  (pts : list (Q * Q)) (total : Q) :
  (2 <= length pts)%nat ->
  maxAsymmetry pts total < 1 ->
  detectRouteDirection svgPoints (route pts) (Fin total) = Ok Forward.
Proof.
  intros _ Hmax. unfold detectRouteDirection.
  rewrite findAsymmetricPositions_finite. cbn [bind].
  destruct (top_candidate pts total) as [i [top [rest [E [Hi [Ht _]]]]]].
  rewrite E. cbn [get nth_error bind].
  subst top. cbn [candidateQ Cand.diff].
  assert (El : jlt (Fin (asymmetry pts total i)) (Fin 1) = true).
  { apply jlt_fin. pose proof (maxAsymmetry_bound pts total i Hi). lra. }
  rewrite El. reflexivity.
Qed.

Lemma detectRouteDirection_symmetric_witness :
  detectRouteDirection [mkScreenPoint (Fin 0) (Fin (1 # 2));
                        mkScreenPoint (Fin 1) (Fin 0)]
    (route [(0, 100); (500, 150); (1000, 100)]) (Fin 1000) = Ok Forward.
Proof.
  apply (detectRouteDirection_symmetric _ [(0, 100); (500, 150); (1000, 100)]
           1000).
  - cbn. lia.
  - vm_compute. reflexivity.
Defined.

(** ** The stable sort selects the leftmost maximum first *)

Section SortSelect.

Variable A : Type.
Variable key : A -> Q.
Variable cmp : A -> A -> num.
Hypothesis cmp_key :
  forall a b, jgt (cmp a b) (Fin 0) = Qlt_bool (key a) (key b).

Lemma extractMax_none (l : list A) : extractMax key l = None -> l = [].
Proof.
  destruct l as [|a l]; [reflexivity|]. cbn [extractMax].
  destruct (extractMax key l) as [[m rest]|]; [|discriminate].
  destruct (Qlt_bool (key a) (key m)); discriminate.
Qed.

Lemma sort_extractMax (l : list A) (m : A) (rest : list A) :
  extractMax key l = Some (m, rest) -> sort cmp l = m :: sort cmp rest.
Proof.
  revert m rest. induction l as [|a l IH]; intros m rest H; [discriminate|].
  cbn [extractMax] in H. cbn [sort fold_right]. fold (sort cmp l).
  destruct (extractMax key l) as [[m' rest']|] eqn:E.
  - rewrite (IH m' rest' eq_refl). cbn [sort_insert]. rewrite cmp_key.
    destruct (Qlt_bool (key a) (key m')); inversion H; subst.
    + reflexivity.
    + rewrite <- (IH m' rest' eq_refl). reflexivity.
  - apply extractMax_none in E. subst l. inversion H; subst. reflexivity.
Qed.

Lemma firstn_sort (k : nat) (l : list A) :
  firstn k (sort cmp l) = mostAsymmetric key k l.
Proof.
  revert l. induction k as [|k IH]; intro l; [reflexivity|].
  cbn [mostAsymmetric].
  destruct (extractMax key l) as [[m rest]|] eqn:E.
  - rewrite (sort_extractMax l m rest E). cbn [firstn]. rewrite IH. reflexivity.
  - apply extractMax_none in E. subst l. reflexivity.
Qed.

End SortSelect.

Lemma sort_map {A B : Type} (f : A -> B) (cmp : B -> B -> num) (l : list A) :
  sort cmp (map f l) = map f (sort (fun a b => cmp (f a) (f b)) l).
Proof.
  induction l as [|a l IH]; [reflexivity|].
  cbn [map sort fold_right].
  fold (sort cmp (map f l)). fold (sort (fun a b => cmp (f a) (f b)) l).
  rewrite IH. generalize (sort (fun a b => cmp (f a) (f b)) l). intro s.
  induction s as [|b s IHs]; [reflexivity|].
  cbn [map sort_insert]. destruct (jgt (cmp (f a) (f b)) (Fin 0)).
  - cbn [map]. rewrite IHs. reflexivity.
  - reflexivity.
Qed.

Lemma sampleXs_finite (pts : list (Q * Q)) (total : Q) :
  map Cand.x
    (firstn 5
       (sort byDiffDescending (map (candidateQ pts total) candidateIndices)))
  = map Fin (samplePositions pts total).
Proof.
  rewrite sort_map, firstn_map.
  rewrite (firstn_sort nat (asymmetry pts total)).
  - unfold samplePositions. rewrite !map_map. reflexivity.
  - intros a b. apply byDiffDescending_gt; reflexivity.
Qed.

(** ** The screen curve sampler on finite curves *)




(** ** Normalization and squared error on finite sequences *)

Lemma jmin_Qmin (a b : Q) : jmin (Fin a) (Fin b) = Fin (Qmin a b).
Proof.
  rewrite jmin_fin. f_equal. unfold Qmin, GenericMinMax.gmin.
  destruct (Qle_bool a b) eqn:E.
  - apply Qle_bool_iff in E. destruct (a ?= b) eqn:C; try reflexivity.
    apply Qgt_alt in C. lra.
  - apply Qle_bool_false in E. destruct (a ?= b) eqn:C; try reflexivity.
    + apply Qeq_alt in C. lra.
    + apply Qlt_alt in C. lra.
Qed.

Lemma jmax_Qmax (a b : Q) : jmax (Fin a) (Fin b) = Fin (Qmax a b).
Proof.
  rewrite jmax_fin. f_equal. unfold Qmax, GenericMinMax.gmax.
  destruct (Qle_bool b a) eqn:E.
  - apply Qle_bool_iff in E. destruct (a ?= b) eqn:C; try reflexivity.
    apply Qlt_alt in C. lra.
  - apply Qle_bool_false in E. destruct (a ?= b) eqn:C; try reflexivity.
    + apply Qeq_alt in C. lra.
    + apply Qgt_alt in C. lra.
Qed.

Lemma fold_jmin_fin (l : list Q) (a : Q) :
  fold_left jmin (map Fin l) (Fin a) = Fin (fold_left Qmin l a).
Proof.
  revert a. induction l as [|b l IH]; intro a; [reflexivity|].
  cbn [map fold_left]. rewrite jmin_Qmin. apply IH.
Qed.

Lemma fold_jmax_fin (l : list Q) (a : Q) :
  fold_left jmax (map Fin l) (Fin a) = Fin (fold_left Qmax l a).
Proof.
  revert a. induction l as [|b l IH]; intro a; [reflexivity|].
  cbn [map fold_left]. rewrite jmax_Qmax. apply IH.
Qed.

Lemma normalizeArray_finite (l : list Q) :
  normalizeArray (map Fin l) = map Fin (minmax_normalize l).
Proof.
  destruct l as [|a l]; [reflexivity|].
  unfold normalizeArray, minmax_normalize, jmin_list, jmax_list.
  cbn [map fold_left].
  change (jmin PInf (Fin a)) with (Fin a).
  change (jmax NInf (Fin a)) with (Fin a).
  rewrite fold_jmin_fin, fold_jmax_fin.
  set (lo := fold_left Qmin l a). set (hi := fold_left Qmax l a).
  change (Fin hi - Fin lo)%js with (Fin (hi - lo)).
  unfold jor. cbn [truthy].
  assert (Hr : (if negb (Qeq_bool (hi - lo) 0) then Fin (hi - lo) else Fin 1)
               = Fin (if Qeq_bool (hi - lo) 0 then 1 else hi - lo))
    by (destruct (Qeq_bool (hi - lo) 0); reflexivity).
  rewrite Hr.
  set (range := if Qeq_bool (hi - lo) 0 then 1 else hi - lo).
  assert (Hne : ~ range == 0).
  { unfold range. destruct (Qeq_bool (hi - lo) 0) eqn:E.
    - discriminate.
    - apply Qeq_bool_false. exact E. }
  change (Fin a - Fin lo)%js with (Fin (a - lo)).
  rewrite jdiv_fin by exact Hne.
  cbn [map]. rewrite !map_map. f_equal.
  apply map_ext. intro v.
  change (Fin v - Fin lo)%js with (Fin (v - lo)).
  apply jdiv_fin. exact Hne.
Qed.

Lemma sumSquaredError_from_finite (l1 l2 : list Q) (s : Q) :
  length l1 = length l2 ->
  sumSquaredError_from (Fin s) (map Fin l1) (map Fin l2)
  = Fin (fold_left (fun s p => s + (fst p - snd p) * (fst p - snd p))
           (combine l1 l2) s).
Proof.
  revert l2 s. induction l1 as [|a l1 IH]; intros l2 s Hlen.
  - reflexivity.
  - destruct l2 as [|b l2]; [discriminate|].
    cbn [map sumSquaredError_from hd tl combine fold_left fst snd].
    apply IH. cbn in Hlen. lia.
Qed.

Lemma sumSquaredError_finite (l1 l2 : list Q) :
  length l1 = length l2 ->
  sumSquaredError (map Fin l1) (map Fin l2) = Fin (sum_sq_diff l1 l2).
Proof. apply sumSquaredError_from_finite. Qed.

Lemma minmax_normalize_length (l : list Q) :
  length (minmax_normalize l) = length l.
Proof.
  destruct l as [|a l]; [reflexivity|].
  unfold minmax_normalize. apply length_map.
Qed.

(** ** What the selection and the normalization give *)




Lemma fold_Qmin_le (l : list Q) (a : Q) :
  fold_left Qmin l a <= a /\ (forall v, In v l -> fold_left Qmin l a <= v).
Proof.
  revert a. induction l as [|b l IH]; intro a.
  - split; [apply Qle_refl|intros v []].
  - cbn [fold_left]. destruct (IH (Qmin a b)) as [H1 H2]. split.
    + eapply Qle_trans; [exact H1|apply Q.le_min_l].
    + intros v [<-|Hv]; [|apply H2; exact Hv].
      eapply Qle_trans; [exact H1|apply Q.le_min_r].
Qed.

Lemma fold_Qmax_ge (l : list Q) (a : Q) :
  a <= fold_left Qmax l a /\ (forall v, In v l -> v <= fold_left Qmax l a).
Proof.
  revert a. induction l as [|b l IH]; intro a.
  - split; [apply Qle_refl|intros v []].
  - cbn [fold_left]. destruct (IH (Qmax a b)) as [H1 H2]. split.
    + eapply Qle_trans; [apply Q.le_max_l|exact H1].
    + intros v [<-|Hv]; [|apply H2; exact Hv].
      eapply Qle_trans; [apply Q.le_max_r|exact H1].
Qed.

(** The normalized values lie in [[0, 1]]. *)
Lemma minmax_normalize_range (l : list Q) (v : Q) :
  In v (minmax_normalize l) -> 0 <= v /\ v <= 1.
Proof.
  destruct l as [|a l]; [intros []|].
  unfold minmax_normalize.
  set (lo := fold_left Qmin l a). set (hi := fold_left Qmax l a).
  intro H. apply in_map_iff in H as [u [<- Hu]].
  assert (Hlo : lo <= u).
  { destruct (fold_Qmin_le l a) as [H1 H2]. destruct Hu as [<-|Hu].
    - exact H1.
    - apply H2. exact Hu. }
  assert (Hhi : u <= hi).
  { destruct (fold_Qmax_ge l a) as [H1 H2]. destruct Hu as [<-|Hu].
    - exact H1.
    - apply H2. exact Hu. }
  destruct (Qeq_bool (hi - lo) 0) eqn:E.
  - apply Qeq_bool_iff in E.
    assert (Ez : (u - lo) / 1 == u - lo) by (field).
    rewrite Ez. split; lra.
  - apply Qeq_bool_false in E.
    assert (Hpos : 0 < hi - lo) by lra.
    split.
    + apply Qle_shift_div_l; [exact Hpos|lra].
    + apply Qle_shift_div_r; [exact Hpos|lra].
Qed.

(** ** C2: the decision on an asymmetric route *)

Lemma mapM_map_fin (f : num -> res num) (g : Q -> Q) (l : list Q) :
  (forall a, f (Fin a) = Ok (Fin (g a))) ->
  mapM f (map Fin l) = Ok (map Fin (map g l)).
Proof.
  intro H. induction l as [|a l IH]; [reflexivity|].
  cbn [map mapM]. rewrite H, IH. reflexivity.
Qed.




(** The verdict on the example of the specification: an ascending route and
    a screen curve that descends is Reverse. *)
Example detectRouteDirection_mirrored_curve :
  detectRouteDirection (screen [(0, 0); (1, 1 # 2)])
    (route [(0, 0); (10000, 500)]) (Fin 10000) = Ok Reverse.
Proof. vm_compute. reflexivity. Qed.

(** ** The windowed gradient and the direction on finite input *)

Lemma computeGradientAtDistance_gradientQ (pts : list (Q * Q)) (d T w : Q) :
  computeGradientAtDistance (route pts) (Fin d) (Fin T) (Fin w)
  = Ok (Fin (gradientQ pts d T w)).
Proof.
  unfold gradientQ.
  assert (H1 : exists d1, jmax (Fin 0) (Fin d - Fin w)%js = Fin d1)
    by (eexists; apply jmax_fin).
  assert (H2 : exists d2, jmin (Fin T) (Fin d + Fin w)%js = Fin d2)
    by (eexists; apply jmin_fin).
  destruct H1 as [d1 H1], H2 as [d2 H2].
  destruct (Qlt_le_dec d1 d2) as [Hlt|Hle].
  - rewrite (computeGradientAtDistance_window pts d T w d1 d2 H1 H2 Hlt).
    reflexivity.
  - rewrite (computeGradientAtDistance_empty_window pts d T w d1 d2 H1 H2 Hle).
    reflexivity.
Qed.

Lemma detectRouteDirection_finite (svgPoints : list ScreenPoint)
  (pts : list (Q * Q)) (total : Q) :
  exists direction,
    detectRouteDirection svgPoints (route pts) (Fin total) = Ok direction.
Proof.
  unfold detectRouteDirection.
  rewrite findAsymmetricPositions_finite. cbn [bind].
  rewrite sampleXs_finite.
  destruct (top_candidate pts total) as [i [top [rest [E [Hi [Ht Htop]]]]]].
  assert (Hget : get (sort byDiffDescending
                        (map (candidateQ pts total) candidateIndices)) 0
                 = Ok top)
    by (rewrite E; reflexivity).
  rewrite Hget. cbn [bind].
  destruct (jlt (Cand.diff top) (Fin 1)); [eexists; reflexivity|].
  rewrite (mapM_map_fin _ (fun x => elevationQ pts (x * total)))
    by (intro a; apply interpolateElevation_elevationQ).
  cbn [bind].
  rewrite (mapM_map_fin _ (fun x => elevationQ pts ((1 - x) * total)))
    by (intro a; apply interpolateElevation_elevationQ).
  cbn [bind]. eexists. reflexivity.
Qed.

(** ** The segment loop *)

Lemma computeGradientAtDistance_total (routePoints : list RoutePoint)
  (dist totalDistance windowSize : num) :
  exists g,
    computeGradientAtDistance routePoints dist totalDistance windowSize = Ok g.
Proof.
  unfold computeGradientAtDistance.
  destruct (interpolateElevation_total routePoints
              (jmax (Fin 0) (dist - windowSize)%js)) as [e1 ->].
  destruct (interpolateElevation_total routePoints
              (jmin totalDistance (dist + windowSize)%js)) as [e2 ->].
  cbn [bind]. destruct (jle _ (Fin 0)); eexists; reflexivity.
Qed.

Lemma walkStart_ok (elevationPoints : list ScreenPoint) (targetStartX : num)
  (i : nat) :
  (i < length elevationPoints)%nat ->
  exists s, walkStart elevationPoints targetStartX i = Ok s /\ (s <= i)%nat.
Proof.
  induction i as [|i IH]; intro Hi.
  - exists 0%nat. split; [reflexivity|lia].
  - cbn [walkStart].
    destruct (get_lt elevationPoints (S i) Hi) as [p [_ ->]]. cbn [bind].
    destruct (jgt (x p) targetStartX).
    + destruct (IH ltac:(lia)) as [s [Hs Hle]].
      exists s. split; [exact Hs|lia].
    + exists (S i). split; [reflexivity|lia].
Qed.

Lemma walkEnd_ok (elevationPoints : list ScreenPoint) (targetEndX : num)
  (fuel e : nat) :
  (e < length elevationPoints)%nat ->
  (length elevationPoints - 1 - e <= fuel)%nat ->
  exists e', walkEnd fuel elevationPoints targetEndX e = Ok e'
             /\ (e <= e')%nat /\ (e' < length elevationPoints)%nat.
Proof.
  revert e. induction fuel as [|fuel IH]; intros e He Hfuel.
  - cbn [walkEnd].
    destruct (e <? length elevationPoints - 1)%nat eqn:E.
    + apply Nat.ltb_lt in E. lia.
    + exists e. repeat split; [lia|exact He].
  - cbn [walkEnd].
    destruct (e <? length elevationPoints - 1)%nat eqn:E.
    + apply Nat.ltb_lt in E.
      destruct (get_lt elevationPoints e He) as [p [_ ->]]. cbn [bind].
      destruct (jlt (x p) targetEndX).
      * destruct (IH (S e)) as [e' [He' [H1 H2]]]; try lia.
        exists e'. repeat split; [exact He'|lia|exact H2].
      * exists e. repeat split; [lia|exact He].
    + exists e. repeat split; [lia|exact He].
Qed.

(** The computation of the gradient of a pair returns on every input, in
    both paths: no index leaves the array and every loop ends. *)
Lemma segmentGradient_total (useRouteData isReversed : bool)
  (routePoints : list RoutePoint) (totalDistance elevRange ySpan : num)
  (elevationPoints : list ScreenPoint) (i : nat) (p1 p2 : ScreenPoint) :
  (i + 1 < length elevationPoints)%nat ->
  exists g,
    segmentGradient useRouteData isReversed routePoints totalDistance
      elevRange ySpan elevationPoints i p1 p2 = Ok g.
Proof.
  intro Hi. unfold segmentGradient. destruct useRouteData.
  - destruct (computeGradientAtDistance_total routePoints
                (if isReversed
                 then ((Fin 1 - (x p1 + x p2) / Fin 2) * totalDistance)%js
                 else ((x p1 + x p2) / Fin 2 * totalDistance)%js)
                totalDistance defaultWindowSize) as [g ->].
    cbn [bind]. eexists. reflexivity.
  - match goal with
    | |- context [walkStart elevationPoints ?t i] =>
        destruct (walkStart_ok elevationPoints t i ltac:(lia))
          as [s [-> Hs]]
    end.
    cbn [bind].
    match goal with
    | |- context [walkEnd ?f elevationPoints ?t (i + 1)] =>
        destruct (walkEnd_ok elevationPoints t f (i + 1) Hi ltac:(lia))
          as [e [-> [He1 He2]]]
    end.
    cbn [bind].
    destruct (get_lt elevationPoints s ltac:(lia)) as [ps [_ ->]].
    destruct (get_lt elevationPoints e He2) as [pe [_ ->]].
    cbn [bind]. destruct (jle _ (Fin 0)); eexists; reflexivity.
Qed.

Lemma segmentLoop_length (body : nat -> res (option Polygon))
  (indices : list nat) (l : list Polygon) :
  segmentLoop body indices = Ok l -> (length l <= length indices)%nat.
Proof.
  revert l. induction indices as [|i indices IH]; intros l H.
  - inversion H. cbn. lia.
  - cbn [segmentLoop] in H.
    destruct (body i) as [o| |]; try discriminate H. cbn [bind] in H.
    destruct (segmentLoop body indices) as [rest| |]; try discriminate H.
    cbn [bind] in H. specialize (IH rest eq_refl).
    destruct o; inversion H; subst; cbn [length] in *; lia.
Qed.

Lemma segmentLoop_map (body : nat -> res (option Polygon))
  (f : nat -> Polygon) (indices : list nat) :
  (forall i, In i indices -> body i = Ok (Some (f i))) ->
  segmentLoop body indices = Ok (map f indices).
Proof.
  induction indices as [|i indices IH]; intro H; [reflexivity|].
  cbn [segmentLoop map]. rewrite (H i (or_introl eq_refl)). cbn [bind].
  rewrite IH by (intros j Hj; apply H; right; exact Hj).
  reflexivity.
Qed.

Lemma filter_screen (svg : list (Q * Q)) :
  filter (fun p => jlt (y p) (Fin 1)) (screen svg)
  = screen (elevationPointsQ svg).
Proof.
  induction svg as [|a svg IH]; [reflexivity|].
  cbn [screen map filter elevationPointsQ screenPoint y jlt].
  destruct (Qlt_bool (snd a) 1); cbn [map]; [f_equal|]; exact IH.
Qed.

Lemma nth_error_screen (svg : list (Q * Q)) (i : nat) (a : Q * Q) :
  nth_error svg i = Some a -> get (screen svg) i = Ok (screenPoint a).
Proof.
  intro H. apply get_some. unfold screen. rewrite nth_error_map, H.
  reflexivity.
Qed.

(** ** C7: the full-resolution path *)

(** One iteration of the loop on finite input, in the full-resolution
    path. *)
Lemma segmentAt_route (settings : Settings.t) (isReversed : bool)
  (pts : list (Q * Q)) (T : Q) (elevRange ySpan : num)
  (elevationPoints : list (Q * Q)) (i : nat) (a b : Q * Q) :
  (exists bw, Settings.distance settings = Fin bw /\ 0 < bw) ->
  wf_stops (Settings.colorStops settings) = true ->
  nth_error elevationPoints i = Some a ->
  nth_error elevationPoints (i + 1) = Some b ->
  let g := routeGradientQ pts T (if isReversed then Reverse else Forward) a b in
  segmentAt settings true isReversed (route pts) (Fin T) elevRange ySpan
    (screen elevationPoints) i
  = Ok (Some {| p1 := screenPoint a; p2 := screenPoint b;
                gradient := Fin g; fill := colorOf settings (Fin g) |}).
Proof.
  intros [bw [Hd Hbw]] Hwf Ha Hb g.
  unfold segmentAt.
  rewrite (nth_error_screen _ _ _ Ha), (nth_error_screen _ _ _ Hb).
  cbn [bind]. unfold segmentGradient.
  cbn [screenPoint x].
  change (Fin (fst a) + Fin (fst b))%js with (Fin (fst a + fst b)).
  rewrite jdiv_fin by discriminate.
  set (centerX := (fst a + fst b) / 2).
  assert (Hcol : forall q, gradientToColor settings (Fin q)
                           = Ok (colorOf settings (Fin q))).
  { intro q. unfold colorOf.
    destruct settings as [stops d]. cbn in Hd, Hwf. subst d.
    destruct (gradientToColor_finite stops q bw Hwf Hbw)
      as [_ [_ [_ [c [_ [_ [_ [_ [_ [_ [Hc _]]]]]]]]]]].
    rewrite Hc. reflexivity. }
  unfold g, routeGradientQ. fold centerX.
  destruct isReversed.
  - change ((Fin 1 - Fin centerX) * Fin T)%js with (Fin ((1 - centerX) * T)).
    unfold defaultWindowSize.
    rewrite computeGradientAtDistance_gradientQ. cbn [bind jneg].
    rewrite Hcol. reflexivity.
  - change (Fin centerX * Fin T)%js with (Fin (centerX * T)).
    unfold defaultWindowSize.
    rewrite computeGradientAtDistance_gradientQ. cbn [bind].
    rewrite Hcol. reflexivity.
Qed.

(** The polygons of the full-resolution path on finite input. *)
Lemma buildPolygons_route (stops : list string) (bw : Q) (pts : list (Q * Q))
  (T : Q) (minE maxE : num) (svg : list (Q * Q)) :
  let settings :=
    {| Settings.colorStops := stops; Settings.distance := Fin bw |} in
  let routeData :=
    {| RouteData.totalDistance := Fin T; RouteData.minElev := minE;
       RouteData.maxElev := maxE; RouteData.routePoints := Some (route pts) |} in
  let elevationPoints := elevationPointsQ svg in
  wf_stops stops = true -> 0 < bw -> (2 <= length pts)%nat ->
  exists direction,
    detectRouteDirection (screen elevationPoints) (route pts) (Fin T)
    = Ok direction
    /\ buildPolygons settings routeData (screen svg)
       = Ok (map (fun i =>
                    let a := nth i elevationPoints (0, 0) in
                    let b := nth (i + 1) elevationPoints (0, 0) in
                    let g := routeGradientQ pts T direction a b in
                    {| p1 := screenPoint a; p2 := screenPoint b;
                       gradient := Fin g;
                       fill := colorOf settings (Fin g) |})
               (seq 0 (length elevationPoints - 1))).
Proof.
  intros settings routeData elevationPoints Hwf Hbw Hlen.
  destruct (detectRouteDirection_finite (screen elevationPoints) pts T)
    as [direction Hdir].
  exists direction. split; [exact Hdir|].
  unfold buildPolygons.
  cbn [RouteData.totalDistance RouteData.routePoints routeData].
  rewrite filter_screen. fold elevationPoints.
  assert (Hl : (1 <? length (route pts))%nat = true).
  { apply Nat.ltb_lt. unfold route. rewrite length_map. lia. }
  rewrite Hl, Hdir. cbn [bind].
  assert (Hls : length (screen elevationPoints) = length elevationPoints)
    by apply length_map.
  rewrite Hls.
  apply segmentLoop_map. intros i Hi. apply in_seq in Hi.
  assert (Ha : nth_error elevationPoints i
               = Some (nth i elevationPoints (0, 0)))
    by (apply nth_error_nth'; lia).
  assert (Hb : nth_error elevationPoints (i + 1)
               = Some (nth (i + 1) elevationPoints (0, 0)))
    by (apply nth_error_nth'; lia).
  rewrite (segmentAt_route settings _ pts T _ _ elevationPoints i _ _
             ltac:(exists bw; split; [reflexivity|exact Hbw]) Hwf Ha Hb).
  destruct direction; reflexivity.
Qed.

(** C7.  In the full-resolution path, for every adjacent pair [(a, b)] of
    filtered screen points with [centerX = (a.x + b.x) / 2], the polygon
    of the pair carries the gradient of the Windowed Gradient Estimator at
    distance [centerX * totalDistance] when the direction is Forward, and
    the negation of its value at [(1 - centerX) * totalDistance] when the
    direction is Reverse. *)
Theorem buildPolygons_route_gradients (stops : list string) (bw : Q)
  (pts : list (Q * Q)) (T : Q) (minE maxE : num) (svg : list (Q * Q)) :
  let settings :=
    {| Settings.colorStops := stops; Settings.distance := Fin bw |} in
  let routeData :=
    {| RouteData.totalDistance := Fin T; RouteData.minElev := minE;
       RouteData.maxElev := maxE; RouteData.routePoints := Some (route pts) |} in
  let elevationPoints := elevationPointsQ svg in
  wf_stops stops = true -> 0 < bw -> (2 <= length pts)%nat ->
  exists direction polygons,
    detectRouteDirection (screen elevationPoints) (route pts) (Fin T)
    = Ok direction
    /\ buildPolygons settings routeData (screen svg) = Ok polygons
    /\ forall i a b,
         nth_error elevationPoints i = Some a ->
         nth_error elevationPoints (S i) = Some b ->
         let centerX := (fst a + fst b) / 2 in
         exists polygon,
           nth_error polygons i = Some polygon
           /\ p1 polygon = screenPoint a /\ p2 polygon = screenPoint b
           /\ gradient polygon
              = match direction with
                | Forward =>
                    Fin (valueOf (computeGradientAtDistance (route pts)
                                    (Fin (centerX * T)) (Fin T)
                                    defaultWindowSize))
                | Reverse =>
                    Fin (- valueOf (computeGradientAtDistance (route pts)
                                      (Fin ((1 - centerX) * T)) (Fin T)
                                      defaultWindowSize))
                end.
Proof.
  intros settings routeData elevationPoints Hwf Hbw Hlen.
  destruct (buildPolygons_route stops bw pts T minE maxE svg Hwf Hbw Hlen)
    as [direction [Hdir Hbuild]].
  fold settings routeData elevationPoints in Hdir, Hbuild.
  eexists direction, _. split; [exact Hdir|]. split; [exact Hbuild|].
  intros i a b Ha Hb centerX.
  assert (Hi : (S i < length elevationPoints)%nat)
    by (apply nth_error_Some; congruence).
  eexists. split.
  - rewrite nth_error_map, nth_error_seq.
    assert (E : (i <? length elevationPoints - 1)%nat = true)
      by (apply Nat.ltb_lt; lia).
    rewrite E. cbn [option_map Nat.add]. reflexivity.
  - cbn [p1 p2 gradient].
    rewrite (nth_error_nth _ _ (0, 0) Ha).
    replace (i + 1)%nat with (S i) by lia.
    rewrite (nth_error_nth _ _ (0, 0) Hb).
    split; [reflexivity|]. split; [reflexivity|].
    unfold routeGradientQ, gradientQ. fold centerX.
    destruct direction; reflexivity.
Qed.

Lemma buildPolygons_route_gradients_witness :
  exists direction polygons,
    detectRouteDirection
      (screen (elevationPointsQ
                 [(0, 1 # 2); (1 # 2, 0); (1, 1 # 2); (1, 1)]))
      (route [(0, 100); (500, 150); (1000, 100)]) (Fin 1000)
    = Ok direction
    /\ buildPolygons DEFAULT_SETTINGS
         {| RouteData.totalDistance := Fin 1000;
            RouteData.minElev := Fin 100;
            RouteData.maxElev := Fin 150;
            RouteData.routePoints :=
              Some (route [(0, 100); (500, 150); (1000, 100)]) |}
         (screen [(0, 1 # 2); (1 # 2, 0); (1, 1 # 2); (1, 1)])
       = Ok polygons
    /\ length polygons = 2%nat.
Proof.
  destruct (buildPolygons_route_gradients
              (Settings.colorStops DEFAULT_SETTINGS) 7
              [(0, 100); (500, 150); (1000, 100)] 1000 (Fin 100) (Fin 150)
              [(0, 1 # 2); (1 # 2, 0); (1, 1 # 2); (1, 1)])
    as [direction [polygons [H1 [H2 _]]]].
  - reflexivity.
  - reflexivity.
  - cbn. lia.
  - exists direction, polygons. split; [exact H1|]. split; [exact H2|].
    vm_compute in H2. inversion H2. reflexivity.
Defined.

(** ** C8: what the segment loop emits, and where it throws *)

(** At most one polygon per adjacent pair: no more than [k - 1] for [k]
    filtered points. *)
Lemma buildPolygons_count (settings : Settings.t) (routeData : RouteData.t)
  (points : list ScreenPoint) (created : list Polygon) :
  buildPolygons settings routeData points = Ok created ->
  (length created
   <= length (filter (fun p => jlt (y p) (Fin 1)) points) - 1)%nat.
Proof.
  unfold buildPolygons. intro H.
  match type of H with
  | bind ?d _ = _ => destruct d as [isReversed| |]; try discriminate H
  end.
  cbn [bind] in H. apply segmentLoop_length in H.
  rewrite length_seq in H. exact H.
Qed.

(** In the fallback path a pair whose widened span [dX] is not positive is
    skipped. *)
Lemma segmentGradient_fallback_skip (isReversed : bool)
  (routePoints : list RoutePoint) (totalDistance elevRange ySpan : num)
  (elevationPoints : list ScreenPoint) (i : nat) (p1 p2 : ScreenPoint)
  (g : num) :
  segmentGradient false isReversed routePoints totalDistance elevRange ySpan
    elevationPoints i p1 p2 = Ok (Some g) ->
  exists startIdx endIdx pStart pEnd,
    nth_error elevationPoints startIdx = Some pStart
    /\ nth_error elevationPoints endIdx = Some pEnd
    /\ (startIdx <= i)%nat /\ (i + 1 <= endIdx)%nat
    /\ jle (x pEnd - x pStart)%js (Fin 0) = false
    /\ g = (((y pStart - y pEnd) * elevRange)
            / (ySpan * (x pEnd - x pStart) * totalDistance) * Fin 100)%js.
Proof.
  unfold segmentGradient. intro H.
  match type of H with
  | bind (walkStart ?pts ?t ?i) _ = _ =>
      destruct (walkStart pts t i) as [s| |] eqn:Es; try discriminate H
  end.
  cbn [bind] in H.
  match type of H with
  | bind (walkEnd ?f ?pts ?t ?e) _ = _ =>
      destruct (walkEnd f pts t e) as [e'| |] eqn:Ee; try discriminate H
  end.
  cbn [bind] in H. unfold get in H.
  destruct (nth_error elevationPoints s) as [ps|] eqn:E1;
    try discriminate H.
  cbn [bind] in H.
  destruct (nth_error elevationPoints e') as [pe|] eqn:E2;
    try discriminate H.
  cbn [bind] in H.
  destruct (jle (x pe - x ps)%js (Fin 0)) eqn:Ed; try discriminate H.
  inversion H as [Hg].
  assert (Hi : (i < length elevationPoints)%nat).
  { destruct i as [|i]; [|cbn [walkStart] in Es].
    - destruct elevationPoints; [destruct s; discriminate E1|cbn; lia].
    - unfold get in Es.
      destruct (nth_error elevationPoints (S i)) eqn:En;
        [|discriminate Es].
      apply nth_error_Some. congruence. }
  destruct (walkStart_ok elevationPoints
              ((x p1 + x p2) / Fin 2
               - Fin (1 # 1000) * elevRange * Fin 100
                 / (ySpan * Fin 1 * totalDistance) / Fin 2)%js i Hi)
    as [s' [Es' Hs']].
  rewrite Es in Es'. inversion Es'; subst s'.
  assert (He : (i + 1 <= e')%nat).
  { clear - Ee. revert Ee.
    generalize (length elevationPoints) at 1. intro fuel.
    generalize (i + 1)%nat. intros e0. revert e0.
    induction fuel as [|fuel IH]; intros e0 Ee; cbn [walkEnd] in Ee.
    - destruct (e0 <? length elevationPoints - 1)%nat;
        inversion Ee; lia.
    - destruct (e0 <? length elevationPoints - 1)%nat;
        [|inversion Ee; lia].
      destruct (get elevationPoints e0) as [p| |]; try discriminate Ee.
      cbn [bind] in Ee.
      destruct (jlt (x p) _); [|inversion Ee; lia].
      apply IH in Ee. lia. }
  exists s, e', ps, pe. repeat split; assumption.
Qed.

(** C8 fails on a route of one point and length 0 shown as a flat
    polyline: the fallback path computes [0 / 0], the gradient is [NaN],
    no color stop is found for it, and [lerpColor] throws a TypeError. *)
Theorem processElevationSVG_throws_on_zero_length_route :
  buildPolygons DEFAULT_SETTINGS singlePointRoute
    (parsePolylinePoints flatPolyline) = TypeError
  /\ processElevationSVG singlePointPage = TypeError
  /\ segmentGradient false false [mkRoutePoint (Fin 0) (Fin 5)]
       (Fin 0) (Fin 1) (Fin 1) (parsePolylinePoints flatPolyline) 0
       (mkScreenPoint (Fin 0) (Fin (1 # 2)))
       (mkScreenPoint (Fin 1) (Fin (1 # 2)))
     = Ok (Some NaN)
  /\ gradientToColor DEFAULT_SETTINGS NaN = TypeError.
Proof.
  repeat split; vm_compute; reflexivity.
Qed.

(** The same happens on a route without points ([minElev = Infinity],
    [maxElev = -Infinity]) of positive length. *)
Example buildPolygons_throws_on_empty_route :
  buildPolygons DEFAULT_SETTINGS emptyRoute (parsePolylinePoints flatPolyline)
  = TypeError.
Proof. vm_compute. reflexivity. Qed.

(** ** C9: reprocessing is idempotent *)

Lemma processElevationSVG_run (page : Page) (rd : RouteData.t) (s : Svg)
  (active : list (num * num)) :
  routeData page = Some rd -> svg page = Some s ->
  gradientColored s = false -> activePolyline s = Some active ->
  (2 <= length (parsePolylinePoints active))%nat ->
  processElevationSVG page
  = created <- buildPolygons (settings page) rd (parsePolylinePoints active) ;;
    Ok {| routeData := Some rd;
          svg := Some {| gradientColored := true;
                         strokePolylines := strokePolylines s;
                         polygons := created |};
          settings := settings page |}.
Proof.
  intros Hrd Hsvg Hflag Hact Hlen.
  unfold processElevationSVG. rewrite Hrd, Hsvg, Hflag.
  unfold activePolyline in Hact.
  destruct (strokePolylines s) as [|first rest] eqn:E; [discriminate|].
  assert (Ha : last (first :: rest) first = active) by congruence.
  cbv zeta. rewrite Ha.
  assert (El : (length (parsePolylinePoints active) <? 2)%nat = false)
    by (apply Nat.ltb_ge; exact Hlen).
  rewrite El. reflexivity.
Qed.

(** C9.  Two invocations on pages with the same route data, the same
    settings and the same active polyline leave the same polygons (or throw
    alike), whatever polygons and older polylines the pages held before; a
    further invocation on the processed page changes nothing, and so does
    the reprocessing the polyline observer triggers (clear the flag, remove
    the polygons, process again). *)
Theorem processElevationSVG_idempotent (page1 page2 : Page)
  (rd : RouteData.t) (svg1 svg2 : Svg) (active : list (num * num)) :
  routeData page1 = Some rd -> routeData page2 = Some rd ->
  settings page1 = settings page2 ->
  svg page1 = Some svg1 -> svg page2 = Some svg2 ->
  gradientColored svg1 = false -> gradientColored svg2 = false ->
  activePolyline svg1 = Some active -> activePolyline svg2 = Some active ->
  (2 <= length (parsePolylinePoints active))%nat ->
  emitted (processElevationSVG page1) = emitted (processElevationSVG page2)
  /\ forall page1',
       processElevationSVG page1 = Ok page1' ->
       processElevationSVG page1' = Ok page1'
       /\ processElevationSVG (invalidate page1') = Ok page1'.
Proof.
  intros Hrd1 Hrd2 Hset Hsvg1 Hsvg2 Hf1 Hf2 Ha1 Ha2 Hlen.
  rewrite (processElevationSVG_run page1 rd svg1 active Hrd1 Hsvg1 Hf1 Ha1 Hlen).
  rewrite (processElevationSVG_run page2 rd svg2 active Hrd2 Hsvg2 Hf2 Ha2 Hlen).
  rewrite <- Hset.
  destruct (buildPolygons (settings page1) rd (parsePolylinePoints active))
    as [created| |] eqn:Eb; cbn [bind emitted svg polygons].
  - split; [reflexivity|].
    intros page1' H. inversion H as [Hp]. clear H. split.
    + reflexivity.
    + rewrite (processElevationSVG_run _ rd
                 {| gradientColored := false;
                    strokePolylines := strokePolylines svg1;
                    polygons := [] |} active).
      * cbn [settings invalidate]. rewrite Eb. reflexivity.
      * reflexivity.
      * reflexivity.
      * reflexivity.
      * exact Ha1.
      * exact Hlen.
  - split; [reflexivity|]. intros page1' H. discriminate H.
  - split; [reflexivity|]. intros page1' H. discriminate H.
Qed.

Lemma processElevationSVG_idempotent_witness :
  emitted (processElevationSVG scenarioPage)
  = emitted (processElevationSVG stalePage).
Proof.
  apply (processElevationSVG_idempotent scenarioPage stalePage scenarioRoute
           scenarioSvg staleSvg scenarioPolyline);
    try reflexivity.
  cbn. lia.
Defined.

(* ================================================================== *)
(** * Further properties of the code *)
(* ================================================================== *)

(** ** The two interpolators as piecewise-linear curves *)

Lemma lerpQ_left (q1 q2 : Q * Q) (d : Q) :
  fst q1 < fst q2 -> d == fst q1 -> lerpQ q1 q2 d == snd q1.
Proof.
  intros Hlt E. unfold lerpQ.
  assert (Hz : d - fst q1 == 0) by lra.
  rewrite Hz. field. lra.
Qed.

Lemma lerpQ_right (q1 q2 : Q * Q) (d : Q) :
  fst q1 < fst q2 -> d == fst q2 -> lerpQ q1 q2 d == snd q2.
Proof.
  intros Hlt E. unfold lerpQ. rewrite E. field. lra.
Qed.

(** Between the two ends of its bracket the interpolated value lies between
    the two sample values. *)
Lemma lerpQ_between (q1 q2 : Q * Q) (d lo hi : Q) :
  fst q1 < fst q2 -> fst q1 <= d -> d <= fst q2 ->
  lo <= snd q1 <= hi -> lo <= snd q2 <= hi ->
  lo <= lerpQ q1 q2 d <= hi.
Proof.
  intros Hlt H1 H2 [Ha1 Ha2] [Hb1 Hb2]. unfold lerpQ.
  set (t := (d - fst q1) / (fst q2 - fst q1)).
  assert (Ht0 : 0 <= t).
  { unfold t. apply Qle_shift_div_l; lra. }
  assert (Ht1 : t <= 1).
  { unfold t. apply Qle_shift_div_r; lra. }
  split; nra.
Qed.

Lemma elevationQ_interpolates (pts : list (Q * Q)) (d : Q) :
  interpolates pts d (elevationQ pts d).
Proof.
  destruct pts as [|first rest]; [reflexivity|].
  pose proof (interpolateElevation_elevationQ (first :: rest) d) as He.
  cbn [interpolates].
  destruct (Qlt_le_dec (fst first) d) as [Hf|Hf].
  - destruct (Qlt_le_dec d (fst (last (first :: rest) first))) as [Hl|Hl].
    + destruct (interpolateElevation_bracket first rest d Hf Hl)
        as [k [q1 [q2 [_ [Hq1 [Hq2 [Hd1 [Hd2 [Hr _]]]]]]]]].
      assert (Eq : elevationQ (first :: rest) d = lerpQ q1 q2 d)
        by congruence.
      right. right. exists k, q1, q2.
      repeat split; try assumption; try lra.
      rewrite Eq. reflexivity.
    + rewrite (interpolateElevation_beyond_last first rest d Hf Hl) in He.
      assert (Eq : elevationQ (first :: rest) d
                   = snd (last (first :: rest) first)) by congruence.
      right. left. split; [exact Hl|]. rewrite Eq. reflexivity.
  - rewrite (interpolateElevation_clamp_first first rest d Hf) in He.
    assert (Eq : elevationQ (first :: rest) d = snd first) by congruence.
    left. split; [exact Hf|]. rewrite Eq. reflexivity.
Qed.



Lemma increasingb_le (pts : list (Q * Q)) :
  increasingb pts = true ->
  forall i j p q, (i <= j)%nat -> nth_error pts i = Some p ->
                  nth_error pts j = Some q -> fst p <= fst q.
Proof.
  intros Hinc i j p q Hij Hp Hq.
  destruct (Nat.eq_dec i j) as [->|Hne].
  - rewrite Hp in Hq. inversion Hq. apply Qle_refl.
  - apply Qlt_le_weak.
    apply (increasingb_nth pts Hinc i j p q ltac:(lia) Hp Hq).
Qed.

Lemma interpolates_compat (pts : list (Q * Q)) (d d' v v' : Q) :
  d == d' -> v == v' -> interpolates pts d v -> interpolates pts d' v'.
Proof.
  intros Ed Ev. destruct pts as [|first rest]; cbn [interpolates].
  - intro H. rewrite <- Ev. exact H.
  - intros [[H1 H2]|[[H1 H2]|[k [q1 [q2 [Hq1 [Hq2 [H1 [H2 [H3 H4]]]]]]]]]].
    + left. split; lra.
    + right. left. split; lra.
    + right. right. exists k, q1, q2. repeat split; try assumption; try lra.
      rewrite <- Ev, H4. unfold lerpQ. rewrite Ed. reflexivity.
Qed.

(** On a strictly increasing series the curve has one value at each
    distance. *)
Lemma interpolates_unique (pts : list (Q * Q)) (d v v' : Q) :
  increasingb pts = true ->
  interpolates pts d v -> interpolates pts d v' -> v == v'.
Proof.
  intro Hinc. destruct pts as [|first rest]; cbn [interpolates].
  - intros H H'. rewrite H, H'. reflexivity.
  - set (pts := first :: rest) in *.
    assert (H0 : nth_error pts 0 = Some first) by reflexivity.
    assert (HL : nth_error pts (length rest) = Some (last pts first))
      by apply nth_error_last.
    assert (Hidx : forall k q, nth_error pts k = Some q ->
                               (k <= length rest)%nat).
    { intros k q Hq. assert (k < length pts)%nat
        by (apply nth_error_Some; congruence).
      cbn [pts length] in *. lia. }
    assert (AB : forall a b, d <= fst first -> a == snd first ->
                  fst (last pts first) <= d -> b == snd (last pts first) ->
                  a == b).
    { intros a b Ha1 Ha2 Hb1 Hb2.
      pose proof (increasingb_le pts Hinc 0 _ _ _ ltac:(lia) H0 HL).
      assert (E : 0%nat = length rest)
        by (apply (increasingb_index pts Hinc 0 _ first (last pts first) H0 HL);
            lra).
      rewrite <- E in HL.
      assert (E' : last pts first = first) by congruence.
      rewrite Ha2, Hb2, E'. reflexivity. }
    assert (AC : forall a b k q1 q2, d <= fst first -> a == snd first ->
                  nth_error pts k = Some q1 -> nth_error pts (S k) = Some q2 ->
                  fst q1 <= d -> fst q1 < fst q2 -> b == lerpQ q1 q2 d ->
                  a == b).
    { intros a b k q1 q2 Ha1 Ha2 Hq1 Hq2 Hd1 Hlt Hb.
      pose proof (increasingb_le pts Hinc 0 k _ _ ltac:(lia) H0 Hq1).
      assert (E : 0%nat = k)
        by (apply (increasingb_index pts Hinc 0 k first q1 H0 Hq1); lra).
      subst k. rewrite H0 in Hq1. inversion Hq1; subst q1.
      rewrite Ha2, Hb. symmetry. apply lerpQ_left; lra. }
    assert (BC : forall a b k q1 q2, fst (last pts first) <= d ->
                  a == snd (last pts first) ->
                  nth_error pts k = Some q1 -> nth_error pts (S k) = Some q2 ->
                  d <= fst q2 -> fst q1 < fst q2 -> b == lerpQ q1 q2 d ->
                  a == b).
    { intros a b k q1 q2 Ha1 Ha2 Hq1 Hq2 Hd2 Hlt Hb.
      pose proof (increasingb_le pts Hinc (S k) (length rest) _ _
                    (Hidx _ _ Hq2) Hq2 HL).
      assert (E : S k = length rest)
        by (apply (increasingb_index pts Hinc _ _ q2 (last pts first) Hq2 HL);
            lra).
      rewrite <- E in HL.
      assert (E' : last pts first = q2) by congruence.
      rewrite Ha2, Hb, E'. symmetry. apply lerpQ_right; lra. }
    assert (CC : forall a b k q1 q2 k' q1' q2', (k < k')%nat ->
                  nth_error pts k = Some q1 -> nth_error pts (S k) = Some q2 ->
                  d <= fst q2 -> fst q1 < fst q2 -> a == lerpQ q1 q2 d ->
                  nth_error pts k' = Some q1' ->
                  nth_error pts (S k') = Some q2' ->
                  fst q1' <= d -> fst q1' < fst q2' -> b == lerpQ q1' q2' d ->
                  a == b).
    { intros a b k q1 q2 k' q1' q2' Hk Hq1 Hq2 Hd2 Hlt Ha Hq1' Hq2' Hd1' Hlt' Hb.
      pose proof (increasingb_le pts Hinc (S k) k' _ _ ltac:(lia) Hq2 Hq1').
      assert (E : S k = k')
        by (apply (increasingb_index pts Hinc _ _ q2 q1' Hq2 Hq1'); lra).
      subst k'. rewrite Hq2 in Hq1'. inversion Hq1'; subst q1'.
      rewrite Ha, Hb.
      rewrite (lerpQ_right q1 q2 d) by lra.
      rewrite (lerpQ_left q2 q2' d) by lra. reflexivity. }
    intros [[H1 H2]|[[H1 H2]|[k [q1 [q2 [Hq1 [Hq2 [H1 [H2 [H3 H4]]]]]]]]]]
           [[H1' H2']|[[H1' H2']
                      |[k' [q1' [q2' [Hq1' [Hq2' [H1' [H2' [H3' H4']]]]]]]]]].
    + rewrite H2, H2'. reflexivity.
    + apply (AB v v'); assumption.
    + apply (AC v v' k' q1' q2'); assumption.
    + symmetry. apply (AB v' v); assumption.
    + rewrite H2, H2'. reflexivity.
    + apply (BC v v' k' q1' q2'); assumption.
    + symmetry. apply (AC v' v k q1 q2); assumption.
    + symmetry. apply (BC v' v k q1 q2); assumption.
    + destruct (Nat.lt_trichotomy k k') as [Hk|[Hk|Hk]].
      * apply (CC v v' k q1 q2 k' q1' q2'); assumption.
      * subst k'. rewrite Hq1 in Hq1'. rewrite Hq2 in Hq2'.
        inversion Hq1'; inversion Hq2'; subst.
        rewrite H4, H4'. reflexivity.
      * symmetry. apply (CC v' v k' q1' q2' k q1 q2); assumption.
Qed.

Lemma interpolates_between (pts : list (Q * Q)) (d v lo hi : Q) :
  pts <> [] ->
  (forall q, In q pts -> lo <= snd q /\ snd q <= hi) ->
  interpolates pts d v -> lo <= v /\ v <= hi.
Proof.
  intros Hne Hall. destruct pts as [|first rest]; [contradiction|].
  cbn [interpolates].
  intros [[H1 H2]|[[H1 H2]|[k [q1 [q2 [Hq1 [Hq2 [H1 [H2 [H3 H4]]]]]]]]]].
  - rewrite H2. apply Hall. left. reflexivity.
  - rewrite H2. apply Hall. apply last_In.
  - rewrite H4. apply lerpQ_between; try assumption.
    + apply Hall. eapply nth_error_In. exact Hq1.
    + apply Hall. eapply nth_error_In. exact Hq2.
Qed.

Lemma elevationQ_compat (pts : list (Q * Q)) (d d' : Q) :
  increasingb pts = true -> d == d' ->
  elevationQ pts d == elevationQ pts d'.
Proof.
  intros Hinc E.
  apply (interpolates_unique pts d' _ _ Hinc).
  - apply (interpolates_compat pts d d' _ _ E (Qeq_refl _)).
    apply elevationQ_interpolates.
  - apply elevationQ_interpolates.
Qed.



Lemma withinb_In (lo hi : Q) (pts : list (Q * Q)) (q : Q * Q) :
  withinb lo hi pts = true -> In q pts -> lo <= snd q /\ snd q <= hi.
Proof.
  unfold withinb. rewrite forallb_forall. intros H Hin.
  specialize (H q Hin). apply andb_true_iff in H as [H1 H2].
  split; apply Qle_bool_iff; assumption.
Qed.

(** ** Interpolated values stay within the range of the samples *)





(** ** The binary search and the linear scan agree *)






(** ** Mirroring the route *)








Lemma jmax_fin_spec (a b : Q) :
  exists m, jmax (Fin a) (Fin b) = Fin m
            /\ a <= m /\ b <= m /\ (m == a \/ m == b).
Proof.
  rewrite jmax_fin. destruct (Qle_bool b a) eqn:E.
  - apply Qle_bool_iff in E. exists a. repeat split; lra.
  - apply Qle_bool_false in E. exists b. repeat split; lra.
Qed.

Lemma jmin_fin_spec (a b : Q) :
  exists m, jmin (Fin a) (Fin b) = Fin m
            /\ m <= a /\ m <= b /\ (m == a \/ m == b).
Proof.
  rewrite jmin_fin. destruct (Qle_bool a b) eqn:E.
  - apply Qle_bool_iff in E. exists a. repeat split; lra.
  - apply Qle_bool_false in E. exists b. repeat split; lra.
Qed.

(** The windowed gradient in terms of the clamped window. *)
Lemma computeGradientAtDistance_cases (pts : list (Q * Q)) (d T w : Q) :
  exists d1 d2,
    0 <= d1 /\ d - w <= d1 /\ (d1 == 0 \/ d1 == d - w)
    /\ d2 <= T /\ d2 <= d + w /\ (d2 == T \/ d2 == d + w)
    /\ ((d1 < d2
         /\ gradientQ pts d T w
            = (elevationQ pts d2 - elevationQ pts d1) / (d2 - d1) * 100)
        \/ (d2 <= d1 /\ gradientQ pts d T w = 0)).
Proof.
  destruct (jmax_fin_spec 0 (d - w)) as [d1 [H1 [A1 [A2 A3]]]].
  destruct (jmin_fin_spec T (d + w)) as [d2 [H2 [B1 [B2 B3]]]].
  exists d1, d2. repeat split; try assumption.
  unfold gradientQ.
  destruct (Qlt_le_dec d1 d2) as [Hlt|Hle].
  - left. split; [exact Hlt|].
    rewrite (computeGradientAtDistance_window pts d T w d1 d2 H1 H2 Hlt).
    reflexivity.
  - right. split; [exact Hle|].
    rewrite (computeGradientAtDistance_empty_window pts d T w d1 d2 H1 H2 Hle).
    reflexivity.
Qed.




(** ** Monotone series *)









(** X8.  When the clamped window is empty (the total distance or the
    window size is not positive, or the window lies entirely before the
    start or after the end), [computeGradientAtDistance] returns [0]
    without dividing. *)
Theorem computeGradientAtDistance_empty_window_is_zero (pts : list (Q * Q))
  (d T w : Q) :
  T <= 0 \/ w <= 0 \/ d + w <= 0 \/ T <= d - w ->
  computeGradientAtDistance (route pts) (Fin d) (Fin T) (Fin w) = Ok (Fin 0).
Proof.
  intros H.
  destruct (jmax_fin_spec 0 (d - w)) as [d1 [H1 [A1 [A2 A3]]]].
  destruct (jmin_fin_spec T (d + w)) as [d2 [H2 [B1 [B2 B3]]]].
  apply (computeGradientAtDistance_empty_window pts d T w d1 d2 H1 H2).
  destruct H as [H|[H|[H|H]]]; lra.
Qed.

Lemma computeGradientAtDistance_empty_window_is_zero_witness :
  computeGradientAtDistance (route [(0, 5)]) (Fin 0) (Fin 0) (Fin 50)
  = Ok (Fin 0).
Proof.
  apply (computeGradientAtDistance_empty_window_is_zero [(0, 5)] 0 0 50).
  left. discriminate.
Defined.

(** ** [normalizeArray] *)

Lemma fold_Qmin_attained (l : list Q) (a : Q) :
  In (fold_left Qmin l a) (a :: l).
Proof.
  revert a. induction l as [|b l IH]; intros a; cbn [fold_left].
  - left. reflexivity.
  - destruct (IH (Qmin a b)) as [E|E].
    + rewrite <- E. unfold Qmin, GenericMinMax.gmin.
      destruct (a ?= b); [left|left|right; left]; reflexivity.
    + right. right. exact E.
Qed.

Lemma fold_Qmax_attained (l : list Q) (a : Q) :
  In (fold_left Qmax l a) (a :: l).
Proof.
  revert a. induction l as [|b l IH]; intros a; cbn [fold_left].
  - left. reflexivity.
  - destruct (IH (Qmax a b)) as [E|E].
    + rewrite <- E. unfold Qmax, GenericMinMax.gmax.
      destruct (a ?= b); [left|right; left|left]; reflexivity.
    + right. right. exact E.
Qed.

Lemma minmax_bounds (a : Q) (l : list Q) (v : Q) :
  In v (a :: l) ->
  fold_left Qmin l a <= v /\ v <= fold_left Qmax l a.
Proof.
  intros [<-|H].
  - split; [apply (proj1 (fold_Qmin_le l a))|apply (proj1 (fold_Qmax_ge l a))].
  - split; [apply (proj2 (fold_Qmin_le l a))|apply (proj2 (fold_Qmax_ge l a))];
      exact H.
Qed.

Lemma normalizeArray_unit_range_aux (l : list Q) :
    length (minmax_normalize l) = length l
    /\ (forall v, In v (minmax_normalize l) -> 0 <= v /\ v <= 1)
    /\ (l <> [] -> exists v, In v (minmax_normalize l) /\ v == 0)
    /\ (forall a b, In a l -> In b l -> a < b ->
        exists v, In v (minmax_normalize l) /\ v == 1).
Proof.
  split; [apply minmax_normalize_length|].
  split; [apply minmax_normalize_range|].
  destruct l as [|a l]; [split; [congruence|intros ? ? []]|].
  unfold minmax_normalize.
  set (lo := fold_left Qmin l a). set (hi := fold_left Qmax l a).
  set (range := if Qeq_bool (hi - lo) 0 then 1 else hi - lo).
  split.
  - intros _. exists ((lo - lo) / range). split.
    + apply (in_map (fun v => (v - lo) / range)). apply fold_Qmin_attained.
    + unfold Qdiv. setoid_replace (lo - lo) with 0 by ring. ring.
  - intros u v Hu Hv Huv.
    destruct (minmax_bounds a l u Hu) as [U1 U2].
    destruct (minmax_bounds a l v Hv) as [V1 V2].
    fold lo hi in U1, U2, V1, V2.
    exists ((hi - lo) / range). split.
    + apply (in_map (fun v => (v - lo) / range)). apply fold_Qmax_attained.
    + unfold range. destruct (Qeq_bool (hi - lo) 0) eqn:E.
      * apply Qeq_bool_iff in E. lra.
      * field. lra.
Qed.

(** X9.  On a finite array [normalizeArray] returns as many finite
    numbers, all in [[0, 1]]; if the array is not empty one of them is [0],
    and if two entries differ one of them is [1]. *)
Theorem normalizeArray_unit_range (l : list Q) :
  exists r,
    normalizeArray (map Fin l) = map Fin r
    /\ length r = length l
    /\ (forall v, In v r -> 0 <= v /\ v <= 1)
    /\ (l <> [] -> exists v, In v r /\ v == 0)
    /\ (forall a b, In a l -> In b l -> a < b -> exists v, In v r /\ v == 1).
Proof.
  exists (minmax_normalize l). split; [apply normalizeArray_finite|].
  apply normalizeArray_unit_range_aux.
Qed.

Lemma forallb_Qeq (c : Q) (l : list Q) (v : Q) :
  forallb (Qeq_bool c) l = true -> In v l -> v == c.
Proof.
  intros H Hv. rewrite forallb_forall in H. apply H in Hv.
  apply Qeq_bool_iff in Hv. symmetry. exact Hv.
Qed.

Lemma minmax_normalize_constant (c : Q) (l : list Q) (v : Q) :
  forallb (Qeq_bool c) l = true -> In v (minmax_normalize l) -> v == 0.
Proof.
  intros H Hv. destruct l as [|a l]; [destruct Hv|].
  unfold minmax_normalize in Hv.
  set (lo := fold_left Qmin l a) in *. set (hi := fold_left Qmax l a) in *.
  assert (Elo : lo == c)
    by (apply (forallb_Qeq c (a :: l)); [exact H|apply fold_Qmin_attained]).
  assert (Ehi : hi == c)
    by (apply (forallb_Qeq c (a :: l)); [exact H|apply fold_Qmax_attained]).
  assert (E : Qeq_bool (hi - lo) 0 = true) by (apply Qeq_bool_iff; lra).
  rewrite E in Hv. apply in_map_iff in Hv. destruct Hv as [u [<- Hu]].
  apply (forallb_Qeq c (a :: l)) in Hu; [|exact H].
  unfold Qdiv. setoid_replace (u - lo) with 0 by lra. ring.
Qed.

(** X10.  An array whose entries are all equal is normalized to zeros:
    the [|| 1] on the range keeps the division away from [0 / 0]. *)
Theorem normalizeArray_constant (c : Q) (l : list Q) :
  forallb (Qeq_bool c) l = true ->
  exists r,
    normalizeArray (map Fin l) = map Fin r
    /\ length r = length l
    /\ (forall v, In v r -> v == 0).
Proof.
  intros H. exists (minmax_normalize l).
  split; [apply normalizeArray_finite|].
  split; [apply minmax_normalize_length|].
  intros v. apply (minmax_normalize_constant c); exact H.
Qed.

Lemma normalizeArray_constant_witness :
  forallb (Qeq_bool 5) [5; 5; 5] = true
  /\ exists r,
       normalizeArray (map Fin [5; 5; 5]) = map Fin r
       /\ length r = length [5; 5; 5]
       /\ (forall v, In v r -> v == 0).
Proof.
  split; [reflexivity|].
  apply (normalizeArray_constant 5 [5; 5; 5]). reflexivity.
Defined.








(** ** [sumSquaredError] *)

Lemma sq_diff_acc (l1 l2 : list Q) (s : Q) :
  length l1 = length l2 ->
  let r := fold_left (fun s p => s + (fst p - snd p) * (fst p - snd p))
             (combine l1 l2) s in
  s <= r /\ (r == s <-> Forall2 Qeq l1 l2).
Proof.
  revert l2 s. induction l1 as [|a l1 IH]; intros [|b l2] s Hlen;
    try discriminate Hlen; cbn [combine fold_left fst snd].
  - split; [apply Qle_refl|]. split; [constructor|reflexivity].
  - injection Hlen as Hlen.
    destruct (IH l2 (s + (a - b) * (a - b)) Hlen) as [H1 H2].
    cbv zeta in H1, H2.
    set (r := fold_left _ _ _) in *.
    assert (Hsq : 0 <= (a - b) * (a - b))
      by (destruct (Qlt_le_dec a b); nra).
    split; [lra|]. split.
    + intros E. assert (Ez : (a - b) * (a - b) == 0) by lra.
      constructor.
      * destruct (Qlt_le_dec a b) as [L|L]; [nra|].
        destruct (Qlt_le_dec b a) as [L'|L']; [nra|lra].
      * apply H2. lra.
    + intros F. inversion F as [|? ? ? ? Eab F']; subst.
      apply H2 in F'. rewrite F'.
      setoid_replace (a - b) with 0 by lra. ring.
Qed.

(** X12.  On two finite arrays of the same length [sumSquaredError] is a
    finite number, never negative, and zero exactly when the arrays hold
    the same numbers. *)
Theorem sumSquaredError_zero_iff_equal (l1 l2 : list Q) :
  length l1 = length l2 ->
  exists s,
    sumSquaredError (map Fin l1) (map Fin l2) = Fin s
    /\ 0 <= s /\ (s == 0 <-> Forall2 Qeq l1 l2).
Proof.
  intros Hlen. exists (sum_sq_diff l1 l2).
  split; [apply sumSquaredError_finite; exact Hlen|].
  apply (sq_diff_acc l1 l2 0 Hlen).
Qed.

Lemma sumSquaredError_zero_iff_equal_witness :
  exists s,
    sumSquaredError (map Fin [0; 1 # 2; 1]) (map Fin [1; 1 # 2; 0]) = Fin s
    /\ 0 <= s /\ (s == 0 <-> Forall2 Qeq [0; 1 # 2; 1] [1; 1 # 2; 0]).
Proof.
  apply (sumSquaredError_zero_iff_equal [0; 1 # 2; 1] [1; 1 # 2; 0]).
  reflexivity.
Defined.

Lemma sumSquaredError_from_NaN (arr1 arr2 : list num) :
  sumSquaredError_from NaN arr1 arr2 = NaN.
Proof.
  revert arr2. induction arr1 as [|a arr1 IH]; intros arr2;
    cbn [sumSquaredError_from]; [reflexivity|]. apply IH.
Qed.

Lemma sumSquaredError_from_short (l1 l2 : list Q) (s : num) :
  (length l2 < length l1)%nat ->
  sumSquaredError_from s (map Fin l1) (map Fin l2) = NaN.
Proof.
  revert l1 s. induction l2 as [|b l2 IH]; intros [|a l1] s Hlen;
    cbn [length] in Hlen; try lia; cbn [map sumSquaredError_from hd tl].
  - replace (s + (Fin a - NaN) * (Fin a - NaN))%js with NaN
      by (destruct s; reflexivity).
    apply sumSquaredError_from_NaN.
  - apply IH. lia.
Qed.

(** X13.  When the second array is shorter than the first, the loop reads
    [undefined] past its end and [sumSquaredError] is [NaN]. *)
Theorem sumSquaredError_short_array (l1 l2 : list Q) :
  (length l2 < length l1)%nat ->
  sumSquaredError (map Fin l1) (map Fin l2) = NaN.
Proof.
  intros Hlen. apply sumSquaredError_from_short. exact Hlen.
Qed.

Lemma sumSquaredError_short_array_witness :
  sumSquaredError (map Fin [0; 1 # 2; 1]) (map Fin [0; 1 # 2]) = NaN.
Proof.
  apply (sumSquaredError_short_array [0; 1 # 2; 1] [0; 1 # 2]).
  cbn [length]. lia.
Defined.

(** ** The candidates of [findAsymmetricPositions] come back ranked *)

Lemma ranksBefore_trans (a b c : Cand.t) :
  ranksBefore a b -> ranksBefore b c -> ranksBefore a c.
Proof.
  unfold ranksBefore. intros [H1|[H1 H1']] [H2|[H2 H2']].
  - left. lra.
  - left. lra.
  - left. lra.
  - right. split; lra.
Qed.






(** ** Direction detection is blind to the vertical scale of the curve *)












(** ** Direction detection on a route and on its mirror image *)










(** ** The color scale beyond the finite gradients *)

Lemma byte_hex_decode (z : Z) :
  (0 <= z <= 255)%Z ->
  parseInt16 (padStart2 (intToString16 z)) = Fin (inject_Z z).
Proof.
  intro Hz.
  assert (Hall :
    forallb (fun n =>
      num_eqb (parseInt16 (padStart2 (intToString16 (Z.of_nat n))))
              (Fin (inject_Z (Z.of_nat n)))) (seq 0 256) = true)
    by (vm_compute; reflexivity).
  rewrite forallb_forall in Hall.
  specialize (Hall (Z.to_nat z)).
  rewrite Z2Nat.id in Hall by lia.
  apply num_eqb_eq. apply Hall. apply in_seq. lia.
Qed.

Lemma channel_decode (h1 l1 h2 l2 : ascii) (t : Q) :
  isLowerHex h1 = true -> isLowerHex l1 = true ->
  isLowerHex h2 = true -> isLowerHex l2 = true ->
  0 <= t -> t <= 1 ->
  parseInt16
    (channel (String h1 (String l1 "")) (String h2 (String l2 "")) (Fin t))
  = jround (parseInt16 (String h1 (String l1 ""))
            + (parseInt16 (String h2 (String l2 ""))
               - parseInt16 (String h1 (String l1 ""))) * Fin t)%js.
Proof.
  intros Hh1 Hl1 Hh2 Hl2 Ht0 Ht1.
  destruct (hex_pair_facts h1 l1 Hh1 Hl1) as [P1 [B1 R1]].
  destruct (hex_pair_facts h2 l2 Hh2 Hl2) as [P2 [B2 R2]].
  unfold channel. rewrite P1, P2.
  set (a := inject_Z (pairValue h1 l1)) in *.
  set (b := inject_Z (pairValue h2 l2)) in *.
  change (Fin a + (Fin b - Fin a) * Fin t)%js with (Fin (a + (b - a) * t)).
  cbn [jround toString16]. rewrite Qfloor_Z.
  destruct (inject_Z_byte _ B1) as [Ha0 Ha1].
  destruct (inject_Z_byte _ B2) as [Hb0 Hb1].
  fold a in Ha0, Ha1. fold b in Hb0, Hb1.
  assert (Hx0 : 0 <= a + (b - a) * t) by nra.
  assert (Hx1 : a + (b - a) * t <= 255) by nra.
  apply byte_hex_decode. apply Qfloor_byte; assumption.
Qed.

(** X17.  For well-formed colors and [0 <= t <= 1], each channel of the
    color [lerpColor] returns reads back (with the [slice] and [parseInt] of
    [lerpColor] itself) as the rounded blend of the same channel of the two
    inputs: formatting loses nothing. *)
Theorem lerpColor_decode (c1 c2 : string) (t : Q) (k : nat) :
  wf_color c1 = true -> wf_color c2 = true -> 0 <= t -> t <= 1 ->
  (k < 3)%nat ->
  exists c,
    lerpColor (Some c1) (Some c2) (Fin t) = Ok c
    /\ parseInt16 (slice (2 * k + 1) (2 * k + 3) c)
       = jround (parseInt16 (slice (2 * k + 1) (2 * k + 3) c1)
                 + (parseInt16 (slice (2 * k + 1) (2 * k + 3) c2)
                    - parseInt16 (slice (2 * k + 1) (2 * k + 3) c1))
                   * Fin t)%js.
Proof.
  intros W1 W2 Ht0 Ht1 Hk.
  destruct (wf_color_inv c1 W1)
    as [r1 [r2 [g1 [g2 [b1 [b2 [-> [R1 [R2 [G1 [G2 [B1 B2]]]]]]]]]]]].
  destruct (wf_color_inv c2 W2)
    as [r1' [r2' [g1' [g2' [b1' [b2' [-> [R1' [R2' [G1' [G2' [B1' B2']]]]]]]]]]]].
  rewrite lerpColor_channels. eexists. split; [reflexivity|].
  change (slice 1 3 (String "#" (String r1 (String r2 (String g1 (String g2
            (String b1 (String b2 EmptyString))))))))
    with (String r1 (String r2 "")).
  change (slice 3 5 (String "#" (String r1 (String r2 (String g1 (String g2
            (String b1 (String b2 EmptyString))))))))
    with (String g1 (String g2 "")).
  change (slice 5 7 (String "#" (String r1 (String r2 (String g1 (String g2
            (String b1 (String b2 EmptyString))))))))
    with (String b1 (String b2 "")).
  change (slice 1 3 (String "#" (String r1' (String r2' (String g1' (String g2'
            (String b1' (String b2' EmptyString))))))))
    with (String r1' (String r2' "")).
  change (slice 3 5 (String "#" (String r1' (String r2' (String g1' (String g2'
            (String b1' (String b2' EmptyString))))))))
    with (String g1' (String g2' "")).
  change (slice 5 7 (String "#" (String r1' (String r2' (String g1' (String g2'
            (String b1' (String b2' EmptyString))))))))
    with (String b1' (String b2' "")).
  destruct (channel_wf r1 r2 r1' r2' t R1 R2 R1' R2' Ht0 Ht1)
    as [rh [rl [Er _]]].
  destruct (channel_wf g1 g2 g1' g2' t G1 G2 G1' G2' Ht0 Ht1)
    as [gh [gl [Eg _]]].
  destruct (channel_wf b1 b2 b1' b2' t B1 B2 B1' B2' Ht0 Ht1)
    as [bh [bl [Eb _]]].
  pose proof (channel_decode r1 r2 r1' r2' t R1 R2 R1' R2' Ht0 Ht1) as Dr.
  pose proof (channel_decode g1 g2 g1' g2' t G1 G2 G1' G2' Ht0 Ht1) as Dg.
  pose proof (channel_decode b1 b2 b1' b2' t B1 B2 B1' B2' Ht0 Ht1) as Db.
  rewrite Er in Dr |- *. rewrite Eg in Dg |- *. rewrite Eb in Db |- *.
  destruct k as [|[|[|k]]]; [exact Dr|exact Dg|exact Db|lia].
Qed.

Lemma lerpColor_decode_witness :
  exists c,
    lerpColor (Some "#24ca26"%string) (Some "#f1f060"%string) (Fin (1 # 2))
    = Ok c
    /\ parseInt16 (slice (2 * 0 + 1) (2 * 0 + 3) c)
       = jround (parseInt16 (slice (2 * 0 + 1) (2 * 0 + 3) "#24ca26")
                 + (parseInt16 (slice (2 * 0 + 1) (2 * 0 + 3) "#f1f060")
                    - parseInt16 (slice (2 * 0 + 1) (2 * 0 + 3) "#24ca26"))
                   * Fin (1 # 2))%js.
Proof.
  apply (lerpColor_decode "#24ca26" "#f1f060" (1 # 2) 0);
    try reflexivity; try discriminate; lia.
Defined.

Lemma gradientToColor_NaN (settings : Settings.t) :
  gradientToColor settings NaN = TypeError.
Proof. reflexivity. Qed.

Lemma lerpColor_defined (c1 c2 : string) (t : num) :
  lerpColor (Some c1) (Some c2) t <> TypeError.
Proof. rewrite lerpColor_channels. discriminate. Qed.

Lemma gradient_infinite (stops : list string) (bw : Q) (positive : bool) :
  let settings :=
    {| Settings.colorStops := stops; Settings.distance := Fin bw |} in
  0 < bw ->
  gradientToColor settings (if positive then PInf else NInf)
  = if positive
    then lerpColor (nth_error stops 5) (nth_error stops 6) (Fin 1)
    else lerpColor (nth_error stops 0) (nth_error stops 1) (Fin 0).
Proof.
  intros settings Hbw. unfold gradientToColor, settings.
  cbn [Settings.distance Settings.colorStops].
  assert (E : Qlt_bool bw 0 = false) by (apply Qlt_bool_false; lra).
  destruct positive; cbn [jdiv]; rewrite E; reflexivity.
Qed.

Lemma gradientToColor_infinite (stops : list string) (bw : Q)
  (positive : bool) :
  let settings :=
    {| Settings.colorStops := stops; Settings.distance := Fin bw |} in
  wf_stops stops = true -> 0 < bw ->
  exists c, gradientToColor settings (if positive then PInf else NInf) = Ok c
            /\ nth_error stops (if positive then 6 else 0)%nat = Some c.
Proof.
  intros settings Hwf Hbw. unfold settings.
  rewrite (gradient_infinite stops bw positive Hbw).
  destruct positive.
  - destruct (wf_stops_nth stops 5 Hwf ltac:(lia)) as [c1 [E1 W1]].
    destruct (wf_stops_nth stops 6 Hwf ltac:(lia)) as [c2 [E2 W2]].
    rewrite E1, E2.
    destruct (lerpColor_wf c1 c2 1 W1 W2 ltac:(lra) ltac:(lra))
      as [c [Hc [_ [S1 _]]]].
    exists c. split; [exact Hc|]. rewrite (S1 (Qeq_refl 1)). reflexivity.
  - destruct (wf_stops_nth stops 0 Hwf ltac:(lia)) as [c1 [E1 W1]].
    destruct (wf_stops_nth stops 1 Hwf ltac:(lia)) as [c2 [E2 W2]].
    rewrite E1, E2.
    destruct (lerpColor_wf c1 c2 0 W1 W2 ltac:(lra) ltac:(lra))
      as [c [Hc [_ [_ S0]]]].
    exists c. split; [exact Hc|]. rewrite (S0 (Qeq_refl 0)). reflexivity.
Qed.

Lemma gradientToColor_defined (stops : list string) (bw : Q) (g : num) :
  let settings :=
    {| Settings.colorStops := stops; Settings.distance := Fin bw |} in
  wf_stops stops = true -> 0 < bw -> g <> NaN ->
  exists c, gradientToColor settings g = Ok c /\ wf_color c = true.
Proof.
  intros settings Hwf Hbw Hg. destruct g as [q| | |]; [| | |congruence].
  - destruct (gradientToColor_finite stops q bw Hwf Hbw)
      as [z [c1 [c2 [c [_ [_ [_ [_ [_ [_ [Hc [W _]]]]]]]]]]]].
    exists c. split; assumption.
  - destruct (gradientToColor_infinite stops bw true Hwf Hbw) as [c [Hc Hn]].
    exists c. split; [exact Hc|].
    destruct (wf_stops_nth stops 6 Hwf ltac:(lia)) as [c' [E W]].
    cbv beta iota in Hn. congruence.
  - destruct (gradientToColor_infinite stops bw false Hwf Hbw) as [c [Hc Hn]].
    exists c. split; [exact Hc|].
    destruct (wf_stops_nth stops 0 Hwf ltac:(lia)) as [c' [E W]].
    cbv beta iota in Hn. congruence.
Qed.

(** X18.  With seven well-formed stops and a positive band width,
    [gradientToColor] throws exactly when the gradient is [NaN]; on every
    other number, the infinities included, it returns a well-formed
    color. *)
Theorem gradientToColor_throws_iff_NaN (stops : list string) (bw : Q)
  (g : num) :
  let settings :=
    {| Settings.colorStops := stops; Settings.distance := Fin bw |} in
  wf_stops stops = true -> 0 < bw ->
  (gradientToColor settings g = TypeError <-> g = NaN)
  /\ (g <> NaN ->
      exists c, gradientToColor settings g = Ok c /\ wf_color c = true).
Proof.
  intros settings Hwf Hbw. split; [split|].
  - intros H. destruct g as [q| | |]; [| | |reflexivity]; exfalso.
    + destruct (gradientToColor_defined stops bw (Fin q) Hwf Hbw
                  ltac:(discriminate)) as [c [Hc _]].
      fold settings in Hc. congruence.
    + destruct (gradientToColor_defined stops bw PInf Hwf Hbw
                  ltac:(discriminate)) as [c [Hc _]].
      fold settings in Hc. congruence.
    + destruct (gradientToColor_defined stops bw NInf Hwf Hbw
                  ltac:(discriminate)) as [c [Hc _]].
      fold settings in Hc. congruence.
  - intros ->. apply gradientToColor_NaN.
  - apply gradientToColor_defined; assumption.
Qed.

Lemma gradientToColor_throws_iff_NaN_witness :
  (gradientToColor DEFAULT_SETTINGS PInf = TypeError <-> PInf = NaN)
  /\ (PInf <> NaN ->
      exists c, gradientToColor DEFAULT_SETTINGS PInf = Ok c
                /\ wf_color c = true).
Proof.
  apply (gradientToColor_throws_iff_NaN (Settings.colorStops DEFAULT_SETTINGS)
           7 PInf); reflexivity.
Defined.

(** X19.  An infinite gradient saturates: [-Infinity] gives exactly the
    first stop and [+Infinity] exactly the last. *)
Theorem gradientToColor_saturates_at_infinity (stops : list string) (bw : Q) :
  let settings :=
    {| Settings.colorStops := stops; Settings.distance := Fin bw |} in
  wf_stops stops = true -> 0 < bw ->
  exists first last,
    nth_error stops 0 = Some first /\ nth_error stops 6 = Some last
    /\ gradientToColor settings NInf = Ok first
    /\ gradientToColor settings PInf = Ok last.
Proof.
  intros settings Hwf Hbw.
  destruct (gradientToColor_infinite stops bw true Hwf Hbw) as [c [Hc Hn]].
  destruct (gradientToColor_infinite stops bw false Hwf Hbw) as [c' [Hc' Hn']].
  exists c', c. repeat split; assumption.
Qed.

Lemma gradientToColor_saturates_at_infinity_witness :
  exists first last,
    nth_error (Settings.colorStops DEFAULT_SETTINGS) 0 = Some first
    /\ nth_error (Settings.colorStops DEFAULT_SETTINGS) 6 = Some last
    /\ gradientToColor DEFAULT_SETTINGS NInf = Ok first
    /\ gradientToColor DEFAULT_SETTINGS PInf = Ok last.
Proof.
  apply (gradientToColor_saturates_at_infinity
           (Settings.colorStops DEFAULT_SETTINGS) 7); reflexivity.
Defined.

(** X20.  With seven well-formed stops and a positive band width the
    coloring of the grade circle never throws: its [isNaN] guard leaves the
    circle alone exactly when there is no value or the value is [NaN], and
    otherwise the circle receives a well-formed color. *)
Theorem updateGradientCircleColor_never_throws (stops : list string) (bw : Q)
  (value : option num) :
  let settings :=
    {| Settings.colorStops := stops; Settings.distance := Fin bw |} in
  wf_stops stops = true -> 0 < bw ->
  exists r,
    updateGradientCircleColor settings value = Ok r
    /\ (r = None <-> value = None \/ value = Some NaN)
    /\ (forall c, r = Some c -> wf_color c = true).
Proof.
  intros settings Hwf Hbw. unfold updateGradientCircleColor.
  destruct value as [g|].
  - destruct g as [q| | |].
    2,3,4: cbn [isNaN negb].
    + destruct (gradientToColor_defined stops bw (Fin q) Hwf Hbw
                  ltac:(discriminate)) as [c [Hc W]].
      fold settings in Hc. cbn [isNaN negb]. rewrite Hc. cbn [bind].
      exists (Some c). split; [reflexivity|]. split.
      * split; [discriminate|intros [H|H]; discriminate H].
      * intros c0 E. injection E as <-. exact W.
    + destruct (gradientToColor_defined stops bw PInf Hwf Hbw
                  ltac:(discriminate)) as [c [Hc W]].
      fold settings in Hc. rewrite Hc. cbn [bind].
      exists (Some c). split; [reflexivity|]. split.
      * split; [discriminate|intros [H|H]; discriminate H].
      * intros c0 E. injection E as <-. exact W.
    + destruct (gradientToColor_defined stops bw NInf Hwf Hbw
                  ltac:(discriminate)) as [c [Hc W]].
      fold settings in Hc. rewrite Hc. cbn [bind].
      exists (Some c). split; [reflexivity|]. split.
      * split; [discriminate|intros [H|H]; discriminate H].
      * intros c0 E. injection E as <-. exact W.
    + exists None. split; [reflexivity|]. split.
      * split; [right; reflexivity|reflexivity].
      * discriminate.
  - exists None. split; [reflexivity|]. split.
    + split; [left; reflexivity|reflexivity].
    + discriminate.
Qed.

Lemma updateGradientCircleColor_never_throws_witness :
  exists r,
    updateGradientCircleColor DEFAULT_SETTINGS (Some NaN) = Ok r
    /\ (r = None <-> Some NaN = None \/ Some NaN = Some NaN)
    /\ (forall c, r = Some c -> wf_color c = true).
Proof.
  apply (updateGradientCircleColor_never_throws
           (Settings.colorStops DEFAULT_SETTINGS) 7 (Some NaN)); reflexivity.
Defined.

Lemma gradient_at_knot (stops : list string) (g bw : Q) (k : Z) :
  let settings :=
    {| Settings.colorStops := stops; Settings.distance := Fin bw |} in
  0 < bw -> (-3 <= k <= 3)%Z -> g == inject_Z k * bw ->
  exists n b,
    gradientNormalized settings (Fin g) = Fin n
    /\ gradientBand settings (Fin g) = Fin b
    /\ n == inject_Z k /\ b == inject_Z (Z.min 2 k).
Proof.
  intros settings Hbw Hk Hg.
  unfold gradientBand, gradientNormalized, settings.
  cbn [Settings.distance].
  rewrite jdiv_fin by lra.
  assert (Hm : g / bw == inject_Z k) by (rewrite Hg; field; lra).
  assert (Hk3 : -3 <= inject_Z k /\ inject_Z k <= 3).
  { split.
    - change (-3) with (inject_Z (-3)). rewrite <- Zle_Qle. lia.
    - change 3 with (inject_Z 3). rewrite <- Zle_Qle. lia. }
  set (m := g / bw) in *.
  rewrite jmin_fin, jmax_fin.
  set (mm := if Qle_bool 3 m then 3 else m).
  set (n := if Qle_bool mm (-3) then -3 else mm).
  assert (Hn : n == inject_Z k).
  { unfold n, mm. destruct (Qle_bool 3 m) eqn:E1.
    - apply Qle_bool_iff in E1.
      assert (E2 : Qle_bool 3 (-3) = false) by reflexivity.
      rewrite E2. lra.
    - apply Qle_bool_false in E1.
      destruct (Qle_bool m (-3)) eqn:E2.
      + apply Qle_bool_iff in E2. lra.
      + exact Hm. }
  assert (Hf : Qfloor n = k) by (rewrite Hn; apply Qfloor_Z).
  cbn [jfloor]. rewrite Hf, jmin_fin, jmax_fin.
  exists n. eexists. split; [reflexivity|]. split; [reflexivity|].
  split; [exact Hn|].
  destruct (Qle_bool 2 (inject_Z k)) eqn:E3.
  - apply Qle_bool_iff in E3.
    assert (Hk2 : (2 <= k)%Z)
      by (apply inject_Z_le_inv; exact E3).
    rewrite Z.min_l by lia. reflexivity.
  - apply Qle_bool_false in E3.
    assert (Hk2 : (k < 2)%Z)
      by (apply inject_Z_lt_inv; exact E3).
    rewrite Z.min_r by lia.
    destruct (Qle_bool (inject_Z k) (-3)) eqn:E4.
    + apply Qle_bool_iff in E4. lra.
    + reflexivity.
Qed.

(** X21.  At a band boundary the color is a stop, exactly: a gradient of
    [k] band widths, [-3 <= k <= 3], is given color stop [k + 3]. *)
Theorem gradientToColor_at_stops (stops : list string) (g bw : Q) (k : Z) :
  let settings :=
    {| Settings.colorStops := stops; Settings.distance := Fin bw |} in
  wf_stops stops = true -> 0 < bw ->
  (-3 <= k <= 3)%Z -> g == inject_Z k * bw ->
  exists c, nth_error stops (Z.to_nat (k + 3)) = Some c
            /\ gradientToColor settings (Fin g) = Ok c.
Proof.
  intros settings Hwf Hbw Hk Hg.
  destruct (gradient_at_knot stops g bw k Hbw Hk Hg)
    as [n [b [En [Eb [Hn Hb]]]]].
  fold settings in En, Eb.
  set (z := Z.min 2 k) in *.
  destruct (wf_stops_nth stops (Z.to_nat (z + 3)) Hwf ltac:(lia))
    as [c1 [Hc1 W1]].
  destruct (wf_stops_nth stops (Z.to_nat (z + 4)) Hwf ltac:(lia))
    as [c2 [Hc2 W2]].
  assert (Hzk : inject_Z z <= inject_Z k /\ inject_Z k <= inject_Z z + 1).
  { split.
    - rewrite <- Zle_Qle. lia.
    - change 1 with (inject_Z 1). rewrite <- inject_Z_plus, <- Zle_Qle. lia. }
  destruct (lerpColor_wf c1 c2 (n - b) W1 W2 ltac:(lra) ltac:(lra))
    as [c [Hc [Wc [S1 S0]]]].
  assert (Hgc : gradientToColor settings (Fin g) = Ok c).
  { rewrite gradientToColor_unfold.
    change (Settings.colorStops settings) with stops.
    rewrite En, Eb.
    change (Fin 3) with (Fin (inject_Z 3)).
    change (Fin 4) with (Fin (inject_Z 4)).
    rewrite (index_integer stops b z 3 Hb) by lia.
    rewrite (index_integer stops b z 4 Hb) by lia.
    rewrite Hc1, Hc2. exact Hc. }
  exists c. split; [|exact Hgc].
  destruct (Z.eq_dec k 3) as [->|Hk3].
  - assert (Et : n - b == 1).
    { rewrite Hn, Hb. reflexivity. }
    rewrite (S1 Et). exact Hc2.
  - assert (Ez : z = k) by (unfold z; lia).
    assert (Et : n - b == 0) by (rewrite Hn, Hb, Ez; ring).
    rewrite (S0 Et), <- Ez. exact Hc1.
Qed.

Lemma gradientToColor_at_stops_witness :
  exists c, nth_error (Settings.colorStops DEFAULT_SETTINGS)
              (Z.to_nat (2 + 3)) = Some c
            /\ gradientToColor DEFAULT_SETTINGS (Fin 14) = Ok c.
Proof.
  apply (gradientToColor_at_stops (Settings.colorStops DEFAULT_SETTINGS)
           14 7 2); try reflexivity; lia.
Defined.

(** X22.  For any list of stops, a positive band width and a finite
    gradient, [gradientToColor] throws exactly when the upper stop of the
    band, [colorStops[band + 4]], is missing. *)
Theorem gradientToColor_missing_stop (stops : list string) (g bw : Q) :
  let settings :=
    {| Settings.colorStops := stops; Settings.distance := Fin bw |} in
  0 < bw ->
  exists band : Z,
    jeq (gradientBand settings (Fin g)) (Fin (inject_Z band))
    /\ (-3 <= band <= 2)%Z
    /\ (gradientToColor settings (Fin g) = TypeError
        <-> (length stops <= Z.to_nat (band + 4))%nat).
Proof.
  intros settings Hbw.
  destruct (gradient_band_facts stops g bw Hbw)
    as [n [b [z [En [Eb [Hb [Hz _]]]]]]].
  fold settings in En, Eb.
  exists z. split; [rewrite Eb; exact Hb|]. split; [exact Hz|].
  rewrite gradientToColor_unfold.
  change (Settings.colorStops settings) with stops.
  rewrite En, Eb.
  change (Fin 3) with (Fin (inject_Z 3)).
  change (Fin 4) with (Fin (inject_Z 4)).
  rewrite (index_integer stops b z 3 Hb) by lia.
  rewrite (index_integer stops b z 4 Hb) by lia.
  replace (Z.to_nat (z + 4)) with (S (Z.to_nat (z + 3))) by lia.
  destruct (nth_error stops (S (Z.to_nat (z + 3)))) as [c2|] eqn:E2.
  - assert (Hlt : (S (Z.to_nat (z + 3)) < length stops)%nat)
      by (apply nth_error_Some; congruence).
    destruct (nth_error stops (Z.to_nat (z + 3))) as [c1|] eqn:E1.
    + split; [intro H; exfalso; exact (lerpColor_defined _ _ _ H)|lia].
    + apply nth_error_None in E1. lia.
  - apply nth_error_None in E2. split; [intros _; exact E2|intros _].
    destruct (nth_error stops (Z.to_nat (z + 3))); reflexivity.
Qed.

Lemma gradientToColor_missing_stop_witness :
  exists band : Z,
    jeq (gradientBand
           {| Settings.colorStops := ["#000000"; "#ffffff"]%string;
              Settings.distance := Fin 7 |} (Fin 0))
        (Fin (inject_Z band))
    /\ (-3 <= band <= 2)%Z
    /\ (gradientToColor
          {| Settings.colorStops := ["#000000"; "#ffffff"]%string;
             Settings.distance := Fin 7 |} (Fin 0) = TypeError
        <-> (length ["#000000"; "#ffffff"]%string <= Z.to_nat (band + 4))%nat).
Proof.
  apply (gradientToColor_missing_stop ["#000000"; "#ffffff"]%string 0 7).
  reflexivity.
Defined.

(** ** The preview bar of the options page *)

Lemma previewSegment_facts (stops : list string) (i : nat) :
  (i < 60)%nat ->
  exists t,
    previewSegment stops i
    = lerpColor (nth_error stops (i / 10)) (nth_error stops (S (i / 10)))
        (Fin t)
    /\ 0 <= t /\ t <= 1 /\ ((i mod 10 = 0)%nat -> t == 0).
Proof.
  intros Hi.
  do 60 (destruct i as [|i];
         [eexists; split; [reflexivity|];
          split; [discriminate|]; split; [discriminate|];
          intros H; first [reflexivity|discriminate H]|]).
  lia.
Qed.

Lemma previewSegment_wf (stops : list string) (i : nat) :
  wf_stops stops = true -> (i < 60)%nat ->
  exists c, previewSegment stops i = Ok c /\ wf_color c = true
            /\ ((i mod 10 = 0)%nat -> nth_error stops (i / 10) = Some c).
Proof.
  intros Hwf Hi.
  destruct (previewSegment_facts stops i Hi) as [t [E [Ht0 [Ht1 Hz]]]].
  assert (Hd : (i / 10 < 6)%nat) by (apply Nat.Div0.div_lt_upper_bound; lia).
  destruct (wf_stops_nth stops (i / 10) Hwf ltac:(lia)) as [c1 [E1 W1]].
  destruct (wf_stops_nth stops (S (i / 10)) Hwf ltac:(lia)) as [c2 [E2 W2]].
  destruct (lerpColor_wf c1 c2 t W1 W2 Ht0 Ht1) as [c [Hc [Wc [_ S0]]]].
  exists c. rewrite E, E1, E2. split; [exact Hc|]. split; [exact Wc|].
  intros Hm. rewrite (S0 (Hz Hm)). reflexivity.
Qed.

(** X23.  With seven well-formed color inputs [updatePreview] builds 60
    segments without throwing, each with a well-formed color, and segment
    [10 * k] shows color stop [k] exactly, for [k] from 0 to 5. *)
Theorem updatePreview_segments (stops : list string) :
  wf_stops stops = true ->
  exists colors,
    updatePreview stops = Ok colors
    /\ length colors = 60%nat
    /\ Forall (fun c => wf_color c = true) colors
    /\ (forall k, (k < 6)%nat -> nth_error colors (10 * k) = nth_error stops k).
Proof.
  intros Hwf.
  set (g := fun i => match previewSegment stops i with
                     | Ok c => c
                     | _ => EmptyString
                     end).
  assert (Hg : forall i, (i < 60)%nat ->
                 previewSegment stops i = Ok (g i) /\ wf_color (g i) = true
                 /\ ((i mod 10 = 0)%nat -> nth_error stops (i / 10) = Some (g i))).
  { intros i Hi. destruct (previewSegment_wf stops i Hwf Hi) as [c [E [W S0]]].
    unfold g. rewrite E. repeat split; assumption. }
  exists (map g (seq 0 60)). split; [|split; [|split]].
  - apply mapM_map. intros i Hin. apply in_seq in Hin. apply Hg. lia.
  - rewrite length_map, length_seq. reflexivity.
  - rewrite Forall_forall. intros c Hc. apply in_map_iff in Hc as [i [<- Hin]].
    apply in_seq in Hin. apply Hg. lia.
  - intros k Hk. rewrite nth_error_map.
    assert (Hs : nth_error (seq 0 60) (10 * k) = Some (10 * k)%nat).
    { rewrite nth_error_nth' with (d := O) by (rewrite length_seq; lia).
      rewrite seq_nth by lia. reflexivity. }
    rewrite Hs. cbn [option_map].
    destruct (Hg (10 * k)%nat ltac:(lia)) as [_ [_ S0]].
    assert (Hm : ((10 * k) mod 10 = 0)%nat)
      by (rewrite Nat.mul_comm; apply Nat.Div0.mod_mul).
    assert (Hd : ((10 * k) / 10 = k)%nat)
      by (rewrite Nat.mul_comm; apply Nat.div_mul; lia).
    rewrite <- (S0 Hm), Hd. reflexivity.
Qed.

Lemma updatePreview_segments_witness :
  exists colors,
    updatePreview (Settings.colorStops DEFAULT_SETTINGS) = Ok colors
    /\ length colors = 60%nat
    /\ Forall (fun c => wf_color c = true) colors
    /\ (forall k, (k < 6)%nat ->
        nth_error colors (10 * k)
        = nth_error (Settings.colorStops DEFAULT_SETTINGS) k).
Proof.
  apply (updatePreview_segments (Settings.colorStops DEFAULT_SETTINGS)).
  reflexivity.
Defined.

(** ** The polygons of the builder *)

Lemma segmentAt_geometry (s1 s2 : Settings.t) (useRouteData isReversed : bool)
  (routePoints : list RoutePoint) (totalDistance elevRange ySpan : num)
  (elevationPoints : list ScreenPoint) (i : nat) (o1 o2 : option Polygon) :
  segmentAt s1 useRouteData isReversed routePoints totalDistance elevRange
    ySpan elevationPoints i = Ok o1 ->
  segmentAt s2 useRouteData isReversed routePoints totalDistance elevRange
    ySpan elevationPoints i = Ok o2 ->
  option_map geometry o1 = option_map geometry o2.
Proof.
  unfold segmentAt.
  destruct (get elevationPoints i) as [a| |]; try discriminate.
  destruct (get elevationPoints (i + 1)) as [b| |]; try discriminate.
  cbn [bind].
  destruct (segmentGradient _ _ _ _ _ _ _ _ _ _) as [[g|]| |];
    try discriminate; cbn [bind].
  - destruct (gradientToColor s1 g) as [c1| |]; try discriminate.
    destruct (gradientToColor s2 g) as [c2| |]; try discriminate.
    cbn [bind]. intros H1 H2. inversion H1. inversion H2. reflexivity.
  - intros H1 H2. inversion H1. inversion H2. reflexivity.
Qed.

Lemma segmentLoop_geometry (body1 body2 : nat -> res (option Polygon))
  (indices : list nat) :
  (forall i o1 o2, body1 i = Ok o1 -> body2 i = Ok o2 ->
                   option_map geometry o1 = option_map geometry o2) ->
  forall l1 l2,
    segmentLoop body1 indices = Ok l1 -> segmentLoop body2 indices = Ok l2 ->
    map geometry l1 = map geometry l2.
Proof.
  intros Hb. induction indices as [|i indices IH]; intros l1 l2;
    cbn [segmentLoop].
  - intros H1 H2. inversion H1. inversion H2. reflexivity.
  - destruct (body1 i) as [o1| |] eqn:E1; try discriminate.
    destruct (body2 i) as [o2| |] eqn:E2; try discriminate.
    cbn [bind].
    destruct (segmentLoop body1 indices) as [r1| |]; try discriminate.
    destruct (segmentLoop body2 indices) as [r2| |]; try discriminate.
    cbn [bind]. intros H1 H2. inversion H1. inversion H2. subst l1 l2.
    pose proof (Hb i o1 o2 E1 E2) as Ho.
    pose proof (IH r1 r2 eq_refl eq_refl) as Hr.
    destruct o1 as [q1|], o2 as [q2|]; cbn [option_map] in Ho;
      try discriminate Ho; cbn [map].
    + assert (Hq : geometry q1 = geometry q2) by congruence.
      rewrite Hq, Hr. reflexivity.
    + exact Hr.
Qed.

(** X24.  The settings change colors only: two runs on the same route
    data and the same points under different settings, if both return,
    create polygons with the same corners and the same gradients. *)
Theorem buildPolygons_geometry_independent_of_settings (s1 s2 : Settings.t)
  (routeData : RouteData.t) (points : list ScreenPoint)
  (l1 l2 : list Polygon) :
  buildPolygons s1 routeData points = Ok l1 ->
  buildPolygons s2 routeData points = Ok l2 ->
  map geometry l1 = map geometry l2.
Proof.
  unfold buildPolygons. cbv zeta.
  destruct (if match RouteData.routePoints routeData with
               | Some l => (1 <? length l)%nat
               | None => false
               end
            then _ else _) as [isReversed| |]; try discriminate.
  cbn [bind]. apply segmentLoop_geometry.
  intros i o1 o2. apply segmentAt_geometry.
Qed.

Lemma buildPolygons_geometry_independent_of_settings_witness :
  map geometry
    (createdBy (buildPolygons DEFAULT_SETTINGS scenarioRoute
                  (parsePolylinePoints scenarioPolyline)))
  = map geometry
      (createdBy (buildPolygons
                    {| Settings.colorStops := Settings.colorStops DEFAULT_SETTINGS;
                       Settings.distance := Fin 3 |}
                    scenarioRoute (parsePolylinePoints scenarioPolyline))).
Proof.
  apply (buildPolygons_geometry_independent_of_settings DEFAULT_SETTINGS
           {| Settings.colorStops := Settings.colorStops DEFAULT_SETTINGS;
              Settings.distance := Fin 3 |}
           scenarioRoute (parsePolylinePoints scenarioPolyline));
    vm_compute; reflexivity.
Defined.

Lemma jor_fin (a : Q) :
  exists r, jor (Fin a) (Fin 1) = Fin r /\ ~ r == 0.
Proof.
  unfold jor, truthy. destruct (Qeq_bool a 0) eqn:E; cbn [negb].
  - exists 1. split; [reflexivity|lra].
  - exists a. split; [reflexivity|]. apply Qeq_bool_false. exact E.
Qed.

Lemma ySpan_finite (p : Q * Q) (svg : list (Q * Q)) :
  exists r,
    jor (jmax_list (map y (screen (p :: svg)))
         - jmin_list (map y (screen (p :: svg))))%js (Fin 1) = Fin r
    /\ ~ r == 0.
Proof.
  unfold jmax_list, jmin_list, screen. rewrite map_map.
  cbn [map fold_left screenPoint y].
  change (jmax NInf (Fin (snd p))) with (Fin (snd p)).
  change (jmin PInf (Fin (snd p))) with (Fin (snd p)).
  rewrite <- (map_map snd Fin), fold_jmax_fin, fold_jmin_fin.
  apply jor_fin.
Qed.

Lemma segmentLoop_Forall (P : Polygon -> Prop)
  (body : nat -> res (option Polygon)) (indices : list nat) :
  (forall i, In i indices ->
     exists o, body i = Ok o /\ forall p, o = Some p -> P p) ->
  exists l, segmentLoop body indices = Ok l /\ Forall P l.
Proof.
  induction indices as [|i indices IH]; intros H; cbn [segmentLoop].
  - exists []. split; [reflexivity|constructor].
  - destruct (H i (or_introl eq_refl)) as [o [Eo Ho]].
    destruct (IH (fun j Hj => H j (or_intror Hj))) as [l [El Hl]].
    rewrite Eo, El. cbn [bind]. destruct o as [p|].
    + exists (p :: l). split; [reflexivity|].
      constructor; [apply Ho; reflexivity|exact Hl].
    + exists l. split; [reflexivity|exact Hl].
Qed.

Lemma nth_error_screen_inv (eps : list (Q * Q)) (i : nat) (p : ScreenPoint) :
  nth_error (screen eps) i = Some p ->
  exists a, nth_error eps i = Some a /\ p = screenPoint a.
Proof.
  unfold screen. rewrite nth_error_map.
  destruct (nth_error eps i) as [a|]; [|discriminate].
  intros H. injection H as <-. exists a. split; reflexivity.
Qed.

Lemma segmentAt_fallback_finite (stops : list string) (bw T er ys : Q)
  (isReversed : bool) (routePoints : list RoutePoint) (eps : list (Q * Q))
  (i : nat) :
  let settings :=
    {| Settings.colorStops := stops; Settings.distance := Fin bw |} in
  wf_stops stops = true -> 0 < bw ->
  ~ T == 0 -> ~ er == 0 -> ~ ys == 0 ->
  (i + 1 < length eps)%nat ->
  exists o,
    segmentAt settings false isReversed routePoints (Fin T) (Fin er) (Fin ys)
      (screen eps) i = Ok o
    /\ forall p, o = Some p ->
         wf_color (fill p) = true /\ exists g, gradient p = Fin g.
Proof.
  intros settings Hwf Hbw HT Her Hys Hi. unfold segmentAt.
  assert (Hlen : length (screen eps) = length eps)
    by (unfold screen; apply length_map).
  destruct (get_lt (screen eps) i ltac:(lia)) as [a [_ Ea]].
  destruct (get_lt (screen eps) (i + 1) ltac:(lia)) as [b [_ Eb]].
  rewrite Ea, Eb. cbn [bind].
  destruct (segmentGradient_total false isReversed routePoints (Fin T)
              (Fin er) (Fin ys) (screen eps) i a b ltac:(lia)) as [g Eg].
  rewrite Eg. cbn [bind]. destruct g as [g|].
  - destruct (segmentGradient_fallback_skip isReversed routePoints (Fin T)
                (Fin er) (Fin ys) (screen eps) i a b g Eg)
      as [s [e [ps [pe [Hs [He [_ [_ [HdX Hg]]]]]]]]].
    apply nth_error_screen_inv in Hs as [qs [_ ->]].
    apply nth_error_screen_inv in He as [qe [_ ->]].
    cbn [screenPoint x y] in HdX, Hg.
    change (Fin (fst qe) - Fin (fst qs))%js
      with (Fin (fst qe - fst qs)) in HdX, Hg.
    apply jle_fin_false in HdX.
    change ((Fin (snd qs) - Fin (snd qe)) * Fin er)%js
      with (Fin ((snd qs - snd qe) * er)) in Hg.
    change (Fin ys * Fin (fst qe - fst qs) * Fin T)%js
      with (Fin (ys * (fst qe - fst qs) * T)) in Hg.
    assert (Hden : ~ ys * (fst qe - fst qs) * T == 0).
    { intros H. apply Qmult_integral in H as [H|H]; [|exact (HT H)].
      apply Qmult_integral in H as [H|H]; [exact (Hys H)|lra]. }
    rewrite (jdiv_fin _ _ Hden) in Hg.
    change (Fin ((snd qs - snd qe) * er / (ys * (fst qe - fst qs) * T))
            * Fin 100)%js
      with (Fin ((snd qs - snd qe) * er / (ys * (fst qe - fst qs) * T) * 100))
      in Hg.
    subst g.
    destruct (gradientToColor_finite stops
                ((snd qs - snd qe) * er / (ys * (fst qe - fst qs) * T) * 100)
                bw Hwf Hbw)
      as [z [c1 [c2 [c [_ [_ [_ [_ [_ [_ [Hc [W _]]]]]]]]]]]].
    fold settings in Hc. rewrite Hc. cbn [bind].
    eexists. split; [reflexivity|].
    intros p Hp. injection Hp as <-. cbn [fill gradient].
    split; [exact W|]. eexists. reflexivity.
  - exists None. split; [reflexivity|]. discriminate.
Qed.

(** X25.  With fewer than two route points (gradients estimated from the
    screen curve), finite elevations, a finite screen curve, seven
    well-formed stops and a positive band width, the builder returns
    whenever [totalDistance] is not zero, and every polygon has a finite
    gradient and a well-formed color. *)
Theorem buildPolygons_fallback_total (stops : list string)
  (bw T minE maxE : Q) (routePoints : option (list RoutePoint))
  (svg : list (Q * Q)) :
  let settings :=
    {| Settings.colorStops := stops; Settings.distance := Fin bw |} in
  let routeData :=
    {| RouteData.totalDistance := Fin T; RouteData.minElev := Fin minE;
       RouteData.maxElev := Fin maxE; RouteData.routePoints := routePoints |} in
  wf_stops stops = true -> 0 < bw -> coarse routePoints = true ->
  ~ T == 0 ->
  exists created,
    buildPolygons settings routeData (screen svg) = Ok created
    /\ Forall (fun p => wf_color (fill p) = true
                        /\ exists g, gradient p = Fin g) created.
Proof.
  intros settings routeData Hwf Hbw Hc HT.
  unfold buildPolygons. cbv zeta.
  cbn [RouteData.totalDistance RouteData.minElev RouteData.maxElev
       RouteData.routePoints routeData].
  assert (Eu : match routePoints with
               | Some l => (1 <? length l)%nat
               | None => false
               end = false).
  { destruct routePoints as [l|]; [|reflexivity].
    cbn [coarse] in Hc. apply Nat.leb_le in Hc. apply Nat.ltb_ge. exact Hc. }
  rewrite Eu. cbn [bind]. rewrite filter_screen.
  destruct svg as [|p svg].
  - exists []. split; [reflexivity|constructor].
  - destruct (ySpan_finite p svg) as [ys [Eys Hys]]. rewrite Eys.
    change (Fin maxE - Fin minE)%js with (Fin (maxE - minE)).
    destruct (jor_fin (maxE - minE)) as [er [Eer Her]]. rewrite Eer.
    apply segmentLoop_Forall. intros i Hi. apply in_seq in Hi.
    unfold screen in Hi at 1. rewrite length_map in Hi.
    apply segmentAt_fallback_finite; try assumption. lia.
Qed.

Lemma buildPolygons_fallback_total_witness :
  exists created,
    buildPolygons DEFAULT_SETTINGS
      {| RouteData.totalDistance := Fin 1000; RouteData.minElev := Fin 100;
         RouteData.maxElev := Fin 150; RouteData.routePoints := None |}
      (screen [(0, 1 # 2); (1 # 2, 0); (1, 1 # 2)]) = Ok created
    /\ Forall (fun p => wf_color (fill p) = true
                        /\ exists g, gradient p = Fin g) created.
Proof.
  apply (buildPolygons_fallback_total (Settings.colorStops DEFAULT_SETTINGS)
           7 1000 100 150 None [(0, 1 # 2); (1 # 2, 0); (1, 1 # 2)]);
    try reflexivity. discriminate.
Defined.

Lemma get_inv {A : Type} (arr : list A) (i : nat) (a : A) :
  get arr i = Ok a -> nth_error arr i = Some a.
Proof.
  unfold get. destruct (nth_error arr i); [|discriminate].
  intros H. injection H as <-. reflexivity.
Qed.

Lemma segmentAt_corners (settings : Settings.t)
  (useRouteData isReversed : bool) (routePoints : list RoutePoint)
  (totalDistance elevRange ySpan : num) (elevationPoints : list ScreenPoint)
  (i : nat) (polygon : Polygon) :
  segmentAt settings useRouteData isReversed routePoints totalDistance
    elevRange ySpan elevationPoints i = Ok (Some polygon) ->
  nth_error elevationPoints i = Some (p1 polygon)
  /\ nth_error elevationPoints (S i) = Some (p2 polygon).
Proof.
  unfold segmentAt.
  destruct (get elevationPoints i) as [a| |] eqn:Ea; try discriminate.
  destruct (get elevationPoints (i + 1)) as [b| |] eqn:Eb; try discriminate.
  cbn [bind].
  destruct (segmentGradient _ _ _ _ _ _ _ _ _ _) as [[g|]| |];
    try discriminate; cbn [bind].
  destruct (gradientToColor settings g) as [c| |]; try discriminate.
  cbn [bind]. intros H. injection H as <-. cbn [p1 p2].
  apply get_inv in Ea, Eb. rewrite Nat.add_1_r in Eb. split; assumption.
Qed.

Lemma segmentLoop_indices (P : nat -> Polygon -> Prop)
  (body : nat -> res (option Polygon)) (s n : nat) (l : list Polygon) :
  (forall i polygon, body i = Ok (Some polygon) -> P i polygon) ->
  segmentLoop body (seq s n) = Ok l ->
  exists indices,
    StronglySorted lt indices
    /\ Forall (fun i => (s <= i < s + n)%nat) indices
    /\ Forall2 P indices l.
Proof.
  intros HP. revert s l. induction n as [|n IH]; intros s l;
    cbn [seq segmentLoop].
  - intros H. injection H as <-. exists []. repeat constructor.
  - destruct (body s) as [o| |] eqn:Eo; try discriminate. cbn [bind].
    destruct (segmentLoop body (seq (S s) n)) as [rest| |] eqn:Er;
      try discriminate.
    cbn [bind]. intros H. injection H as <-.
    destruct (IH (S s) rest Er) as [indices [Hs [Hr HF]]].
    assert (Hr' : Forall (fun i => (s <= i < s + S n)%nat) indices).
    { rewrite Forall_forall in Hr |- *. intros i Hi.
      specialize (Hr i Hi). lia. }
    destruct o as [polygon|].
    + exists (s :: indices). split; [|split].
      * constructor; [exact Hs|].
        rewrite Forall_forall in Hr |- *. intros i Hi.
        specialize (Hr i Hi). lia.
      * constructor; [lia|exact Hr'].
      * constructor; [apply HP; exact Eo|exact HF].
    + exists indices. repeat split; assumption.
Qed.

(** X26.  Whenever the builder returns, its polygons stand, in order, on
    pairs of consecutive points of the filtered curve: no polygon has a
    baseline point ([y >= 1]) as a corner. *)
Theorem buildPolygons_corners (settings : Settings.t)
  (routeData : RouteData.t) (points : list ScreenPoint)
  (created : list Polygon) :
  buildPolygons settings routeData points = Ok created ->
  let elevationPoints := filter (fun p => jlt (y p) (Fin 1)) points in
  exists indices,
    StronglySorted lt indices
    /\ Forall2 (fun i polygon =>
                  nth_error elevationPoints i = Some (p1 polygon)
                  /\ nth_error elevationPoints (S i) = Some (p2 polygon))
         indices created
    /\ Forall (fun polygon =>
                 jlt (y (p1 polygon)) (Fin 1) = true
                 /\ jlt (y (p2 polygon)) (Fin 1) = true) created.
Proof.
  unfold buildPolygons. cbv zeta.
  destruct (if match RouteData.routePoints routeData with
               | Some l => (1 <? length l)%nat
               | None => false
               end
            then _ else _) as [isReversed| |]; try discriminate.
  cbn [bind]. intros H.
  destruct (segmentLoop_indices
              (fun i polygon =>
                 nth_error (filter (fun p => jlt (y p) (Fin 1)) points) i
                 = Some (p1 polygon)
                 /\ nth_error (filter (fun p => jlt (y p) (Fin 1)) points) (S i)
                    = Some (p2 polygon))
              _ _ _ _ (fun i polygon => segmentAt_corners _ _ _ _ _ _ _ _ i polygon)
              H)
    as [indices [Hs [_ HF]]].
  exists indices. split; [exact Hs|]. split; [exact HF|].
  clear Hs H. induction HF as [|i polygon indices created [H1 H2] HF IH];
    constructor; [|exact IH].
  apply nth_error_In in H1, H2. apply filter_In in H1, H2.
  split; [apply H1|apply H2].
Qed.

Lemma buildPolygons_corners_witness :
  exists indices,
    StronglySorted lt indices
    /\ Forall2 (fun i polygon =>
                  nth_error (filter (fun p => jlt (y p) (Fin 1))
                               (parsePolylinePoints scenarioPolyline)) i
                  = Some (p1 polygon)
                  /\ nth_error (filter (fun p => jlt (y p) (Fin 1))
                                  (parsePolylinePoints scenarioPolyline)) (S i)
                     = Some (p2 polygon))
         indices
         (createdBy (buildPolygons DEFAULT_SETTINGS scenarioRoute
                       (parsePolylinePoints scenarioPolyline)))
    /\ Forall (fun polygon =>
                 jlt (y (p1 polygon)) (Fin 1) = true
                 /\ jlt (y (p2 polygon)) (Fin 1) = true)
         (createdBy (buildPolygons DEFAULT_SETTINGS scenarioRoute
                       (parsePolylinePoints scenarioPolyline))).
Proof.
  apply (buildPolygons_corners DEFAULT_SETTINGS scenarioRoute
           (parsePolylinePoints scenarioPolyline)).
  vm_compute. reflexivity.
Defined.

(** ** A flat route *)

Lemma gradientQ_flat (pts : list (Q * Q)) (e d T w : Q) :
  (2 <= length pts)%nat -> withinb e e pts = true ->
  gradientQ pts d T w == 0.
Proof.
  intros Hlen Hw.
  assert (Hne : pts <> []) by (destruct pts; [cbn in Hlen; lia|discriminate]).
  assert (He : forall x, elevationQ pts x == e).
  { intros x.
    destruct (interpolates_between pts x (elevationQ pts x) e e Hne
                (fun q Hq => withinb_In e e pts q Hw Hq)
                (elevationQ_interpolates pts x)) as [H1 H2].
    lra. }
  destruct (computeGradientAtDistance_cases pts d T w)
    as [d1 [d2 [_ [_ [_ [_ [_ [_ [[Hlt ->]|[Hle ->]]]]]]]]]]; [|reflexivity].
  rewrite (He d1), (He d2). unfold Qdiv.
  setoid_replace (e - e) with 0 by ring. ring.
Qed.

(** X27.  A flat route is colored with the middle stop throughout: when
    all route points have the same elevation, every polygon of the
    full-resolution path has gradient zero and color stop 3. *)
Theorem buildPolygons_flat_route (stops : list string) (bw : Q)
  (pts : list (Q * Q)) (e T : Q) (minE maxE : num) (svg : list (Q * Q)) :
  let settings :=
    {| Settings.colorStops := stops; Settings.distance := Fin bw |} in
  let routeData :=
    {| RouteData.totalDistance := Fin T; RouteData.minElev := minE;
       RouteData.maxElev := maxE; RouteData.routePoints := Some (route pts) |} in
  wf_stops stops = true -> 0 < bw -> (2 <= length pts)%nat ->
  withinb e e pts = true ->
  exists created,
    buildPolygons settings routeData (screen svg) = Ok created
    /\ length created = (length (elevationPointsQ svg) - 1)%nat
    /\ Forall (fun polygon =>
                 nth_error stops 3 = Some (fill polygon)
                 /\ exists g, gradient polygon = Fin g /\ g == 0) created.
Proof.
  intros settings routeData Hwf Hbw Hlen Hflat.
  destruct (buildPolygons_route stops bw pts T minE maxE svg Hwf Hbw Hlen)
    as [direction [_ Hb]].
  cbv zeta in Hb. fold settings routeData in Hb.
  eexists. split; [exact Hb|]. split.
  - rewrite length_map, length_seq. reflexivity.
  - rewrite Forall_forall. intros polygon Hp.
    apply in_map_iff in Hp as [i [<- _]]. cbn [fill gradient].
    set (g := routeGradientQ pts T direction _ _).
    assert (Hg : g == 0).
    { unfold g, routeGradientQ. destruct direction.
      - apply (gradientQ_flat pts e); assumption.
      - rewrite (gradientQ_flat pts e) by assumption. reflexivity. }
    split; [|exists g; split; [reflexivity|exact Hg]].
    destruct (gradientToColor_at_stops stops g bw 0 Hwf Hbw ltac:(lia)
                ltac:(rewrite Hg; reflexivity)) as [c [Hc Hgc]].
    fold settings in Hgc. unfold colorOf. rewrite Hgc. exact Hc.
Qed.

Lemma buildPolygons_flat_route_witness :
  exists created,
    buildPolygons DEFAULT_SETTINGS
      {| RouteData.totalDistance := Fin 1000; RouteData.minElev := Fin 100;
         RouteData.maxElev := Fin 100;
         RouteData.routePoints := Some (route [(0, 100); (1000, 100)]) |}
      (screen [(0, 1 # 2); (1 # 2, 1 # 2); (1, 1 # 2)]) = Ok created
    /\ length created
       = Nat.sub
           (length (elevationPointsQ [(0, 1 # 2); (1 # 2, 1 # 2); (1, 1 # 2)]))
           1
    /\ Forall (fun polygon =>
                 nth_error (Settings.colorStops DEFAULT_SETTINGS) 3
                 = Some (fill polygon)
                 /\ exists g, gradient polygon = Fin g /\ g == 0) created.
Proof.
  apply (buildPolygons_flat_route (Settings.colorStops DEFAULT_SETTINGS) 7
           [(0, 100); (1000, 100)] 100 1000 (Fin 100) (Fin 100)
           [(0, 1 # 2); (1 # 2, 1 # 2); (1, 1 # 2)]); reflexivity.
Defined.
